(** * nust-lang: parser, type/borrow checker and bytecode compiler

    A shallow embedding of the nust front end (include/parser/parser.h,
    src/parser/parser.cpp, src/type_checker.cpp, src/compiler.cpp,
    src/function_table.cpp, include/instruction.h and the output writers of
    src/main.cpp), followed by the properties established about it.

    Conventions of the embedding.
    - [std::vector] is a [list] in index order ([push_back] appends at the
      end), except the checker's scope stack, which is kept innermost first
      ([scopes_.back()] is the head of the list).
    - [std::unordered_map<std::string, _>] is a [gmap string _]; no map is
      ever iterated by the code.
    - [size_t] positions and indices are [nat]; instruction operands are [N].
      The only place where the width of [size_t] matters is the conversion of
      an [int] literal into an operand and the binary writer; both take the
      width in bytes as a parameter.
    - A [std::unique_ptr<Type>] that may be null is an [option Ty].
      Dereferencing a null pointer is undefined behaviour; the checker's
      functions return [None] when the code does so.
    - C++ exceptions are the left injection of a sum, carrying [what()].
    - The mutable [type] slot of an expression and the [is_mut_binding] flag
      of an identifier are fields of the node; the checker returns the
      updated tree.
    - The lexical [Scope] objects the parser hangs on statements are read by
      neither the checker nor the compiler and are left out, as is the echo
      of diagnostics on the standard error stream. *)

From Stdlib Require Import ZArith NArith Ascii String DecimalString DecimalNat DecimalN.
From stdpp Require Import gmap strings list.

Set Warnings "-register-all".

Local Open Scope string_scope.
Local Open Scope list_scope.

(** ** Data model (include/parser/parser.h) *)

Record Span := MkSpan { span_start : nat; span_end : nat }.

Inductive Kind := I32 | Bool | Str | Ref | MutRef.

Definition Kind_eqb (a b : Kind) : bool :=
  match a, b with
  | I32, I32 | Bool, Bool | Str, Str | Ref, Ref | MutRef, MutRef => true
  | _, _ => false
  end.

(** [class Type]: a kind, a possibly null [base_type] and a span. *)
Inductive Ty := MkTy { kind : Kind; base_type : option Ty; ty_span : Span }.

(** [Type::clone]: the deep copy. *)
Fixpoint clone (t : Ty) : Ty :=
  match t with
  | MkTy k b sp =>
      MkTy k (match b with Some b' => Some (clone b') | None => None end) sp
  end.

(** The copy the checker writes out by hand at every place but one:
    [make_unique<Type>(t.kind, t.span)], then, when [t.base_type] is not
    null, [base_type = make_unique<Type>(t.base_type->kind,
    t.base_type->span)].  The copy of the base has no base of its own. *)
Definition copy_base (t : Ty) : option Ty :=
  match base_type t with
  | Some b => Some (MkTy (kind b) None (ty_span b))
  | None => None
  end.

Definition copy_type (t : Ty) (sp : Span) : Ty := MkTy (kind t) (copy_base t) sp.

Module BinOp.
Inductive t :=
  Add | Sub | Mul | Div | Eq | Ne | Lt | Gt | Le | Ge | And | Or | Assignment.
End BinOp.

Module UnOp.
Inductive t := Neg | Not.
End UnOp.

(** Every expression carries its span and the [type] slot; an identifier
    also carries [is_mut_binding]. *)
Inductive Expr :=
| IntLiteral (sp : Span) (type : option Ty) (value : Z)
| BoolLiteral (sp : Span) (type : option Ty) (value : bool)
| StringLiteral (sp : Span) (type : option Ty) (value : string)
| Identifier (sp : Span) (type : option Ty) (name : string) (is_mut_binding : bool)
| BinaryExpr (sp : Span) (type : option Ty) (op : BinOp.t) (left_ right_ : Expr)
| UnaryExpr (sp : Span) (type : option Ty) (op : UnOp.t) (expr : Expr)
| BorrowExpr (sp : Span) (type : option Ty) (is_mut : bool) (expr : Expr)
| CallExpr (sp : Span) (type : option Ty) (callee : Expr) (args : list Expr).

Definition expr_span (e : Expr) : Span :=
  match e with
  | IntLiteral sp _ _ | BoolLiteral sp _ _ | StringLiteral sp _ _
  | Identifier sp _ _ _ | BinaryExpr sp _ _ _ _ | UnaryExpr sp _ _ _
  | BorrowExpr sp _ _ _ | CallExpr sp _ _ _ => sp
  end.

Definition expr_type (e : Expr) : option Ty :=
  match e with
  | IntLiteral _ ty _ | BoolLiteral _ ty _ | StringLiteral _ ty _
  | Identifier _ ty _ _ | BinaryExpr _ ty _ _ _ | UnaryExpr _ ty _ _
  | BorrowExpr _ ty _ _ | CallExpr _ ty _ _ => ty
  end.

Inductive Stmt :=
| LetStmt (sp : Span) (is_mut : bool) (name : string) (type : Ty) (init : Expr)
| ExprStmt (sp : Span) (expr : Expr)
| IfStmt (sp : Span) (condition : Expr) (then_branch : Stmt) (else_branch : option Stmt)
| WhileStmt (sp : Span) (condition : Expr) (body : Stmt)
| BlockStmt (sp : Span) (statements : list Stmt).

Record Param := MkParam {
  param_is_mut : bool;
  param_name : string;
  param_type : Ty;
  param_span : Span
}.

Record FunctionDecl := MkFunctionDecl {
  fn_span : Span;
  fn_name : string;
  fn_params : list Param;
  fn_return_type : Ty;
  fn_body : Stmt
}.

(** [Program::items] holds [ASTNode]s, but the parser only ever puts
    function declarations there. *)
Record Program := MkProgram { prog_span : Span; items : list FunctionDecl }.

(** Decimal rendering of a [size_t], as [operator<<] and [std::to_string]
    print it. *)
Definition show_size_t (n : nat) : string :=
  NilEmpty.string_of_uint (Nat.to_uint n).

(** ** Type and borrow checker (src/type_checker.cpp) *)

Module TypeChecker.

Record VariableInfo := MkVariableInfo { vi_type : Ty; vi_is_mut : bool }.

(** The checker object: [scopes_] (innermost first) and [errors_]. *)
Record t := Mk {
  scopes_ : list (gmap string VariableInfo);
  errors_ : list string
}.

Definition init : t := Mk [] [].

Definition has_errors (tc : t) : bool :=
  match errors_ tc with [] => false | _ => true end.

Definition format_error (message : string) (sp : Span) : string :=
  "Type error at " +:+ show_size_t (span_start sp) +:+ ":" +:+
  show_size_t (span_end sp) +:+ ": " +:+ message.

Definition error (message : string) (sp : Span) (tc : t) : t :=
  Mk (scopes_ tc) (errors_ tc ++ [format_error message sp]).

Definition enter_scope (tc : t) : t := Mk (∅ :: scopes_ tc) (errors_ tc).

(** [scopes_.pop_back()]; on an empty vector this is undefined. *)
Definition exit_scope (tc : t) : option t :=
  match scopes_ tc with
  | [] => None
  | _ :: rest => Some (Mk rest (errors_ tc))
  end.

Definition declare_variable (name : string) (type : Ty) (is_mut : bool) (tc : t)
  : bool * t :=
  let scopes := match scopes_ tc with [] => [∅] | _ => scopes_ tc end in
  match scopes with
  | [] => (false, tc)
  | current_scope :: rest =>
      match current_scope !! name with
      | Some _ => (false, Mk scopes (errors_ tc))
      | None =>
          (true, Mk (<[name := MkVariableInfo type is_mut]> current_scope :: rest)
                    (errors_ tc))
      end
  end.

Fixpoint lookup_scopes (name : string) (scopes : list (gmap string VariableInfo))
  : option VariableInfo :=
  match scopes with
  | [] => None
  | scope :: outer =>
      match scope !! name with
      | Some found =>
          Some (MkVariableInfo (copy_type (vi_type found) (ty_span (vi_type found)))
                               (vi_is_mut found))
      | None => lookup_scopes name outer
      end
  end.

Definition lookup_variable (name : string) (tc : t) : option VariableInfo :=
  lookup_scopes name (scopes_ tc).

(** [is_assignable]; [None] when a null [base_type] is dereferenced. *)
Fixpoint is_assignable (target source : Ty) : option bool :=
  match target with
  | MkTy tk tb _ =>
      if Kind_eqb tk (kind source) then
        if Kind_eqb tk Ref || Kind_eqb tk MutRef then
          match tb, base_type source with
          | Some tb', Some sb' => is_assignable tb' sb'
          | _, _ => None
          end
        else Some true
      else if Kind_eqb tk Ref && Kind_eqb (kind source) MutRef then
        match tb, base_type source with
        | Some tb', Some sb' => is_assignable tb' sb'
        | _, _ => None
        end
      else Some false
  end.

Fixpoint is_compatible (lhs rhs : Ty) : option bool :=
  match lhs with
  | MkTy lk lb _ =>
      if Kind_eqb lk (kind rhs) then
        if Kind_eqb lk Ref || Kind_eqb lk MutRef then
          match lb, base_type rhs with
          | Some lb', Some rb' => is_compatible lb' rb'
          | _, _ => None
          end
        else Some true
      else if (Kind_eqb lk Ref && Kind_eqb (kind rhs) MutRef)
              || (Kind_eqb lk MutRef && Kind_eqb (kind rhs) Ref) then
        match lb, base_type rhs with
        | Some lb', Some rb' => is_compatible lb' rb'
        | _, _ => None
        end
      else Some false
  end.

Definition is_mutable_reference (type : Ty) : bool := Kind_eqb (kind type) MutRef.

Definition is_reference (type : Ty) : bool :=
  Kind_eqb (kind type) Ref || Kind_eqb (kind type) MutRef.

(** The loop of the [BorrowExpr] case that marks a variable as mutably
    borrowed: in every scope that has the name, the stored type becomes
    [MutRef] over the hand-written copy of the old one. *)
Definition mark_borrowed (sp : Span) (info : VariableInfo) : VariableInfo :=
  MkVariableInfo
    (MkTy MutRef (Some (copy_type (vi_type info) (ty_span (vi_type info)))) sp)
    (vi_is_mut info).

Definition mark_mutably_borrowed (name : string) (sp : Span) (tc : t) : t :=
  Mk (map (alter (mark_borrowed sp) name) (scopes_ tc)) (errors_ tc).

(** The first declaration with the given name, as the loops over
    [program_->items] find it. *)
Definition find_function (prog : Program) (name : string) : option FunctionDecl :=
  find (fun f => String.eqb (fn_name f) name) (items prog).

Definition is_function_name (prog : Program) (name : string) : bool :=
  match find_function prog name with Some _ => true | None => false end.

Notation "'let?' p ':=' c 'in' k" :=
  (match c with Some p => k | None => None end)
  (at level 10, p pattern, c at level 100, k at level 200, only parsing).

Section Checker.

(** [program_], set by [check_program]. *)
Variable program_ : Program.

Fixpoint check_expression (e : Expr) (tc : t) : option (bool * Expr * t) :=
  match e with
  | IntLiteral sp _ v => Some (true, IntLiteral sp (Some (MkTy I32 None sp)) v, tc)
  | BoolLiteral sp _ v => Some (true, BoolLiteral sp (Some (MkTy Bool None sp)) v, tc)
  | StringLiteral sp _ v => Some (true, StringLiteral sp (Some (MkTy Str None sp)) v, tc)
  | Identifier sp ty name imb =>
      if is_function_name program_ name then Some (true, e, tc)
      else
        match lookup_variable name tc with
        | None => Some (false, e, error ("Undefined variable: " +:+ name) sp tc)
        | Some var_info =>
            Some (true,
                  Identifier sp (Some (copy_type (vi_type var_info) sp)) name
                             (vi_is_mut var_info),
                  tc)
        end
  | BinaryExpr sp ty BinOp.Assignment left_ right_ =>
      match left_ with
      | Identifier _ _ name _ =>
          match lookup_variable name tc with
          | None => Some (false, e, error ("Undefined variable: " +:+ name) sp tc)
          | Some var_info =>
              if Kind_eqb (kind (vi_type var_info)) MutRef then
                Some (false, e,
                      error ("Cannot use variable while mutably borrowed: " +:+ name) sp tc)
              else if negb (vi_is_mut var_info) then
                Some (false, e,
                      error ("Cannot assign to immutable variable: " +:+ name) sp tc)
              else
                let? (ok, right_', tc1) := check_expression right_ tc in
                if negb ok then
                  Some (false, BinaryExpr sp ty BinOp.Assignment left_ right_', tc1)
                else
                  let? rty := expr_type right_' in
                  let? assignable := is_assignable (vi_type var_info) rty in
                  if negb assignable then
                    Some (false, BinaryExpr sp ty BinOp.Assignment left_ right_',
                          error "Type mismatch in assignment" sp tc1)
                  else
                    Some (true,
                          BinaryExpr sp (Some (clone rty)) BinOp.Assignment left_ right_',
                          tc1)
          end
      | _ =>
          Some (false, e, error "Left side of assignment must be an identifier" sp tc)
      end
  | BinaryExpr sp ty op left_ right_ =>
      let? (okl, left_', tc1) := check_expression left_ tc in
      if negb okl then Some (false, BinaryExpr sp ty op left_' right_, tc1)
      else
        let? (okr, right_', tc2) := check_expression right_ tc1 in
        if negb okr then Some (false, BinaryExpr sp ty op left_' right_', tc2)
        else
          match expr_type left_', expr_type right_' with
          | Some lty, Some rty =>
              match op with
              | BinOp.Add | BinOp.Sub | BinOp.Mul | BinOp.Div =>
                  if negb (Kind_eqb (kind lty) I32) || negb (Kind_eqb (kind rty) I32) then
                    Some (false, BinaryExpr sp ty op left_' right_',
                          error "Arithmetic operations require integer operands" sp tc2)
                  else
                    Some (true, BinaryExpr sp (Some (MkTy I32 None sp)) op left_' right_', tc2)
              | BinOp.Eq | BinOp.Ne | BinOp.Lt | BinOp.Gt | BinOp.Le | BinOp.Ge =>
                  let? compatible := is_compatible lty rty in
                  if negb compatible then
                    Some (false, BinaryExpr sp ty op left_' right_',
                          error "Incompatible types in comparison" sp tc2)
                  else
                    Some (true, BinaryExpr sp (Some (MkTy Bool None sp)) op left_' right_', tc2)
              | BinOp.And | BinOp.Or =>
                  if negb (Kind_eqb (kind lty) Bool) || negb (Kind_eqb (kind rty) Bool) then
                    Some (false, BinaryExpr sp ty op left_' right_',
                          error "Logical operations require boolean operands" sp tc2)
                  else
                    Some (true, BinaryExpr sp (Some (MkTy Bool None sp)) op left_' right_', tc2)
              | BinOp.Assignment => Some (true, BinaryExpr sp ty op left_' right_', tc2)
              end
          | _, _ =>
              Some (false, BinaryExpr sp ty op left_' right_',
                    error "Invalid operands in binary expression" sp tc2)
          end
  | UnaryExpr sp ty op operand =>
      let? (ok, operand', tc1) := check_expression operand tc in
      if negb ok then Some (false, UnaryExpr sp ty op operand', tc1)
      else
        match expr_type operand' with
        | None =>
            Some (false, UnaryExpr sp ty op operand',
                  error "Invalid operand in unary expression" sp tc1)
        | Some oty =>
            match op with
            | UnOp.Neg =>
                if negb (Kind_eqb (kind oty) I32) then
                  Some (false, UnaryExpr sp ty op operand',
                        error "Negation requires integer operand" sp tc1)
                else Some (true, UnaryExpr sp (Some (MkTy I32 None sp)) op operand', tc1)
            | UnOp.Not =>
                if negb (Kind_eqb (kind oty) Bool) then
                  Some (false, UnaryExpr sp ty op operand',
                        error "Logical not requires boolean operand" sp tc1)
                else Some (true, UnaryExpr sp (Some (MkTy Bool None sp)) op operand', tc1)
            end
        end
  | BorrowExpr sp ty is_mut operand =>
      let? (ok, operand', tc1) := check_expression operand tc in
      if negb ok then Some (false, BorrowExpr sp ty is_mut operand', tc1)
      else
        match expr_type operand' with
        | None =>
            Some (false, BorrowExpr sp ty is_mut operand',
                  error "Invalid operand in borrow expression" sp tc1)
        | Some oty =>
            let finish (tc2 : t) :=
              Some (true,
                    BorrowExpr sp
                      (Some (MkTy (if is_mut then MutRef else Ref)
                                  (Some (copy_type oty (ty_span oty))) sp))
                      is_mut operand',
                    tc2) in
            if is_mut then
              match operand' with
              | Identifier _ _ name imb =>
                  if negb imb then
                    Some (false, BorrowExpr sp ty is_mut operand',
                          error "Cannot borrow immutable variable as mutable" sp tc1)
                  else
                    match lookup_variable name tc1 with
                    | Some var_info =>
                        if Kind_eqb (kind (vi_type var_info)) MutRef then
                          Some (false, BorrowExpr sp ty is_mut operand',
                                error ("Variable already mutably borrowed: " +:+ name) sp tc1)
                        else finish (mark_mutably_borrowed name sp tc1)
                    | None => finish tc1
                    end
              | _ => finish tc1
              end
            else finish tc1
        end
  | CallExpr sp ty callee args =>
      let? (ok, callee', tc1) := check_expression callee tc in
      if negb ok then Some (false, CallExpr sp ty callee' args, tc1)
      else
        match callee' with
        | Identifier _ _ callee_name _ =>
            match find_function program_ callee_name with
            | None =>
                Some (false, CallExpr sp ty callee' args,
                      error ("Undefined function: " +:+ callee_name) sp tc1)
            | Some func_decl =>
                if negb (length args =? length (fn_params func_decl))%nat then
                  Some (false, CallExpr sp ty callee' args,
                        error ("Wrong number of arguments for function " +:+ callee_name)
                              sp tc1)
                else
                  let? (ok_args, args', tc2) :=
                    (fix check_args (i : nat) (args : list Expr) (params : list Param)
                         (tc : t) {struct args} : option (bool * list Expr * t) :=
                       match args with
                       | [] => Some (true, [], tc)
                       | arg :: rest =>
                           let? (ok, arg', tc1) := check_expression arg tc in
                           if negb ok then Some (false, arg' :: rest, tc1)
                           else
                             match expr_type arg' with
                             | None =>
                                 Some (false, arg' :: rest,
                                       error "Invalid argument in function call" sp tc1)
                             | Some aty =>
                                 match params with
                                 | [] => None
                                 | param :: params' =>
                                     let? assignable := is_assignable (param_type param) aty in
                                     if negb assignable then
                                       Some (false, arg' :: rest,
                                             error ("Type mismatch in argument " +:+
                                                    show_size_t (i + 1) +:+
                                                    " of function " +:+ callee_name)
                                                   (expr_span arg') tc1)
                                     else
                                       let? (ok', rest', tc2) :=
                                         check_args (S i) rest params' tc1 in
                                       Some (ok', arg' :: rest', tc2)
                                 end
                             end
                       end) 0%nat args (fn_params func_decl) tc1 in
                  if negb ok_args then Some (false, CallExpr sp ty callee' args', tc2)
                  else
                    Some (true,
                          CallExpr sp (Some (copy_type (fn_return_type func_decl) sp))
                                   callee' args',
                          tc2)
            end
        | _ =>
            Some (false, CallExpr sp ty callee' args,
                  error "Function call requires a function name" sp tc1)
        end
  end.

Fixpoint check_statement (stmt : Stmt) (tc : t) : option (bool * Stmt * t) :=
  match stmt with
  | LetStmt sp is_mut name type init =>
      let? (ok, init', tc1) := check_expression init tc in
      if negb ok then Some (false, LetStmt sp is_mut name type init', tc1)
      else
        let? ity := expr_type init' in
        let? assignable := is_assignable type ity in
        if negb assignable then
          Some (false, LetStmt sp is_mut name type init',
                error "Type mismatch in let binding" sp tc1)
        else
          let (declared, tc2) :=
            declare_variable name (copy_type type (ty_span type)) is_mut tc1 in
          if negb declared then
            Some (false, LetStmt sp is_mut name type init',
                  error ("Duplicate variable name: " +:+ name) sp tc2)
          else Some (true, LetStmt sp is_mut name type init', tc2)
  | ExprStmt sp expr =>
      let? (ok, expr', tc1) := check_expression expr tc in
      Some (ok, ExprStmt sp expr', tc1)
  | IfStmt sp condition then_branch else_branch =>
      let? (ok, condition', tc1) := check_expression condition tc in
      if negb ok then Some (false, IfStmt sp condition' then_branch else_branch, tc1)
      else if match expr_type condition' with
              | None => true
              | Some cty => negb (Kind_eqb (kind cty) Bool)
              end then
        Some (false, IfStmt sp condition' then_branch else_branch,
              error "If condition must be boolean" (expr_span condition') tc1)
      else
        let? (then_success, then_branch', tc2) :=
          check_statement then_branch (enter_scope tc1) in
        let? tc3 := exit_scope tc2 in
        match else_branch with
        | Some else_stmt =>
            let? (else_success, else_stmt', tc4) :=
              check_statement else_stmt (enter_scope tc3) in
            let? tc5 := exit_scope tc4 in
            Some (then_success && else_success,
                  IfStmt sp condition' then_branch' (Some else_stmt'), tc5)
        | None => Some (then_success, IfStmt sp condition' then_branch' None, tc3)
        end
  | WhileStmt sp condition body =>
      let? (ok, condition', tc1) := check_expression condition tc in
      if negb ok then Some (false, WhileStmt sp condition' body, tc1)
      else if match expr_type condition' with
              | None => true
              | Some cty => negb (Kind_eqb (kind cty) Bool)
              end then
        Some (false, WhileStmt sp condition' body,
              error "While condition must be boolean" (expr_span condition') tc1)
      else
        let? (success, body', tc2) := check_statement body (enter_scope tc1) in
        let? tc3 := exit_scope tc2 in
        Some (success, WhileStmt sp condition' body', tc3)
  | BlockStmt sp statements =>
      let? (success, statements', tc1) :=
        (fix check_block (stmts : list Stmt) (tc : t) {struct stmts}
           : option (bool * list Stmt * t) :=
           match stmts with
           | [] => Some (true, [], tc)
           | s :: rest =>
               let? (ok, s', tc1) := check_statement s tc in
               if negb ok then Some (false, s' :: rest, tc1)
               else
                 let? (ok', rest', tc2) := check_block rest tc1 in
                 Some (ok', s' :: rest', tc2)
           end) statements (enter_scope tc) in
      let? tc2 := exit_scope tc1 in
      Some (success, BlockStmt sp statements', tc2)
  end.

(** The parameter loop of [check_function]. *)
Fixpoint declare_params (params : list Param) (tc : t) : bool * t :=
  match params with
  | [] => (true, tc)
  | param :: rest =>
      let (declared, tc1) :=
        declare_variable (param_name param)
          (copy_type (param_type param) (ty_span (param_type param)))
          (param_is_mut param) tc in
      if negb declared then
        (false, error ("Duplicate parameter name: " +:+ param_name param)
                      (param_span param) tc1)
      else declare_params rest tc1
  end.

(** The return-type check of [check_function]: when the body is a block
    whose last statement is an expression statement, that expression is
    checked again and its type compared with the declared return type. *)
Definition check_return (return_type : Ty) (body : Stmt) (success : bool) (tc : t)
  : option (bool * Stmt * t) :=
  match body with
  | BlockStmt bsp statements =>
      match last statements with
      | Some (ExprStmt esp expr) =>
          let? (ok, expr', tc1) := check_expression expr tc in
          let body' := BlockStmt bsp (removelast statements ++ [ExprStmt esp expr']) in
          if negb ok then Some (false, body', tc1)
          else
            let? ety := expr_type expr' in
            let? assignable := is_assignable return_type ety in
            if negb assignable then
              Some (false, body', error "Function return type mismatch" esp tc1)
            else Some (success, body', tc1)
      | _ => Some (success, body, tc)
      end
  | _ => Some (success, body, tc)
  end.

Definition check_function (func : FunctionDecl) (tc : t)
  : option (bool * FunctionDecl * t) :=
  let (declared, tc1) := declare_params (fn_params func) (enter_scope tc) in
  if negb declared then Some (false, func, tc1)
  else
    let? (success, body', tc2) := check_statement (fn_body func) tc1 in
    let? (success', body'', tc3) :=
      check_return (fn_return_type func) body' success tc2 in
    let? tc4 := exit_scope tc3 in
    Some (success',
          MkFunctionDecl (fn_span func) (fn_name func) (fn_params func)
                         (fn_return_type func) body'',
          tc4).

(** The loop of [check_program]: it returns [false] as soon as one
    function fails. *)
Fixpoint check_functions (funcs : list FunctionDecl) (tc : t)
  : option (bool * list FunctionDecl * t) :=
  match funcs with
  | [] => Some (negb (has_errors tc), [], tc)
  | func :: rest =>
      let? (ok, func', tc1) := check_function func tc in
      if negb ok then Some (false, func' :: rest, tc1)
      else
        let? (result, rest', tc2) := check_functions rest tc1 in
        Some (result, func' :: rest', tc2)
  end.

End Checker.

Definition check_program (program : Program) (tc : t) : option (bool * Program * t) :=
  let? (result, items', tc1) := check_functions program (items program) tc in
  Some (result, MkProgram (prog_span program) items', tc1).

End TypeChecker.

(** ** Parser (src/parser/parser.cpp) *)

Module Parser.

(** What a parsing function leaves behind: a value and the new [pos], or
    the exception it threw.  The recursive descent is not structural, so the
    functions take fuel; [OutOfFuel] is the embedding's own outcome. *)
Inductive result (A : Type) :=
| Ok (a : A) (pos : nat)
| Throw (what : string)
| OutOfFuel.
Arguments Ok {A} a pos.
Arguments Throw {A} what.
Arguments OutOfFuel {A}.

Definition bind {A B} (r : result A) (k : A -> nat -> result B) : result B :=
  match r with
  | Ok a pos => k a pos
  | Throw what => Throw what
  | OutOfFuel => OutOfFuel
  end.

Notation "'do' x , p <- c ; k" := (bind c (fun x p => k))
  (at level 10, x name, p name, c at level 100, k at level 200, only parsing).

(** <cctype> in the "C" locale *)
Definition isdigit (c : ascii) : bool :=
  let n := nat_of_ascii c in (48 <=? n)%nat && (n <=? 57)%nat.

Definition isalpha (c : ascii) : bool :=
  let n := nat_of_ascii c in
  ((65 <=? n)%nat && (n <=? 90)%nat) || ((97 <=? n)%nat && (n <=? 122)%nat).

Definition isalnum (c : ascii) : bool := isalpha c || isdigit c.

Definition isspace (c : ascii) : bool :=
  let n := nat_of_ascii c in (n =? 32)%nat || ((9 <=? n)%nat && (n <=? 13)%nat).

Fixpoint string_drop (n : nat) (s : string) : string :=
  match n, s with
  | O, _ => s
  | S n', String _ s' => string_drop n' s'
  | S _, EmptyString => EmptyString
  end.

(** The inner loops of the lexer, by recursion on what is left of the
    source; each returns how many characters it consumes. *)
Fixpoint skip_whitespace_from (s : string) (in_comment : bool) : nat :=
  match s with
  | EmptyString => O
  | String c s' =>
      if in_comment then
        if (c =? "010")%char || (c =? "013")%char then S (skip_whitespace_from s' false)
        else S (skip_whitespace_from s' true)
      else if isspace c || (c =? "010")%char || (c =? "013")%char then
        S (skip_whitespace_from s' false)
      else
        match c, s' with
        | "/"%char, String "/"%char s'' => S (S (skip_whitespace_from s'' true))
        | _, _ => O
        end
  end.

Fixpoint identifier_length (s : string) : nat :=
  match s with
  | String c s' =>
      if isalnum c || (c =? "_")%char then S (identifier_length s') else O
  | EmptyString => O
  end.

Fixpoint digits_length (s : string) : nat :=
  match s with
  | String c s' => if isdigit c then S (digits_length s') else O
  | EmptyString => O
  end.

(** The double quote character (code 34), which opens and closes a string
    literal. *)
Definition double_quote : ascii := Ascii.Ascii false true false false false true false false.

(** The loop of [consume_string] after the opening quote: the number of
    characters before the closing quote, or [None] when the source ends
    first ("Unterminated string"). A backslash skips the next character. *)
Fixpoint string_body_length (s : string) : option nat :=
  match s with
  | EmptyString => None
  | String c s' =>
      if (c =? double_quote)%char then Some O
      else if (c =? "\")%char then
        match s' with
        | EmptyString => None
        | String _ s'' => option_map (fun n => S (S n)) (string_body_length s'')
        end
      else option_map S (string_body_length s')
  end.

Fixpoint decimal_value (s : string) (acc : Z) : Z :=
  match s with
  | String c s' => decimal_value s' (10 * acc + (Z.of_nat (nat_of_ascii c) - 48))%Z
  | EmptyString => acc
  end.

Section WithSource.

Variable source : string.

Definition rest (pos : nat) : string := string_drop pos source.

(** [source[pos]]; at [pos == source.length()] this is the NUL character. *)
Definition char_at (pos : nat) : ascii :=
  match rest pos with
  | String c _ => c
  | EmptyString => zero
  end.

Definition at_end (pos : nat) : bool := (String.length source <=? pos)%nat.

(** [source.compare(pos, expected.length(), expected) == 0].  For a [pos]
    beyond [source.length()] [compare] throws [std::out_of_range]; a parse
    never reaches such a position, and the definition answers [false]
    there. *)
Definition peek (expected : string) (pos : nat) : bool :=
  String.prefix expected (rest pos).

Definition match_ (expected : string) (pos : nat) : bool * nat :=
  if peek expected pos then (true, pos + String.length expected) else (false, pos).

Definition error {A} (message : string) (pos : nat) : result A :=
  Throw ("Parse error at position " +:+ show_size_t pos +:+ ": " +:+ message).

Definition expect (expected : string) (pos : nat) : result unit :=
  let (matched, pos') := match_ expected pos in
  if matched then Ok tt pos' else error ("Expected '" +:+ expected +:+ "'") pos.

Definition skip_whitespace (pos : nat) : nat :=
  pos + skip_whitespace_from (rest pos) false.

Definition make_span (start pos : nat) : Span := MkSpan start pos.

Definition consume_identifier (pos : nat) : result string :=
  if negb (isalpha (char_at pos)) && negb (char_at pos =? "_")%char then
    error "Expected identifier" pos
  else
    let len := identifier_length (rest pos) in
    Ok (String.substring pos len source) (pos + len).

(** [std::stoi] throws [std::invalid_argument] when there is no digit to
    convert, and [std::out_of_range] when the digits denote more than
    [INT_MAX]; the [what()] of both is "stoi". *)
Definition consume_integer (pos : nat) : result Z :=
  let len := digits_length (rest pos) in
  let value := decimal_value (String.substring pos len source) 0 in
  if (len =? 0)%nat then Throw "stoi"
  else if (2147483647 <? value)%Z then Throw "stoi" else Ok value (pos + len).

Definition consume_string (pos : nat) : result string :=
  if negb (char_at pos =? double_quote)%char then error "Expected string" pos
  else
    match string_body_length (rest (pos + 1)) with
    | None => error "Unterminated string" (String.length source)
    | Some len => Ok (String.substring (pos + 1) len source) (pos + 1 + len + 1)
    end.

(** [parse_type] *)
Fixpoint parse_type (fuel : nat) (pos : nat) : result Ty :=
  match fuel with
  | O => OutOfFuel
  | S fuel =>
      let start := pos in
      let (amp, pos1) := match_ "&" pos in
      if amp then
        let (is_mut, pos2) := match_ "mut" pos1 in
        let pos3 := if is_mut then skip_whitespace pos2 else pos2 in
        do inner, pos4 <- parse_type fuel pos3 ;
        Ok (MkTy (if is_mut then MutRef else Ref) (Some inner) (make_span start pos4)) pos4
      else
        let (is_i32, pos1) := match_ "i32" pos in
        if is_i32 then Ok (MkTy I32 None (make_span start pos1)) pos1
        else
          let (is_bool, pos1) := match_ "bool" pos in
          if is_bool then Ok (MkTy Bool None (make_span start pos1)) pos1
          else
            let (is_str, pos1) := match_ "str" pos in
            if is_str then Ok (MkTy Str None (make_span start pos1)) pos1
            else error "Expected type" pos
  end.

(** The do-while loop of [parse_params]. *)
Fixpoint parse_params_loop (fuel : nat) (params : list Param) (pos : nat)
  : result (list Param) :=
  match fuel with
  | O => OutOfFuel
  | S fuel =>
      let param_start := pos in
      let pos := skip_whitespace pos in
      let (is_mut, pos) := match_ "mut" pos in
      let pos := if is_mut then skip_whitespace pos else pos in
      do name, pos <- consume_identifier pos ;
      let pos := skip_whitespace pos in
      do _u, pos <- expect ":" pos ;
      let pos := skip_whitespace pos in
      do type, pos <- parse_type fuel pos ;
      let params := params ++ [MkParam is_mut name type (make_span param_start pos)] in
      let pos := skip_whitespace pos in
      let (more, pos) := match_ "," pos in
      if more then parse_params_loop fuel params pos else Ok params pos
  end.

Definition parse_params (fuel : nat) (pos : nat) : result (list Param) :=
  let pos := skip_whitespace pos in
  if peek ")" pos then Ok [] pos else parse_params_loop fuel [] pos.


(** A binary node whose span starts where its left operand's does
    ([make_span(expr->span.start)]). *)
Definition binary_from_left (op : BinOp.t) (lhs rhs : Expr) (pos : nat) : Expr :=
  BinaryExpr (make_span (span_start (expr_span lhs)) pos) None op lhs rhs.

(** The expression and statement grammar.  Where a constructor call takes
    both [make_span(start)] and a [consume_...()] call as arguments, the
    order of their evaluation is unspecified in C++; the token is consumed
    first here, so that the span covers it. *)
Fixpoint parse_expr (fuel : nat) (pos : nat) {struct fuel} : result Expr :=
  match fuel with
  | O => OutOfFuel
  | S fuel => parse_assignment fuel pos
  end

with parse_assignment (fuel : nat) (pos : nat) {struct fuel} : result Expr :=
  match fuel with
  | O => OutOfFuel
  | S fuel =>
      do lhs, pos1 <- parse_or fuel pos ;
      let (is_assign, pos2) := match_ "=" pos1 in
      if is_assign then
        let pos3 := skip_whitespace pos2 in
        match lhs with
        | Identifier _ _ _ _ =>
            do rhs, pos4 <- parse_assignment fuel pos3 ;
            Ok (binary_from_left BinOp.Assignment lhs rhs pos4) pos4
        | _ => Throw "Invalid assignment target"
        end
      else Ok lhs pos1
  end

with parse_or (fuel : nat) (pos : nat) {struct fuel} : result Expr :=
  match fuel with
  | O => OutOfFuel
  | S fuel =>
      do expr, pos1 <- parse_and fuel pos ;
      parse_or_loop fuel expr pos1
  end

with parse_or_loop (fuel : nat) (expr : Expr) (pos : nat) {struct fuel} : result Expr :=
  match fuel with
  | O => OutOfFuel
  | S fuel =>
      let (matched, pos1) := match_ "||" pos in
      if matched then
        do rhs, pos2 <- parse_and fuel (skip_whitespace pos1) ;
        parse_or_loop fuel (binary_from_left BinOp.Or expr rhs pos2) pos2
      else Ok expr pos
  end

with parse_and (fuel : nat) (pos : nat) {struct fuel} : result Expr :=
  match fuel with
  | O => OutOfFuel
  | S fuel =>
      do expr, pos1 <- parse_equality fuel pos ;
      parse_and_loop fuel expr pos1
  end

with parse_and_loop (fuel : nat) (expr : Expr) (pos : nat) {struct fuel} : result Expr :=
  match fuel with
  | O => OutOfFuel
  | S fuel =>
      let (matched, pos1) := match_ "&&" pos in
      if matched then
        do rhs, pos2 <- parse_equality fuel (skip_whitespace pos1) ;
        parse_and_loop fuel (binary_from_left BinOp.And expr rhs pos2) pos2
      else Ok expr pos
  end

with parse_equality (fuel : nat) (pos : nat) {struct fuel} : result Expr :=
  match fuel with
  | O => OutOfFuel
  | S fuel =>
      do expr, pos1 <- parse_comparison fuel pos ;
      parse_equality_loop fuel expr pos1
  end

with parse_equality_loop (fuel : nat) (expr : Expr) (pos : nat) {struct fuel}
  : result Expr :=
  match fuel with
  | O => OutOfFuel
  | S fuel =>
      let (is_eq, pos1) := match_ "==" pos in
      if is_eq then
        do rhs, pos2 <- parse_comparison fuel (skip_whitespace pos1) ;
        parse_equality_loop fuel (binary_from_left BinOp.Eq expr rhs pos2) pos2
      else
        let (is_ne, pos1) := match_ "!=" pos in
        if is_ne then
          do rhs, pos2 <- parse_comparison fuel (skip_whitespace pos1) ;
          parse_equality_loop fuel (binary_from_left BinOp.Ne expr rhs pos2) pos2
        else Ok expr pos
  end

with parse_comparison (fuel : nat) (pos : nat) {struct fuel} : result Expr :=
  match fuel with
  | O => OutOfFuel
  | S fuel =>
      do expr, pos1 <- parse_term fuel pos ;
      parse_comparison_loop fuel pos expr pos1
  end

with parse_comparison_loop (fuel : nat) (start : nat) (expr : Expr) (pos : nat)
       {struct fuel} : result Expr :=
  match fuel with
  | O => OutOfFuel
  | S fuel =>
      let pos0 := skip_whitespace pos in
      let continue (op : BinOp.t) (pos1 : nat) :=
        do rhs, pos2 <- parse_term fuel (skip_whitespace pos1) ;
        parse_comparison_loop fuel start
          (BinaryExpr (make_span start pos2) None op expr rhs) pos2 in
      let (is_lt, pos1) := match_ "<" pos0 in
      if is_lt then continue BinOp.Lt pos1
      else
        let (is_le, pos1) := match_ "<=" pos0 in
        if is_le then continue BinOp.Le pos1
        else
          let (is_gt, pos1) := match_ ">" pos0 in
          if is_gt then continue BinOp.Gt pos1
          else
            let (is_ge, pos1) := match_ ">=" pos0 in
            if is_ge then continue BinOp.Ge pos1
            else Ok expr pos0
  end

with parse_term (fuel : nat) (pos : nat) {struct fuel} : result Expr :=
  match fuel with
  | O => OutOfFuel
  | S fuel =>
      do expr, pos1 <- parse_factor fuel pos ;
      parse_term_loop fuel pos expr pos1
  end

with parse_term_loop (fuel : nat) (start : nat) (expr : Expr) (pos : nat)
       {struct fuel} : result Expr :=
  match fuel with
  | O => OutOfFuel
  | S fuel =>
      let pos0 := skip_whitespace pos in
      let continue (op : BinOp.t) (pos1 : nat) :=
        do rhs, pos2 <- parse_factor fuel (skip_whitespace pos1) ;
        parse_term_loop fuel start
          (BinaryExpr (make_span start pos2) None op expr rhs) pos2 in
      let (is_add, pos1) := match_ "+" pos0 in
      if is_add then continue BinOp.Add pos1
      else
        let (is_sub, pos1) := match_ "-" pos0 in
        if is_sub then continue BinOp.Sub pos1
        else Ok expr pos0
  end

with parse_factor (fuel : nat) (pos : nat) {struct fuel} : result Expr :=
  match fuel with
  | O => OutOfFuel
  | S fuel =>
      do expr, pos1 <- parse_unary fuel pos ;
      parse_factor_loop fuel pos expr pos1
  end

with parse_factor_loop (fuel : nat) (start : nat) (expr : Expr) (pos : nat)
       {struct fuel} : result Expr :=
  match fuel with
  | O => OutOfFuel
  | S fuel =>
      let pos0 := skip_whitespace pos in
      let continue (op : BinOp.t) (pos1 : nat) :=
        do rhs, pos2 <- parse_unary fuel (skip_whitespace pos1) ;
        parse_factor_loop fuel start
          (BinaryExpr (make_span start pos2) None op expr rhs) pos2 in
      let (is_mul, pos1) := match_ "*" pos0 in
      if is_mul then continue BinOp.Mul pos1
      else
        let (is_div, pos1) := match_ "/" pos0 in
        if is_div then continue BinOp.Div pos1
        else Ok expr pos0
  end

with parse_unary (fuel : nat) (pos : nat) {struct fuel} : result Expr :=
  match fuel with
  | O => OutOfFuel
  | S fuel =>
      let start := pos in
      let pos0 := skip_whitespace pos in
      let (is_neg, pos1) := match_ "-" pos0 in
      if is_neg then
        do operand, pos2 <- parse_unary fuel pos1 ;
        Ok (UnaryExpr (make_span start pos2) None UnOp.Neg operand) pos2
      else
        let (is_not, pos1) := match_ "!" pos0 in
        if is_not then
          do operand, pos2 <- parse_unary fuel pos1 ;
          Ok (UnaryExpr (make_span start pos2) None UnOp.Not operand) pos2
        else
          let (is_borrow, pos1) := match_ "&" pos0 in
          if is_borrow then
            let (is_mut, pos2) := match_ "mut" pos1 in
            let pos3 := if is_mut then skip_whitespace pos2 else pos2 in
            do operand, pos4 <- parse_unary fuel pos3 ;
            Ok (BorrowExpr (make_span start pos4) None is_mut operand) pos4
          else parse_call fuel pos0
  end

with parse_call (fuel : nat) (pos : nat) {struct fuel} : result Expr :=
  match fuel with
  | O => OutOfFuel
  | S fuel =>
      do expr, pos1 <- parse_primary fuel pos ;
      parse_call_loop fuel pos expr pos1
  end

with parse_call_loop (fuel : nat) (start : nat) (expr : Expr) (pos : nat)
       {struct fuel} : result Expr :=
  match fuel with
  | O => OutOfFuel
  | S fuel =>
      let pos0 := skip_whitespace pos in
      let (is_call, pos1) := match_ "(" pos0 in
      if is_call then
        let pos2 := skip_whitespace pos1 in
        do args, pos3 <- (if negb (peek ")" pos2) then parse_args_loop fuel [] pos2
                          else Ok [] pos2) ;
        do _u, pos4 <- expect ")" pos3 ;
        parse_call_loop fuel start (CallExpr (make_span start pos4) None expr args) pos4
      else Ok expr pos0
  end

with parse_args_loop (fuel : nat) (args : list Expr) (pos : nat) {struct fuel}
  : result (list Expr) :=
  match fuel with
  | O => OutOfFuel
  | S fuel =>
      do arg, pos1 <- parse_expr fuel pos ;
      let (more, pos2) := match_ "," (skip_whitespace pos1) in
      if more then parse_args_loop fuel (args ++ [arg]) pos2
      else Ok (args ++ [arg]) pos2
  end

with parse_primary (fuel : nat) (pos : nat) {struct fuel} : result Expr :=
  match fuel with
  | O => OutOfFuel
  | S fuel =>
      let start := pos in
      let pos0 := skip_whitespace pos in
      if isdigit (char_at pos0) then
        do value, pos1 <- consume_integer pos0 ;
        Ok (IntLiteral (make_span start pos1) None value) pos1
      else
        let (is_true, pos1) := match_ "true" pos0 in
        if is_true then Ok (BoolLiteral (make_span start pos1) None true) pos1
        else
          let (is_false, pos1) := match_ "false" pos0 in
          if is_false then Ok (BoolLiteral (make_span start pos1) None false) pos1
          else if (char_at pos0 =? double_quote)%char then
            do value, pos1 <- consume_string pos0 ;
            Ok (StringLiteral (make_span start pos1) None value) pos1
          else if isalpha (char_at pos0) || (char_at pos0 =? "_")%char then
            do name, pos1 <- consume_identifier pos0 ;
            Ok (Identifier (make_span start pos1) None name false) pos1
          else
            let (is_paren, pos1) := match_ "(" pos0 in
            if is_paren then
              do expr, pos2 <- parse_expr fuel pos1 ;
              do _u, pos3 <- expect ")" pos2 ;
              Ok expr pos3
            else error "Expected expression" pos0
  end.

Definition parse_let (fuel : nat) (pos : nat) : result Stmt :=
  let start := pos in
  let pos0 := skip_whitespace pos in
  let (is_mut, pos1) := match_ "mut" pos0 in
  let pos2 := if is_mut then skip_whitespace pos1 else pos1 in
  do name, pos3 <- consume_identifier pos2 ;
  do _u, pos4 <- expect ":" (skip_whitespace pos3) ;
  do type, pos5 <- parse_type fuel (skip_whitespace pos4) ;
  do _u, pos6 <- expect "=" (skip_whitespace pos5) ;
  do init, pos7 <- parse_expr fuel (skip_whitespace pos6) ;
  do _u, pos8 <- expect ";" (skip_whitespace pos7) ;
  Ok (LetStmt (make_span start pos8) is_mut name type init) pos8.

Fixpoint parse_statement (fuel : nat) (pos : nat) {struct fuel} : result Stmt :=
  match fuel with
  | O => OutOfFuel
  | S fuel =>
      let pos0 := skip_whitespace pos in
      let (is_let, pos1) := match_ "let" pos0 in
      if is_let then parse_let fuel pos1
      else
        let (is_if, pos1) := match_ "if" pos0 in
        if is_if then parse_if fuel pos1
        else
          let (is_while, pos1) := match_ "while" pos0 in
          if is_while then parse_while fuel pos1
          else if peek "{" pos0 then parse_block fuel pos0
          else
            let start := pos0 in
            do expr, pos1 <- parse_expr fuel pos0 ;
            let pos2 := skip_whitespace pos1 in
            if negb (peek "}" pos2) && negb (at_end pos2) then
              do _u, pos3 <- expect ";" pos2 ;
              Ok (ExprStmt (make_span start pos3) expr) pos3
            else Ok (ExprStmt (make_span start pos2) expr) pos2
  end

with parse_if (fuel : nat) (pos : nat) {struct fuel} : result Stmt :=
  match fuel with
  | O => OutOfFuel
  | S fuel =>
      let start := pos in
      do condition, pos1 <- parse_expr fuel (skip_whitespace pos) ;
      do then_branch, pos2 <- parse_block fuel (skip_whitespace pos1) ;
      let pos3 := skip_whitespace pos2 in
      let (has_else, pos4) := match_ "else" pos3 in
      if has_else then
        let pos5 := skip_whitespace pos4 in
        let (is_else_if, pos6) := match_ "if" pos5 in
        do else_branch, pos7 <- (if is_else_if then parse_if fuel pos6
                                 else parse_block fuel pos5) ;
        Ok (IfStmt (make_span start pos7) condition then_branch (Some else_branch)) pos7
      else Ok (IfStmt (make_span start pos3) condition then_branch None) pos3
  end

with parse_while (fuel : nat) (pos : nat) {struct fuel} : result Stmt :=
  match fuel with
  | O => OutOfFuel
  | S fuel =>
      let start := pos in
      do condition, pos1 <- parse_expr fuel (skip_whitespace pos) ;
      do body, pos2 <- parse_block fuel (skip_whitespace pos1) ;
      Ok (WhileStmt (make_span start pos2) condition body) pos2
  end

with parse_block (fuel : nat) (pos : nat) {struct fuel} : result Stmt :=
  match fuel with
  | O => OutOfFuel
  | S fuel =>
      let start := pos in
      do _u, pos1 <- expect "{" pos ;
      do statements, pos2 <- parse_block_loop fuel [] (skip_whitespace pos1) ;
      do _u, pos3 <- expect "}" pos2 ;
      Ok (BlockStmt (make_span start pos3) statements) pos3
  end

with parse_block_loop (fuel : nat) (statements : list Stmt) (pos : nat) {struct fuel}
  : result (list Stmt) :=
  match fuel with
  | O => OutOfFuel
  | S fuel =>
      if negb (at_end pos) && negb (peek "}" pos) then
        do stmt, pos1 <- parse_statement fuel pos ;
        parse_block_loop fuel (statements ++ [stmt]) (skip_whitespace pos1)
      else Ok statements pos
  end.

Definition parse_function (fuel : nat) (pos : nat) : result FunctionDecl :=
  let start := pos in
  do _u, pos1 <- expect "fn" pos ;
  do name, pos2 <- consume_identifier (skip_whitespace pos1) ;
  do _u, pos3 <- expect "(" (skip_whitespace pos2) ;
  do params, pos4 <- parse_params fuel pos3 ;
  do _u, pos5 <- expect ")" pos4 ;
  let pos6 := skip_whitespace pos5 in
  let (has_arrow, pos7) := match_ "->" pos6 in
  do return_type, pos8 <-
     (if has_arrow then
        do type, pos' <- parse_type fuel (skip_whitespace pos7) ;
        Ok type (skip_whitespace pos')
      else Ok (MkTy I32 None (make_span pos6 pos6)) pos6) ;
  do body, pos9 <- parse_block fuel pos8 ;
  Ok (MkFunctionDecl (make_span start pos9) name params return_type body) pos9.

(** The loop of [parse]. *)
Fixpoint parse_items (fuel : nat) (items : list FunctionDecl) (pos : nat)
  : result (list FunctionDecl) :=
  match fuel with
  | O => OutOfFuel
  | S fuel =>
      if negb (at_end pos) then
        do func, pos1 <- parse_function fuel pos ;
        parse_items fuel (items ++ [func]) (skip_whitespace pos1)
      else Ok items pos
  end.

Definition parse (fuel : nat) : result Program :=
  let start := 0%nat in
  do items, pos <- parse_items fuel [] (skip_whitespace start) ;
  Ok (MkProgram (make_span start pos) items) pos.

End WithSource.

End Parser.

(** ** Instruction set (include/instruction.h) *)

Inductive Opcode :=
| PUSH_I32 | PUSH_BOOL | PUSH_STR | POP | DUP | SWAP
| LOAD | STORE | LOAD_REF | STORE_REF
| ADD_I32 | SUB_I32 | MUL_I32 | DIV_I32 | NEG_I32
| EQ_I32 | NE_I32 | LT_I32 | GT_I32 | LE_I32 | GE_I32
| AND | OR | NOT
| JMP | JMP_IF | JMP_IF_NOT | CALL | RET | RET_VAL
| BORROW | BORROW_MUT | DEREF | DEREF_MUT.

(** The value of the enumerator ([enum class Opcode : uint8_t]). *)
Definition opcode_value (op : Opcode) : N :=
  match op with
  | PUSH_I32 => 0 | PUSH_BOOL => 1 | PUSH_STR => 2 | POP => 3 | DUP => 4 | SWAP => 5
  | LOAD => 6 | STORE => 7 | LOAD_REF => 8 | STORE_REF => 9
  | ADD_I32 => 10 | SUB_I32 => 11 | MUL_I32 => 12 | DIV_I32 => 13 | NEG_I32 => 14
  | EQ_I32 => 15 | NE_I32 => 16 | LT_I32 => 17 | GT_I32 => 18 | LE_I32 => 19
  | GE_I32 => 20
  | AND => 21 | OR => 22 | NOT => 23
  | JMP => 24 | JMP_IF => 25 | JMP_IF_NOT => 26 | CALL => 27 | RET => 28
  | RET_VAL => 29
  | BORROW => 30 | BORROW_MUT => 31 | DEREF => 32 | DEREF_MUT => 33
  end%N.

Definition opcode_to_string (op : Opcode) : string :=
  match op with
  | PUSH_I32 => "PUSH_I32" | PUSH_BOOL => "PUSH_BOOL" | PUSH_STR => "PUSH_STR"
  | POP => "POP" | DUP => "DUP" | SWAP => "SWAP"
  | LOAD => "LOAD" | STORE => "STORE" | LOAD_REF => "LOAD_REF"
  | STORE_REF => "STORE_REF"
  | ADD_I32 => "ADD_I32" | SUB_I32 => "SUB_I32" | MUL_I32 => "MUL_I32"
  | DIV_I32 => "DIV_I32" | NEG_I32 => "NEG_I32"
  | EQ_I32 => "EQ_I32" | NE_I32 => "NE_I32" | LT_I32 => "LT_I32"
  | GT_I32 => "GT_I32" | LE_I32 => "LE_I32" | GE_I32 => "GE_I32"
  | AND => "AND" | OR => "OR" | NOT => "NOT"
  | JMP => "JMP" | JMP_IF => "JMP_IF" | JMP_IF_NOT => "JMP_IF_NOT"
  | CALL => "CALL" | RET => "RET" | RET_VAL => "RET_VAL"
  | BORROW => "BORROW" | BORROW_MUT => "BORROW_MUT" | DEREF => "DEREF"
  | DEREF_MUT => "DEREF_MUT"
  end.

Record Instruction := MkInstruction { opcode : Opcode; operand : N }.

(** The one-argument constructor: [Instruction(Opcode opcode)] sets the
    operand to 0. *)
Definition Instruction_ (op : Opcode) : Instruction := MkInstruction op 0.

Definition has_operand (instr : Instruction) : bool :=
  match opcode instr with
  | PUSH_I32 | PUSH_BOOL | PUSH_STR | LOAD | STORE | LOAD_REF
  | JMP | JMP_IF | JMP_IF_NOT | CALL => true
  | _ => false
  end.

(** ** Function table (src/function_table.cpp) *)

Module FunctionTable.

Record FunctionInfo := MkFunctionInfo {
  entry_point : nat;
  num_params : nat;
  num_locals : nat;
  return_type : Ty;
  param_types : list Ty;
  name : string
}.

Record t := Mk {
  functions : list FunctionInfo;
  name_to_index : gmap string nat
}.

Definition empty : t := Mk [] ∅.

Definition add_function (func : FunctionDecl) (entry : nat) (table : t) : nat * t :=
  let info :=
    MkFunctionInfo entry (length (fn_params func)) 0
                   (clone (fn_return_type func))
                   (map (fun param => clone (param_type param)) (fn_params func))
                   (fn_name func) in
  let index := length (functions table) in
  (index, Mk (functions table ++ [info])
             (<[fn_name func := index]> (name_to_index table))).

Definition get_function (index : nat) (table : t) : string + FunctionInfo :=
  match functions table !! index with
  | Some info => inr info
  | None => inl "Invalid function index"
  end.

Definition get_function_index (fname : string) (table : t) : string + nat :=
  match name_to_index table !! fname with
  | Some index => inr index
  | None => inl ("Function not found: " +:+ fname)
  end.

Definition size (table : t) : nat := length (functions table).

End FunctionTable.

(** ** Compiler (src/compiler.cpp) *)

Module Compiler.

Record t := Mk {
  instructions : list Instruction;
  string_constants : list string;
  local_vars : gmap string nat;
  next_local_index : nat;
  function_table : FunctionTable.t
}.

Definition init : t := Mk [] [] ∅ 0 FunctionTable.empty.

(** A [std::runtime_error] is the left injection, with its message. *)
Notation "'try' x <- c ; k" :=
  (match c with inl what => inl what | inr x => k end)
  (at level 10, x name, c at level 100, k at level 200, only parsing).

Definition emit (instr : Instruction) (c : t) : t :=
  Mk (instructions c ++ [instr]) (string_constants c) (local_vars c)
     (next_local_index c) (function_table c).

Definition emit_instruction (op : Opcode) (operand : N) (c : t) : nat * t :=
  (length (instructions c), emit (MkInstruction op operand) c).

(** [instructions[index].operand = value] *)
Definition set_operand (index : nat) (value : N) (c : t) : t :=
  Mk (alter (fun instr => MkInstruction (opcode instr) value) index (instructions c))
     (string_constants c) (local_vars c) (next_local_index c) (function_table c).

Definition add_constant (str : string) (c : t) : nat * t :=
  (length (string_constants c),
   Mk (instructions c) (string_constants c ++ [str]) (local_vars c)
      (next_local_index c) (function_table c)).

Definition get_local_index (vname : string) (c : t) : string + nat :=
  match local_vars c !! vname with
  | Some index => inr index
  | None => inl ("Undefined variable: " +:+ vname)
  end.

(** [local_vars[name] = next_local_index++] *)
Definition new_local (vname : string) (c : t) : t :=
  Mk (instructions c) (string_constants c)
     (<[vname := next_local_index c]> (local_vars c))
     (S (next_local_index c)) (function_table c).

Definition binary_opcode (op : BinOp.t) : option Opcode :=
  match op with
  | BinOp.Add => Some ADD_I32 | BinOp.Sub => Some SUB_I32
  | BinOp.Mul => Some MUL_I32 | BinOp.Div => Some DIV_I32
  | BinOp.Eq => Some EQ_I32 | BinOp.Ne => Some NE_I32
  | BinOp.Lt => Some LT_I32 | BinOp.Gt => Some GT_I32
  | BinOp.Le => Some LE_I32 | BinOp.Ge => Some GE_I32
  | BinOp.And => Some AND | BinOp.Or => Some OR
  | BinOp.Assignment => None
  end.

Section WithWordSize.

(** [sizeof(size_t)] of the host. *)
Variable sizeof_size_t : nat.

(** [static_cast<size_t>(value)] for an [int]: the value modulo
    2^(8 * sizeof(size_t)). *)
Definition int_to_size_t (value : Z) : N :=
  Z.to_N (value mod 2 ^ (8 * Z.of_nat sizeof_size_t)).

Fixpoint compile_expression (expr : Expr) (c : t) : string + t :=
  match expr with
  | BinaryExpr _ _ BinOp.Assignment left_ right_ =>
      try c1 <- compile_expression right_ c ;
      match left_ with
      | Identifier _ _ target _ =>
          try index <- get_local_index target c1 ;
          inr (emit (MkInstruction LOAD (N.of_nat index))
                    (emit (MkInstruction STORE (N.of_nat index)) c1))
      | _ => inl "Assignment target must be an identifier"
      end
  | BinaryExpr _ _ op left_ right_ =>
      try c1 <- compile_expression left_ c ;
      try c2 <- compile_expression right_ c1 ;
      match binary_opcode op with
      | Some opc => inr (emit (Instruction_ opc) c2)
      | None => inl "Unknown binary operator"
      end
  | UnaryExpr _ _ op operand =>
      try c1 <- compile_expression operand c ;
      match op with
      | UnOp.Neg => inr (emit (Instruction_ NEG_I32) c1)
      | UnOp.Not => inr (emit (Instruction_ NOT) c1)
      end
  | IntLiteral _ _ value => inr (emit (MkInstruction PUSH_I32 (int_to_size_t value)) c)
  | BoolLiteral _ _ value =>
      inr (emit (MkInstruction PUSH_BOOL (if value then 1 else 0)) c)
  | StringLiteral _ _ value =>
      let index := length (string_constants c) in
      let c1 := Mk (instructions c) (string_constants c ++ [value]) (local_vars c)
                   (next_local_index c) (function_table c) in
      inr (emit (MkInstruction PUSH_STR (N.of_nat index)) c1)
  | Identifier _ _ vname _ =>
      try index <- get_local_index vname c ;
      inr (emit (MkInstruction LOAD (N.of_nat index)) c)
  | CallExpr _ _ callee args =>
      (* the loop from [args.rbegin()] to [args.rend()]: what follows an
         argument is compiled before it *)
      try c1 <- (fix compile_args_reversed (args : list Expr) (c : t) {struct args}
                   : string + t :=
                   match args with
                   | [] => inr c
                   | arg :: following =>
                       try c' <- compile_args_reversed following c ;
                       compile_expression arg c'
                   end) args c ;
      match callee with
      | Identifier _ _ callee_name _ =>
          try func_index <-
            FunctionTable.get_function_index callee_name (function_table c1) ;
          inr (emit (MkInstruction CALL (N.of_nat func_index)) c1)
      | _ => inl "Function callee must be an identifier"
      end
  | BorrowExpr _ _ is_mut operand =>
      try c1 <- compile_expression operand c ;
      if is_mut then inr (emit (Instruction_ BORROW_MUT) c1)
      else inr (emit (Instruction_ BORROW) c1)
  end.

Definition compile_let (vname : string) (init : Expr) (c : t) : string + t :=
  try c1 <- compile_expression init c ;
  let c2 := match local_vars c1 !! vname with
            | None => new_local vname c1
            | Some _ => c1
            end in
  try index <- get_local_index vname c2 ;
  inr (emit (MkInstruction STORE (N.of_nat index)) c2).

Fixpoint compile_statement (stmt : Stmt) (c : t) : string + t :=
  match stmt with
  | LetStmt _ _ vname _ init => compile_let vname init c
  | IfStmt _ condition then_branch else_branch =>
      try c1 <- compile_expression condition c ;
      let (else_jump, c2) := emit_instruction JMP_IF_NOT 0 c1 in
      try c3 <- compile_statement then_branch c2 ;
      match else_branch with
      | Some else_stmt =>
          let (end_jump, c4) := emit_instruction JMP 0 c3 in
          let c5 := set_operand else_jump (N.of_nat (length (instructions c4))) c4 in
          try c6 <- compile_statement else_stmt c5 ;
          inr (set_operand end_jump (N.of_nat (length (instructions c6))) c6)
      | None =>
          inr (set_operand else_jump (N.of_nat (length (instructions c3))) c3)
      end
  | WhileStmt _ condition body =>
      let loop_start := length (instructions c) in
      try c1 <- compile_expression condition c ;
      let (exit_jump, c2) := emit_instruction JMP_IF_NOT 0 c1 in
      try c3 <- compile_statement body c2 ;
      let (_, c4) := emit_instruction JMP (N.of_nat loop_start) c3 in
      inr (set_operand exit_jump (N.of_nat (length (instructions c4))) c4)
  | BlockStmt _ statements =>
      (fix compile_block (stmts : list Stmt) (c : t) {struct stmts} : string + t :=
         match stmts with
         | [] => inr c
         | s :: following =>
             try c1 <- compile_statement s c ;
             compile_block following c1
         end) statements c
  | ExprStmt _ expr =>
      try c1 <- compile_expression expr c ;
      inr (emit (Instruction_ POP) c1)
  end.

(** [function_table.get_function(function_table.get_function_index(name))],
    then an assignment to one field of the entry. *)
Definition update_function (fname : string) (f : FunctionTable.FunctionInfo ->
                                                  FunctionTable.FunctionInfo)
           (c : t) : string + t :=
  try index <- FunctionTable.get_function_index fname (function_table c) ;
  try _info <- FunctionTable.get_function index (function_table c) ;
  inr (Mk (instructions c) (string_constants c) (local_vars c) (next_local_index c)
          (FunctionTable.Mk
             (alter f index (FunctionTable.functions (function_table c)))
             (FunctionTable.name_to_index (function_table c)))).

Definition set_num_locals (n : nat) (info : FunctionTable.FunctionInfo) :=
  FunctionTable.MkFunctionInfo
    (FunctionTable.entry_point info) (FunctionTable.num_params info) n
    (FunctionTable.return_type info) (FunctionTable.param_types info)
    (FunctionTable.name info).

Definition set_entry_point (n : nat) (info : FunctionTable.FunctionInfo) :=
  FunctionTable.MkFunctionInfo
    n (FunctionTable.num_params info) (FunctionTable.num_locals info)
    (FunctionTable.return_type info) (FunctionTable.param_types info)
    (FunctionTable.name info).

Definition last_is_ret_val (c : t) : bool :=
  match last (instructions c) with
  | Some instr => match opcode instr with RET_VAL => true | _ => false end
  | None => false
  end.

Definition compile_function (func : FunctionDecl) (c : t) : string + t :=
  let c0 := Mk (instructions c) (string_constants c) ∅ 0 (function_table c) in
  let c1 := foldl (fun c param => new_local (param_name param) c) c0 (fn_params func) in
  try c2 <- compile_statement (fn_body func) c1 ;
  let c3 := if last_is_ret_val c2 then c2 else emit (Instruction_ RET) c2 in
  update_function (fn_name func) (set_num_locals (next_local_index c3)) c3.

(** The two passes of [compile]. *)
Definition first_pass (funcs : list FunctionDecl) : FunctionTable.t :=
  foldl (fun table func => snd (FunctionTable.add_function func 0 table))
        FunctionTable.empty funcs.

Fixpoint second_pass (funcs : list FunctionDecl) (c : t) : string + t :=
  match funcs with
  | [] => inr c
  | func :: following =>
      let entry := length (instructions c) in
      try c1 <- compile_function func c ;
      try c2 <- update_function (fn_name func) (set_entry_point entry) c1 ;
      second_pass following c2
  end.

(** [compile]; the instruction vector it returns is [instructions] of the
    final state, which also holds the function table and the string pool. *)
Definition compile (program : Program) : string + t :=
  second_pass (items program) (Mk [] [] ∅ 0 (first_pass (items program))).

End WithWordSize.

End Compiler.

(** ** Output writers (src/main.cpp) *)

Module Output.

Definition show_operand (n : N) : string := NilEmpty.string_of_uint (N.to_uint n).

Definition newline : string := String "010" EmptyString.

(** One line of the assembly listing. *)
Definition asm_line (instr : Instruction) : string :=
  opcode_to_string (opcode instr) +:+
  (if has_operand instr then " " +:+ show_operand (operand instr) else "") +:+
  newline.

(** The contents of the .ns file. *)
Definition write_ns (instrs : list Instruction) : string :=
  foldr (fun instr out => asm_line instr +:+ out) "" instrs.

Section WithWordSize.

Variable sizeof_size_t : nat.

(** [(operand >> (i * 8)) & 0xFF] for [i] from 0 to [sizeof(size_t) - 1];
    bytes are given by their values. *)
Definition operand_bytes (operand : N) : list N :=
  map (fun i => N.land (N.shiftr operand (N.of_nat i * 8)) 255) (seq 0 sizeof_size_t).

Definition bytecode (instr : Instruction) : list N :=
  opcode_value (opcode instr) ::
  (if has_operand instr then operand_bytes (operand instr) else []).

(** The contents of the .no file. *)
Definition write_no (instrs : list Instruction) : list N :=
  concat (map bytecode instrs).

End WithWordSize.

End Output.

(** ** Reading a listing back

    The repository has no reader of its own output; the definitions of
    this module follow the specification's description of one. *)

Module Reader.

(** Modelled from the spec: the opcodes of the opcode table, in the order
    of the table. *)
Definition all_opcodes : list Opcode :=
  [PUSH_I32; PUSH_BOOL; PUSH_STR; POP; DUP; SWAP; LOAD; STORE; LOAD_REF; STORE_REF;
   ADD_I32; SUB_I32; MUL_I32; DIV_I32; NEG_I32;
   EQ_I32; NE_I32; LT_I32; GT_I32; LE_I32; GE_I32; AND; OR; NOT;
   JMP; JMP_IF; JMP_IF_NOT; CALL; RET; RET_VAL; BORROW; BORROW_MUT; DEREF; DEREF_MUT].

(** Modelled from the spec: the opcode table, where the opcodes listed with
    an operand are those followed by one. *)
Definition takes_operand (op : Opcode) : bool :=
  match op with
  | PUSH_I32 | PUSH_BOOL | PUSH_STR | LOAD | STORE | LOAD_REF
  | JMP | JMP_IF | JMP_IF_NOT | CALL => true
  | _ => false
  end.

(** Modelled from the spec: the match of a word against the mnemonics of
    the opcode table. *)
Definition opcode_of_string (word : string) : option Opcode :=
  find (fun op => String.eqb (opcode_to_string op) word) all_opcodes.

(** Modelled from the spec: one more character of the word or line being
    read. *)
Definition append_char (s : string) (c : ascii) : string := s +:+ String c EmptyString.

(** Modelled from the spec: the lines of a text, each ended by a line
    feed (line-by-line reading). *)
Fixpoint lines_from (s : string) (current : string) : list string :=
  match s with
  | EmptyString => if String.eqb current "" then [] else [current]
  | String c s' =>
      if (c =? "010")%char then current :: lines_from s' ""
      else lines_from s' (append_char current c)
  end.

(** Modelled from the spec: the words of a line (splitting on
    whitespace). *)
Fixpoint words_from (s : string) (current : string) : list string :=
  match s with
  | EmptyString => if String.eqb current "" then [] else [current]
  | String c s' =>
      if Parser.isspace c then
        if String.eqb current "" then words_from s' ""
        else current :: words_from s' ""
      else words_from s' (append_char current c)
  end.

(** Modelled from the spec: the decimal operand. *)
Definition read_decimal (word : string) : option N :=
  match word with
  | EmptyString => None
  | _ => option_map N.of_uint (NilEmpty.uint_of_string word)
  end.

(** Modelled from the spec: the reader of one line of an assembly listing
    (the repository has no reader).  The line is split on whitespace, the
    first word is matched against the opcode table, and the decimal operand
    is read when the opcode takes one. *)
Definition read_line (line : string) : option Instruction :=
  match words_from line "" with
  | [name] =>
      match opcode_of_string name with
      | Some op => if takes_operand op then None else Some (Instruction_ op)
      | None => None
      end
  | [name; word] =>
      match opcode_of_string name, read_decimal word with
      | Some op, Some value =>
          if takes_operand op then Some (MkInstruction op value) else None
      | _, _ => None
      end
  | _ => None
  end.

(** Modelled from the spec: the reader of an assembly listing (the
    repository has no reader), line by line. *)
Definition read_ns (text : string) : option (list Instruction) :=
  mapM read_line (lines_from text "").

(** Modelled from the spec: the operand of the binary format (the
    repository only has the writer in main), a little-endian unsigned
    integer of [width] bytes; an instruction is one opcode byte, followed by
    its operand exactly for the opcodes that take one. *)
Fixpoint little_endian (width : nat) (value : N) : list N :=
  match width with
  | O => []
  | S width' => (value mod 256)%N :: little_endian width' (value / 256)%N
  end.

(** Modelled from the spec: the re-encoding of an instruction sequence in
    the binary format. *)
Definition encode (width : nat) (instrs : list Instruction) : list N :=
  flat_map (fun instr =>
              opcode_value (opcode instr) ::
              (if takes_operand (opcode instr)
               then little_endian width (operand instr) else []))
           instrs.

End Reader.

(** ** Notions used to state the properties of the compiler *)

Module CompilerSpec.
Import Compiler.

Definition is_jump (op : Opcode) : bool :=
  match op with JMP | JMP_IF | JMP_IF_NOT => true | _ => false end.

(** What every instruction the compiler emits satisfies, once the
    statement it belongs to is complete: it is not [RET_VAL], its operand
    is 0 when its opcode takes none, and a jump does not go past [bound]. *)
Definition emitted_ok (bound : nat) (i : Instruction) : Prop :=
  opcode i <> RET_VAL /\
  (has_operand i = false -> operand i = 0%N) /\
  (is_jump (opcode i) = true -> (operand i <= N.of_nat bound)%N).

(** Instructions of expression code: no jump among them. *)
Definition straight (i : Instruction) : Prop :=
  opcode i <> RET_VAL /\ opcode i <> RET /\ is_jump (opcode i) = false /\
  (has_operand i = false -> operand i = 0%N).

(** One state is another with code appended and the rest as it was. *)
Definition appends (c c' : t) (code : list Instruction) : Prop :=
  instructions c' = instructions c ++ code /\
  local_vars c' = local_vars c /\
  next_local_index c' = next_local_index c /\
  function_table c' = function_table c.

(** Statement code: the instruction vector grows at its end, and the
    function table is left alone. *)
Definition grows (c c' : t) (code : list Instruction) : Prop :=
  instructions c' = instructions c ++ code /\
  function_table c' = function_table c.

(** What holds of a finished instruction vector of length [n]. *)
Definition final_ok (n : nat) (i : Instruction) : Prop :=
  opcode i <> RET_VAL /\
  (has_operand i = false -> operand i = 0%N) /\
  (is_jump (opcode i) = true -> (operand i < N.of_nat n)%N).

Definition vector_ok (l : list Instruction) : Prop := Forall (final_ok (length l)) l.

Definition with_ret (body : list Instruction) : list Instruction :=
  body ++ [Instruction_ RET].

(** The state in which the body of a function is lowered. *)
Definition entry_state (func : FunctionDecl) (c : t) : t :=
  foldl (fun c param => new_local (param_name param) c)
        (Mk (instructions c) (string_constants c) ∅ 0 (function_table c))
        (fn_params func).

Section WithWordSize.

Variable w : nat.

(** The loop of [compile_call] over the arguments, by name. *)
Definition compile_args_reversed : list Expr -> t -> string + t :=
  fix go (args : list Expr) (c : t) {struct args} : string + t :=
    match args with
    | [] => inr c
    | arg :: following =>
        match go following c with
        | inl what => inl what
        | inr c' => compile_expression w arg c'
        end
    end.

(** The loop of [compile_block], by name. *)
Definition compile_block : list Stmt -> t -> string + t :=
  fix go (stmts : list Stmt) (c : t) {struct stmts} : string + t :=
    match stmts with
    | [] => inr c
    | s :: following =>
        match compile_statement w s c with
        | inl what => inl what
        | inr c1 => go following c1
        end
    end.

(** Lowering a list of expressions one after the other. *)
Fixpoint compile_in_order (exprs : list Expr) (c : t) : string + t :=
  match exprs with
  | [] => inr c
  | e :: following =>
      match compile_expression w e c with
      | inl what => inl what
      | inr c1 => compile_in_order following c1
      end
  end.

End WithWordSize.

End CompilerSpec.

(** ** Notions used to state the properties of the checker *)

Module CheckerSpec.
Import TypeChecker.

(** How the error list changes over a call that returns [b]: untouched when
    the call succeeds, longer when it fails. *)
Definition records (tc tc' : t) (b : bool) : Prop :=
  if b then errors_ tc' = errors_ tc
  else exists new, new <> [] /\ errors_ tc' = errors_ tc ++ new.

Global Arguments records : simpl never.

(** The entry a name resolves to: that of the innermost scope holding it,
    as stored (before [lookup_variable] copies it). *)
Fixpoint stored (vname : string) (scopes : list (gmap string VariableInfo))
  : option VariableInfo :=
  match scopes with
  | [] => None
  | scope :: outer =>
      match scope !! vname with
      | Some found => Some found
      | None => stored vname outer
      end
  end.

(** A type with at most one level of reference: it has no base, or its
    base has none. *)
Definition one_level (t : Ty) : bool :=
  match base_type t with
  | None => true
  | Some b => match base_type b with None => true | Some _ => false end
  end.

Section WithProgram.

Variable program_ : Program.

(** The loop of the [CallExpr] case over the arguments, by name. *)
Definition check_args (sp : Span) (callee_name : string) :
  nat -> list Expr -> list Param -> t -> option (bool * list Expr * t) :=
  fix go (i : nat) (args : list Expr) (params : list Param) (tc : t) {struct args} :=
    match args with
    | [] => Some (true, [], tc)
    | arg :: rest =>
        match check_expression program_ arg tc with
        | None => None
        | Some (ok, arg', tc1) =>
            if negb ok then Some (false, arg' :: rest, tc1)
            else
              match expr_type arg' with
              | None =>
                  Some (false, arg' :: rest,
                        error "Invalid argument in function call" sp tc1)
              | Some aty =>
                  match params with
                  | [] => None
                  | param :: params' =>
                      match is_assignable (param_type param) aty with
                      | None => None
                      | Some assignable =>
                          if negb assignable then
                            Some (false, arg' :: rest,
                                  error ("Type mismatch in argument " +:+
                                         show_size_t (i + 1) +:+
                                         " of function " +:+ callee_name)
                                        (expr_span arg') tc1)
                          else
                            match go (S i) rest params' tc1 with
                            | None => None
                            | Some (ok', rest', tc2) => Some (ok', arg' :: rest', tc2)
                            end
                      end
                  end
              end
        end
    end.

(** The loop of the [BlockStmt] case, by name. *)
Definition check_block :
  list Stmt -> t -> option (bool * list Stmt * t) :=
  fix go (stmts : list Stmt) (tc : t) {struct stmts} :=
    match stmts with
    | [] => Some (true, [], tc)
    | s :: rest =>
        match check_statement program_ s tc with
        | None => None
        | Some (ok, s', tc1) =>
            if negb ok then Some (false, s' :: rest, tc1)
            else
              match go rest tc1 with
              | None => None
              | Some (ok', rest', tc2) => Some (ok', s' :: rest', tc2)
              end
        end
    end.

End WithProgram.

End CheckerSpec.

(** ** Notions used to state the properties of the listing *)

Module ListingSpec.
Import Output.

(** No character of the string satisfies [p]. *)
Fixpoint free_of (p : ascii -> bool) (s : string) : bool :=
  match s with
  | EmptyString => true
  | String c s' => negb (p c) && free_of p s'
  end.

Definition is_newline (c : ascii) : bool := (c =? "010")%char.

(** The text of a line, without the newline that ends it. *)
Definition line_text (instr : Instruction) : string :=
  opcode_to_string (opcode instr) +:+
  (if has_operand instr then " " +:+ show_operand (operand instr) else "").

End ListingSpec.

(** ** Induction principles for the nested syntax trees *)

Section ExprInduction.

Variable P : Expr -> Prop.
Hypothesis HInt : forall sp ty v, P (IntLiteral sp ty v).
Hypothesis HBool : forall sp ty v, P (BoolLiteral sp ty v).
Hypothesis HStr : forall sp ty v, P (StringLiteral sp ty v).
Hypothesis HIdent : forall sp ty x m, P (Identifier sp ty x m).
Hypothesis HBinary : forall sp ty op l r, P l -> P r -> P (BinaryExpr sp ty op l r).
Hypothesis HUnary : forall sp ty op e, P e -> P (UnaryExpr sp ty op e).
Hypothesis HBorrow : forall sp ty m e, P e -> P (BorrowExpr sp ty m e).
Hypothesis HCall : forall sp ty callee args,
  P callee -> Forall P args -> P (CallExpr sp ty callee args).

Fixpoint Expr_nested_ind (e : Expr) : P e :=
  match e with
  | IntLiteral sp ty v => HInt sp ty v
  | BoolLiteral sp ty v => HBool sp ty v
  | StringLiteral sp ty v => HStr sp ty v
  | Identifier sp ty x m => HIdent sp ty x m
  | BinaryExpr sp ty op l r =>
      HBinary sp ty op l r (Expr_nested_ind l) (Expr_nested_ind r)
  | UnaryExpr sp ty op e' => HUnary sp ty op e' (Expr_nested_ind e')
  | BorrowExpr sp ty m e' => HBorrow sp ty m e' (Expr_nested_ind e')
  | CallExpr sp ty callee args =>
      HCall sp ty callee args (Expr_nested_ind callee)
        ((fix all (l : list Expr) : Forall P l :=
            match l with
            | [] => @List.Forall_nil _ P
            | x :: l' => @List.Forall_cons _ P x l' (Expr_nested_ind x) (all l')
            end) args)
  end.

End ExprInduction.

Section StmtInduction.

Variable P : Stmt -> Prop.
Hypothesis HLet : forall sp m x ty e, P (LetStmt sp m x ty e).
Hypothesis HExpr : forall sp e, P (ExprStmt sp e).
Hypothesis HIf : forall sp cond th, P th -> P (IfStmt sp cond th None).
Hypothesis HIfElse : forall sp cond th el, P th -> P el -> P (IfStmt sp cond th (Some el)).
Hypothesis HWhile : forall sp cond body, P body -> P (WhileStmt sp cond body).
Hypothesis HBlock : forall sp stmts, Forall P stmts -> P (BlockStmt sp stmts).

Fixpoint Stmt_nested_ind (s : Stmt) : P s :=
  match s with
  | LetStmt sp m x ty e => HLet sp m x ty e
  | ExprStmt sp e => HExpr sp e
  | IfStmt sp cond th None => HIf sp cond th (Stmt_nested_ind th)
  | IfStmt sp cond th (Some el) =>
      HIfElse sp cond th el (Stmt_nested_ind th) (Stmt_nested_ind el)
  | WhileStmt sp cond body => HWhile sp cond body (Stmt_nested_ind body)
  | BlockStmt sp stmts =>
      HBlock sp stmts
        ((fix all (l : list Stmt) : Forall P l :=
            match l with
            | [] => @List.Forall_nil _ P
            | x :: l' => @List.Forall_cons _ P x l' (Stmt_nested_ind x) (all l')
            end) stmts)
  end.

End StmtInduction.

(** ** Notions used to state the properties of the parser *)

Module ParserSpec.
Import Parser.

Section WithSource.

Variable source : string.

(** No binary operator and no call starts at [pos]. *)
Definition no_operator_at (pos : nat) : Prop :=
  Forall (fun op => peek source op pos = false)
         ["("; "*"; "/"; "+"; "-"; "<"; "<="; ">"; ">="; "=="; "!="; "&&"; "||"].

(** No prefix operator starts at [pos]. *)
Definition no_prefix_at (pos : nat) : Prop :=
  Forall (fun op => peek source op pos = false) ["-"; "!"; "&"].

(** One more unit of fuel does not change a result of the expression
    grammar. *)
Definition expr_mono (fuel : nat) : Prop :=
  (forall pos, parse_expr source fuel pos <> OutOfFuel ->
     parse_expr source (S fuel) pos = parse_expr source fuel pos) /\
  (forall pos, parse_assignment source fuel pos <> OutOfFuel ->
     parse_assignment source (S fuel) pos = parse_assignment source fuel pos) /\
  (forall pos, parse_or source fuel pos <> OutOfFuel ->
     parse_or source (S fuel) pos = parse_or source fuel pos) /\
  (forall expr pos, parse_or_loop source fuel expr pos <> OutOfFuel ->
     parse_or_loop source (S fuel) expr pos = parse_or_loop source fuel expr pos) /\
  (forall pos, parse_and source fuel pos <> OutOfFuel ->
     parse_and source (S fuel) pos = parse_and source fuel pos) /\
  (forall expr pos, parse_and_loop source fuel expr pos <> OutOfFuel ->
     parse_and_loop source (S fuel) expr pos = parse_and_loop source fuel expr pos) /\
  (forall pos, parse_equality source fuel pos <> OutOfFuel ->
     parse_equality source (S fuel) pos = parse_equality source fuel pos) /\
  (forall expr pos, parse_equality_loop source fuel expr pos <> OutOfFuel ->
     parse_equality_loop source (S fuel) expr pos = parse_equality_loop source fuel expr pos) /\
  (forall pos, parse_comparison source fuel pos <> OutOfFuel ->
     parse_comparison source (S fuel) pos = parse_comparison source fuel pos) /\
  (forall start expr pos, parse_comparison_loop source fuel start expr pos <> OutOfFuel ->
     parse_comparison_loop source (S fuel) start expr pos = parse_comparison_loop source fuel start expr pos) /\
  (forall pos, parse_term source fuel pos <> OutOfFuel ->
     parse_term source (S fuel) pos = parse_term source fuel pos) /\
  (forall start expr pos, parse_term_loop source fuel start expr pos <> OutOfFuel ->
     parse_term_loop source (S fuel) start expr pos = parse_term_loop source fuel start expr pos) /\
  (forall pos, parse_factor source fuel pos <> OutOfFuel ->
     parse_factor source (S fuel) pos = parse_factor source fuel pos) /\
  (forall start expr pos, parse_factor_loop source fuel start expr pos <> OutOfFuel ->
     parse_factor_loop source (S fuel) start expr pos = parse_factor_loop source fuel start expr pos) /\
  (forall pos, parse_unary source fuel pos <> OutOfFuel ->
     parse_unary source (S fuel) pos = parse_unary source fuel pos) /\
  (forall pos, parse_call source fuel pos <> OutOfFuel ->
     parse_call source (S fuel) pos = parse_call source fuel pos) /\
  (forall start expr pos, parse_call_loop source fuel start expr pos <> OutOfFuel ->
     parse_call_loop source (S fuel) start expr pos = parse_call_loop source fuel start expr pos) /\
  (forall args pos, parse_args_loop source fuel args pos <> OutOfFuel ->
     parse_args_loop source (S fuel) args pos = parse_args_loop source fuel args pos) /\
  (forall pos, parse_primary source fuel pos <> OutOfFuel ->
     parse_primary source (S fuel) pos = parse_primary source fuel pos).

(** The same for the statement grammar. *)
Definition stmt_mono (fuel : nat) : Prop :=
  (forall pos, parse_statement source fuel pos <> OutOfFuel ->
     parse_statement source (S fuel) pos = parse_statement source fuel pos) /\
  (forall pos, parse_if source fuel pos <> OutOfFuel ->
     parse_if source (S fuel) pos = parse_if source fuel pos) /\
  (forall pos, parse_while source fuel pos <> OutOfFuel ->
     parse_while source (S fuel) pos = parse_while source fuel pos) /\
  (forall pos, parse_block source fuel pos <> OutOfFuel ->
     parse_block source (S fuel) pos = parse_block source fuel pos) /\
  (forall statements pos, parse_block_loop source fuel statements pos <> OutOfFuel ->
     parse_block_loop source (S fuel) statements pos = parse_block_loop source fuel statements pos).

End WithSource.

(** The character that follows ends an identifier. *)
Definition ends_word (s : string) : Prop :=
  match s with
  | EmptyString => True
  | String c _ => isalnum c || (c =? "_")%char = false
  end.

(** [n] pairs of parentheses around a string. *)
Fixpoint parenthesised (n : nat) (inner : string) : string :=
  match n with
  | O => inner
  | S n' => "(" +:+ parenthesised n' inner +:+ ")"
  end.

End ParserSpec.

(** ** Literals that every host word size holds *)

Module WidthSpec.

Fixpoint small_literals (e : Expr) : bool :=
  match e with
  | IntLiteral _ _ v => (0 <=? v)%Z && (v <? 256)%Z
  | BoolLiteral _ _ _ | StringLiteral _ _ _ | Identifier _ _ _ _ => true
  | BinaryExpr _ _ _ l r => small_literals l && small_literals r
  | UnaryExpr _ _ _ e' | BorrowExpr _ _ _ e' => small_literals e'
  | CallExpr _ _ callee args =>
      small_literals callee &&
      (fix all (l : list Expr) : bool :=
         match l with
         | [] => true
         | x :: l' => small_literals x && all l'
         end) args
  end.

Fixpoint small_literals_stmt (s : Stmt) : bool :=
  match s with
  | LetStmt _ _ _ _ e | ExprStmt _ e => small_literals e
  | IfStmt _ cond th el =>
      small_literals cond && small_literals_stmt th &&
      match el with Some s' => small_literals_stmt s' | None => true end
  | WhileStmt _ cond body => small_literals cond && small_literals_stmt body
  | BlockStmt _ stmts =>
      (fix all (l : list Stmt) : bool :=
         match l with
         | [] => true
         | x :: l' => small_literals_stmt x && all l'
         end) stmts
  end.

Definition small_literals_program (program : Program) : bool :=
  forallb (fun func => small_literals_stmt (fn_body func)) (items program).

End WidthSpec.

(** ** Example programs *)

Module Examples.
Import TypeChecker Compiler CompilerSpec.

Definition parsed (source : string) : Program :=
  match Parser.parse source 200 with
  | Parser.Ok program _ => program
  | _ => MkProgram (MkSpan 0 0) []
  end.

Definition while_loop_source : string :=
  "fn main(){ let mut x: i32 = 10; while (x>0){ x = x - 1; } }".
Definition while_loop_program : Program := Eval vm_compute in parsed while_loop_source.

Definition call_source : string :=
  "fn add(x:i32,y:i32)->i32{ x+y } fn main(){ let r:i32 = add(1,2); }".
Definition call_program : Program := Eval vm_compute in parsed call_source.

Definition two_failing_source : string :=
  "fn f() { let a: i32 = true; } fn g() { let b: bool = 1; }".
Definition two_failing_program : Program := Eval vm_compute in parsed two_failing_source.

Definition borrow_in_block_source : string :=
  "fn main() { let mut v: i32 = 1; { let r: &mut i32 = &mut v; } v = 2; let w: i32 = 0; }".
Definition borrow_in_block_program : Program :=
  Eval vm_compute in parsed borrow_in_block_source.

Definition nested_reference_source : string :=
  "fn main() { let x: i32 = 1; let y: &&i32 = &&x; y; let z: i32 = 0; }".
Definition nested_reference_program : Program :=
  Eval vm_compute in parsed nested_reference_source.

Definition nested_reference_use_source : string :=
  "fn main() { let x: i32 = 1; let y: &&i32 = &&x; let z: &&i32 = y; }".
Definition nested_reference_use_program : Program :=
  Eval vm_compute in parsed nested_reference_use_source.

(** The tree a run of the checker leaves behind, and its final state. *)
Definition checked_program (program : Program) : Program :=
  match TypeChecker.check_program program TypeChecker.init with
  | Some (_, program', _) => program'
  | None => program
  end.

Definition checker_state (program : Program) : TypeChecker.t :=
  match TypeChecker.check_program program TypeChecker.init with
  | Some (_, _, tc) => tc
  | None => TypeChecker.init
  end.

Definition two_failing_checked : Program :=
  Eval vm_compute in checked_program two_failing_program.

(** The declaration of [add] in [call_program], and the state in which
    the second pass starts. *)
Definition add_function : FunctionDecl :=
  Eval vm_compute in
    match items call_program with
    | func :: _ => func
    | [] => MkFunctionDecl (MkSpan 0 0) "" [] (MkTy I32 None (MkSpan 0 0))
                           (BlockStmt (MkSpan 0 0) [])
    end.

Definition call_start : Compiler.t :=
  Compiler.Mk [] [] ∅ 0 (first_pass (items call_program)).

(** The call [add(1, 2)] of [call_program]. *)
Definition add_call : Expr :=
  CallExpr (MkSpan 55 63) None (Identifier (MkSpan 55 58) None "add" false)
           [IntLiteral (MkSpan 59 60) None 1; IntLiteral (MkSpan 61 62) None 2].

(** The trailing expression [x+y] of [add]. *)
Definition add_result : Expr :=
  BinaryExpr (MkSpan 26 30) None BinOp.Add
             (Identifier (MkSpan 26 27) None "x" false)
             (Identifier (MkSpan 28 29) None "y" false).

(** A checker with one mutable variable [z : i32], declared in a scope
    that encloses the current one. *)
Definition z_declared : TypeChecker.t :=
  TypeChecker.Mk [∅; {["z" := MkVariableInfo (MkTy I32 None (MkSpan 8 11)) true]}] [].

(** The same checker once [z] has been mutably borrowed at 1:2, and
    once the inner scope has been left. *)
Definition z_borrowed : TypeChecker.t :=
  mark_mutably_borrowed "z" (MkSpan 1 2) z_declared.

Definition z_after_block : TypeChecker.t :=
  TypeChecker.Mk (tail (scopes_ z_borrowed)) [].

Definition z_borrowed_info : VariableInfo :=
  MkVariableInfo (MkTy MutRef (Some (MkTy I32 None (MkSpan 8 11))) (MkSpan 1 2)) true.

Definition borrow_z (sp : Span) : Expr :=
  BorrowExpr sp None true (Identifier sp None "z" false).

Definition assign_z (sp : Span) : Expr :=
  BinaryExpr sp None BinOp.Assignment (Identifier sp None "z" false)
             (IntLiteral sp None 20).

(** The type slot of the third statement of the only function. *)
Definition third_statement_type (program : Program) : option Ty :=
  match items program with
  | [func] =>
      match fn_body func with
      | BlockStmt _ (_ :: _ :: ExprStmt _ e :: _) => expr_type e
      | _ => None
      end
  | _ => None
  end.

(** The first two statements of the only function. *)
Definition first_two_statements (program : Program) : list Stmt :=
  match items program with
  | [func] =>
      match fn_body func with
      | BlockStmt _ (s1 :: s2 :: _) => [s1; s2]
      | _ => []
      end
  | _ => []
  end.

End Examples.

(** ** Functions that record more than one error *)

Module WalkExamples.
Import Examples.

(** Both branches of the [if] hold an ill-typed [let]. *)
Definition two_branches_source : string :=
  "fn f() { if true { let a: i32 = true; } else { let b: bool = 1; } }".
Definition two_branches_program : Program := Eval vm_compute in parsed two_branches_source.

(** An ill-typed [let] followed by a trailing expression that names no
    variable. *)
Definition trailing_source : string := "fn f() { let a: i32 = true; x }".
Definition trailing_program : Program := Eval vm_compute in parsed trailing_source.

End WalkExamples.

(** ** Notions used to state what the compiler emits *)

Module RepertoireSpec.
Import Compiler.

(** The opcodes of the instruction set that no lowering rule produces. *)
Definition never_emitted (op : Opcode) : bool :=
  match op with
  | DUP | SWAP | LOAD_REF | STORE_REF | JMP_IF | RET_VAL | DEREF | DEREF_MUT => true
  | _ => false
  end.

(** Every local slot handed out lies below the next free one. *)
Definition locals_bounded (c : t) : Prop :=
  forall x k, local_vars c !! x = Some k -> (k < next_local_index c)%nat.

(** Every index a name resolves to is the position of an entry. *)
Definition table_bounded (table : FunctionTable.t) : Prop :=
  forall f k, FunctionTable.name_to_index table !! f = Some k ->
              (k < FunctionTable.size table)%nat.

(** An instruction of the repertoire, for a host word of [w] bytes and a
    table of [funcs] functions. *)
Definition in_repertoire (w funcs : nat) (i : Instruction) : Prop :=
  never_emitted (opcode i) = false /\
  (opcode i = PUSH_I32 -> (Z.of_N (operand i) < 2 ^ (8 * Z.of_nat w))%Z) /\
  (opcode i = PUSH_BOOL -> (operand i <= 1)%N) /\
  (opcode i = CALL -> (operand i < N.of_nat funcs)%N).

(** An instruction that reads or writes a local slot stays below [slots]. *)
Definition slot_ok (slots : nat) (i : Instruction) : Prop :=
  opcode i = LOAD \/ opcode i = STORE -> (operand i < N.of_nat slots)%N.

Definition lowered (w slots funcs : nat) (i : Instruction) : Prop :=
  in_repertoire w funcs i /\ slot_ok slots i.

Section WithWordSize.
Variable w : nat.

(** What the code of an expression is, when it compiles from a state whose
    slots and table indices are bounded. *)
Definition expr_lowered (e : Expr) : Prop :=
  forall c c' code,
    compile_expression w e c = inr c' ->
    locals_bounded c -> table_bounded (function_table c) ->
    instructions c' = instructions c ++ code ->
    Forall (lowered w (next_local_index c) (FunctionTable.size (function_table c))) code.

(** The same for a statement, which may declare locals. *)
Definition stmt_lowered (s : Stmt) : Prop :=
  forall c c' code,
    compile_statement w s c = inr c' ->
    locals_bounded c -> table_bounded (function_table c) ->
    instructions c' = instructions c ++ code ->
    locals_bounded c' /\ (next_local_index c <= next_local_index c')%nat /\
    local_vars c ⊆ local_vars c' /\
    Forall (lowered w (next_local_index c') (FunctionTable.size (function_table c))) code.

End WithWordSize.

End RepertoireSpec.

(** ** More examples *)

Module MoreExamples.

(** A block with the one statement [1;]. *)
Definition one_statement_block : Stmt :=
  BlockStmt (MkSpan 8 12) [ExprStmt (MkSpan 10 11) (IntLiteral (MkSpan 10 11) None 1)].

(** [if true { 1 }] and [while true { 1 }] as statements. *)
Definition if_statement : Stmt :=
  IfStmt (MkSpan 0 12) (BoolLiteral (MkSpan 3 7) None true) one_statement_block None.

(** [if true { 1 } else { 1 }] *)
Definition if_else_statement : Stmt :=
  IfStmt (MkSpan 0 12) (BoolLiteral (MkSpan 3 7) None true) one_statement_block
         (Some one_statement_block).

Definition while_statement : Stmt :=
  WhileStmt (MkSpan 0 12) (BoolLiteral (MkSpan 3 7) None true) one_statement_block.

End MoreExamples.

(** ** Notions used to state the properties of types and scopes *)

Module TypeSpec.
Import TypeChecker.

(** A type in which every reference has a base, at every depth. *)
Fixpoint complete (t : Ty) : bool :=
  match t with
  | MkTy k b _ =>
      match k with
      | Ref | MutRef =>
          match b with
          | Some b' => complete b'
          | None => false
          end
      | _ => true
      end
  end.

(** The names each frame of the scope stack holds. *)
Definition frame_names (tc : t) : list (gset string) := dom <$> scopes_ tc.

(** The stack of [tc'] is that of [tc] with, at most, more names in its
    innermost frame. *)
Definition grown (tc tc' : t) : Prop :=
  exists s rest s' rest',
    scopes_ tc = s :: rest /\ scopes_ tc' = s' :: rest' /\
    dom s ⊆ dom s' /\ dom <$> rest' = dom <$> rest.

Section WithProgram.
Variable program_ : Program.

(** What checking a statement does to the frames: a [let] may add a name to
    the innermost one, any other statement leaves the names of every frame
    as they were. *)
Definition stmt_frames (s : Stmt) : Prop :=
  forall tc b s' tc',
    check_statement program_ s tc = Some (b, s', tc') ->
    match s with
    | LetStmt _ _ _ _ _ => scopes_ tc <> [] -> grown tc tc'
    | _ => frame_names tc' = frame_names tc
    end.

End WithProgram.

End TypeSpec.

(** ** Examples for the checker *)

Module CheckerExamples.

(** [fn f(a: i32, a: i32) { }], with one parameter name twice. *)
Definition duplicate_parameter : FunctionDecl :=
  MkFunctionDecl (MkSpan 0 24) "f"
    [MkParam false "a" (MkTy I32 None (MkSpan 8 11)) (MkSpan 5 11);
     MkParam false "a" (MkTy I32 None (MkSpan 16 19)) (MkSpan 12 19)]
    (MkTy I32 None (MkSpan 21 21)) (BlockStmt (MkSpan 21 24) []).

(** The only function of [borrow_in_block_program]. *)
Definition borrow_in_block_function : FunctionDecl :=
  Eval vm_compute in
    match items Examples.borrow_in_block_program with
    | func :: _ => func
    | [] => duplicate_parameter
    end.

End CheckerExamples.

(** ** Notions used to state what the checker leaves of a tree *)

Module AnnotationSpec.

(** An expression without what the checker writes into it: the [type]
    slots are empty and the [is_mut_binding] flags are unset, as the parser
    leaves them. *)
Fixpoint erase (e : Expr) : Expr :=
  match e with
  | IntLiteral sp _ v => IntLiteral sp None v
  | BoolLiteral sp _ v => BoolLiteral sp None v
  | StringLiteral sp _ v => StringLiteral sp None v
  | Identifier sp _ x _ => Identifier sp None x false
  | BinaryExpr sp _ op l r => BinaryExpr sp None op (erase l) (erase r)
  | UnaryExpr sp _ op e' => UnaryExpr sp None op (erase e')
  | BorrowExpr sp _ m e' => BorrowExpr sp None m (erase e')
  | CallExpr sp _ callee args => CallExpr sp None (erase callee) (map erase args)
  end.

Fixpoint erase_stmt (s : Stmt) : Stmt :=
  match s with
  | LetStmt sp m x ty e => LetStmt sp m x ty (erase e)
  | ExprStmt sp e => ExprStmt sp (erase e)
  | IfStmt sp cond th el =>
      IfStmt sp (erase cond) (erase_stmt th)
             (match el with Some s' => Some (erase_stmt s') | None => None end)
  | WhileStmt sp cond body => WhileStmt sp (erase cond) (erase_stmt body)
  | BlockStmt sp stmts => BlockStmt sp (map erase_stmt stmts)
  end.

Definition erase_function (func : FunctionDecl) : FunctionDecl :=
  MkFunctionDecl (fn_span func) (fn_name func) (fn_params func) (fn_return_type func)
                 (erase_stmt (fn_body func)).

Definition erase_program (program : Program) : Program :=
  MkProgram (prog_span program) (map erase_function (items program)).

(** The messages of the exceptions the compiler throws. *)
Inductive lowering_error : string -> Prop :=
| undefined_variable x : lowering_error ("Undefined variable: " +:+ x)
| function_not_found f : lowering_error ("Function not found: " +:+ f)
| target_not_identifier : lowering_error "Assignment target must be an identifier"
| callee_not_identifier : lowering_error "Function callee must be an identifier".

End AnnotationSpec.

(** [fn main() { main; let x: i32 = 0; }]: the name of a function used as a
    value. *)
Module ValueExamples.

Definition function_as_value : Program :=
  Eval vm_compute in Examples.parsed "fn main() { main; let x: i32 = 0; }".

End ValueExamples.

(** ** The driver (src/main.cpp)

    [main] from the point where the source file has been read; the two
    output files are taken to open.  What the checker echoes on the
    standard error stream, one line per recorded error, is part of what
    [main] leaves there. *)

Module Driver.

(** [filename.find_last_of('.')]: the position of the last occurrence of
    the character, [None] for [npos]. *)
Fixpoint find_last_of (c : ascii) (s : string) : option nat :=
  match s with
  | EmptyString => None
  | String c' s' =>
      match find_last_of c s' with
      | Some i => Some (S i)
      | None => if (c' =? c)%char then Some O else None
      end
  end.

(** The file name up to its last dot, or all of it when it has none. *)
Definition output_stem (filename : string) : string :=
  match find_last_of "." filename with
  | Some dot_pos => String.substring 0 dot_pos filename
  | None => filename
  end.

(** How a run ends: with status 1 and lines on the standard error stream,
    or with both files written.  [Undefined] is a run in which the checker
    dereferences a null pointer, [NoFuel] the embedding's own outcome. *)
Inductive outcome :=
| Failed (stderr : list string)
| Written (ns_name : string) (ns : string) (no_name : string) (no : list N)
| Undefined
| NoFuel.

Definition run (sizeof_size_t fuel : nat) (filename source : string) : outcome :=
  match Parser.parse source fuel with
  | Parser.OutOfFuel => NoFuel
  | Parser.Throw what => Failed ["Error: " +:+ what]
  | Parser.Ok program _ =>
      match TypeChecker.check_program program TypeChecker.init with
      | None => Undefined
      | Some (false, _, tc) =>
          Failed (map (fun e => "Error: " +:+ e) (TypeChecker.errors_ tc)
                  ++ ["Type checking failed"])
      | Some (true, program', _) =>
          match Compiler.compile sizeof_size_t program' with
          | inl what => Failed ["Error: " +:+ what]
          | inr c =>
              Written (output_stem filename +:+ ".ns")
                      (Output.write_ns (Compiler.instructions c))
                      (output_stem filename +:+ ".no")
                      (Output.write_no sizeof_size_t (Compiler.instructions c))
          end
      end
  end.

End Driver.

(** ** Notions used to state the properties of the lexer *)

Module LexerSpec.
Import Parser.

(** The string holds no dot. *)
Fixpoint dotless (s : string) : bool :=
  match s with
  | EmptyString => true
  | String c s' => negb (c =? ".")%char && dotless s'
  end.

(** The string does not begin with a decimal digit. *)
Definition no_digit_ahead (s : string) : bool :=
  match s with
  | EmptyString => true
  | String c _ => negb (isdigit c)
  end.

End LexerSpec.

Module LexerExamples.

(** A source of white space and one comment. *)
Definition commented_source : string :=
  "  // nothing to compile" +:+ String "010" " ".

End LexerExamples.

(** ** Notions used to state where the parser reads *)

Module PositionSpec.
Import Parser.

(** A result that, when it is a value, leaves [pos] at or after where it
    was and inside the source. *)
Definition stays {A} (source : string) (pos : nat) (r : result A) : Prop :=
  forall a pos',
    r = Ok a pos' ->
    (pos <= String.length source)%nat ->
    (pos <= pos')%nat /\ (pos' <= String.length source)%nat.

Section WithSource.
Variable source : string.

(** The functions of the expression grammar stay inside the source. *)
Definition expr_stays (fuel : nat) : Prop :=
  (forall pos, stays source pos (parse_expr source fuel pos)) /\
  (forall pos, stays source pos (parse_assignment source fuel pos)) /\
  (forall pos, stays source pos (parse_or source fuel pos)) /\
  (forall expr pos, stays source pos (parse_or_loop source fuel expr pos)) /\
  (forall pos, stays source pos (parse_and source fuel pos)) /\
  (forall expr pos, stays source pos (parse_and_loop source fuel expr pos)) /\
  (forall pos, stays source pos (parse_equality source fuel pos)) /\
  (forall expr pos, stays source pos (parse_equality_loop source fuel expr pos)) /\
  (forall pos, stays source pos (parse_comparison source fuel pos)) /\
  (forall start expr pos, stays source pos (parse_comparison_loop source fuel start expr pos)) /\
  (forall pos, stays source pos (parse_term source fuel pos)) /\
  (forall start expr pos, stays source pos (parse_term_loop source fuel start expr pos)) /\
  (forall pos, stays source pos (parse_factor source fuel pos)) /\
  (forall start expr pos, stays source pos (parse_factor_loop source fuel start expr pos)) /\
  (forall pos, stays source pos (parse_unary source fuel pos)) /\
  (forall pos, stays source pos (parse_call source fuel pos)) /\
  (forall start expr pos, stays source pos (parse_call_loop source fuel start expr pos)) /\
  (forall args pos, stays source pos (parse_args_loop source fuel args pos)) /\
  (forall pos, stays source pos (parse_primary source fuel pos)).

(** So do those of the statement grammar. *)
Definition stmt_stays (fuel : nat) : Prop :=
  (forall pos, stays source pos (parse_statement source fuel pos)) /\
  (forall pos, stays source pos (parse_if source fuel pos)) /\
  (forall pos, stays source pos (parse_while source fuel pos)) /\
  (forall pos, stays source pos (parse_block source fuel pos)) /\
  (forall statements pos, stays source pos (parse_block_loop source fuel statements pos)).

End WithSource.
End PositionSpec.

(** ** Notions used to state what the object file holds *)

Module ObjectSpec.

(** An instruction as a host with words of [w] bytes holds it: the operand
    is a [size_t], and an instruction whose opcode takes no operand keeps
    the default operand 0. *)
Definition fits (w : nat) (instr : Instruction) : Prop :=
  if has_operand instr then (operand instr < 2 ^ (8 * N.of_nat w))%N
  else operand instr = 0%N.

(** The number of bytes of an instruction in the object file. *)
Definition encoded_size (w : nat) (instr : Instruction) : nat :=
  if has_operand instr then S w else 1%nat.

End ObjectSpec.

(** * Properties *)

(** ** The compiler *)

Module CompilerFacts.
Import Compiler CompilerSpec.

Lemma straight_emitted_ok bound i : straight i -> emitted_ok bound i.
Proof. intros (? & ? & Hj & ?). repeat split; auto. rewrite Hj. discriminate. Qed.

Lemma emitted_ok_mono b1 b2 i : (b1 <= b2)%nat -> emitted_ok b1 i -> emitted_ok b2 i.
Proof. intros Hle (? & ? & Hj). repeat split; auto. intros Hi. specialize (Hj Hi). lia. Qed.

Lemma appends_refl c : appends c c [].
Proof. unfold appends. rewrite app_nil_r. auto. Qed.

Lemma appends_trans c1 c2 c3 k1 k2 :
  appends c1 c2 k1 -> appends c2 c3 k2 -> appends c1 c3 (k1 ++ k2).
Proof.
  intros (H1 & H2 & H3 & H4) (G1 & G2 & G3 & G4). unfold appends.
  rewrite G1, H1, app_assoc. repeat split; congruence.
Qed.

Lemma appends_emit c i : appends c (emit i c) [i].
Proof. unfold appends, emit. simpl. auto. Qed.

Section WithWordSize.
Variable w : nat.

Lemma compile_expression_call sp ty callee args c :
  compile_expression w (CallExpr sp ty callee args) c =
  match compile_args_reversed w args c with
  | inl what => inl what
  | inr c1 =>
      match callee with
      | Identifier _ _ callee_name _ =>
          match FunctionTable.get_function_index callee_name (function_table c1) with
          | inl what => inl what
          | inr func_index => inr (emit (MkInstruction CALL (N.of_nat func_index)) c1)
          end
      | _ => inl "Function callee must be an identifier"
      end
  end.
Proof. reflexivity. Qed.


Lemma compile_expression_appends e :
  forall c c', compile_expression w e c = inr c' ->
  exists code, appends c c' code /\ Forall straight code.
Proof.
  induction e using Expr_nested_ind; intros c c' Hc.
  - simpl in Hc. inv Hc. eexists. split; [apply appends_emit|].
    repeat constructor; simpl; try discriminate.
  - simpl in Hc. inv Hc. eexists. split; [apply appends_emit|].
    repeat constructor; simpl; try discriminate.
  - simpl in Hc. inv Hc. eexists. split.
    + unfold appends, emit; simpl. eauto.
    + repeat constructor; simpl; try discriminate.
  - simpl in Hc. destruct (get_local_index x c) eqn:E; inv Hc.
    eexists. split; [apply appends_emit|].
    repeat constructor; simpl; try discriminate.
  - destruct op; simpl in Hc;
      try (destruct (compile_expression w e1 c) as [|c1] eqn:E1; [discriminate|];
           destruct (compile_expression w e2 c1) as [|c2] eqn:E2; [discriminate|];
           inv Hc;
           destruct (IHe1 _ _ E1) as (k1 & A1 & F1);
           destruct (IHe2 _ _ E2) as (k2 & A2 & F2);
           eexists; split;
           [eapply appends_trans; [eapply appends_trans; eassumption|apply appends_emit]|];
           rewrite !Forall_app; repeat split; auto;
           repeat constructor; simpl; try discriminate).
    destruct (compile_expression w e2 c) as [|c1] eqn:E2; [discriminate|].
    destruct e1; try discriminate.
    destruct (get_local_index name c1) eqn:E; inv Hc.
    destruct (IHe2 _ _ E2) as (k2 & A2 & F2).
    eexists; split.
    { eapply appends_trans; [eassumption|].
      eapply appends_trans; apply appends_emit. }
    rewrite !Forall_app; repeat split; auto;
      repeat constructor; simpl; try discriminate.
  - simpl in Hc.
    destruct (compile_expression w e c) as [|c1] eqn:E1; [discriminate|].
    destruct (IHe _ _ E1) as (k1 & A1 & F1).
    destruct op; inv Hc; eexists; (split;
      [eapply appends_trans; [eassumption|apply appends_emit]|]);
      rewrite !Forall_app; repeat split; auto;
      repeat constructor; simpl; try discriminate.
  - simpl in Hc.
    destruct (compile_expression w e c) as [|c1] eqn:E1; [discriminate|].
    destruct (IHe _ _ E1) as (k1 & A1 & F1).
    destruct m; inv Hc; eexists; (split;
      [eapply appends_trans; [eassumption|apply appends_emit]|]);
      rewrite !Forall_app; repeat split; auto;
      repeat constructor; simpl; try discriminate.
  - rewrite compile_expression_call in Hc.
    destruct (compile_args_reversed w args c) as [|c1] eqn:E1; [discriminate|].
    assert (Hargs : exists code, appends c c1 code /\ Forall straight code).
    { clear Hc IHe. revert c1 E1.
      induction H as [|arg following Harg _ IH]; intros c1 E1; simpl in E1.
      - inv E1. exists []. split; [apply appends_refl|constructor].
      - destruct (compile_args_reversed w following c) as [|c0] eqn:E0; [discriminate|].
        destruct (IH _ eq_refl) as (k0 & A0 & F0).
        destruct (Harg _ _ E1) as (k1 & A1 & F1).
        exists (k0 ++ k1). split; [eapply appends_trans; eassumption|].
        rewrite Forall_app; auto. }
    destruct Hargs as (k & A & F).
    destruct e; try discriminate.
    destruct (FunctionTable.get_function_index name (function_table c1)) eqn:E; inv Hc.
    eexists; split; [eapply appends_trans; [eassumption|apply appends_emit]|].
    rewrite !Forall_app; repeat split; auto;
      repeat constructor; simpl; try discriminate.
Qed.


Lemma appends_grows c c' code : appends c c' code -> grows c c' code.
Proof. intros (? & _ & _ & ?). split; auto. Qed.

Lemma grows_trans c1 c2 c3 k1 k2 :
  grows c1 c2 k1 -> grows c2 c3 k2 -> grows c1 c3 (k1 ++ k2).
Proof.
  intros (H1 & H2) (G1 & G2). unfold grows.
  rewrite G1, H1, app_assoc. split; congruence.
Qed.

Lemma alter_at {A} (f : A -> A) n l1 x l2 :
  n = length l1 -> alter f n (l1 ++ x :: l2) = l1 ++ f x :: l2.
Proof.
  intros ->. replace (length l1) with (length l1 + 0)%nat by lia.
  rewrite alter_app_r. reflexivity.
Qed.

Lemma compile_statement_block sp stmts c :
  compile_statement w (BlockStmt sp stmts) c = compile_block w stmts c.
Proof. reflexivity. Qed.

Lemma Forall_emitted_ok_mono b1 b2 code :
  (b1 <= b2)%nat -> Forall (emitted_ok b1) code -> Forall (emitted_ok b2) code.
Proof.
  intros Hle HF. eapply Forall_impl; [exact HF|].
  intros i. now apply emitted_ok_mono.
Qed.

Lemma Forall_straight_ok b code : Forall straight code -> Forall (emitted_ok b) code.
Proof.
  intros HF. eapply Forall_impl; [exact HF|].
  intros i. apply straight_emitted_ok.
Qed.

Lemma jump_ok b op (target : nat) :
  op <> RET_VAL -> has_operand (MkInstruction op (N.of_nat target)) = true ->
  (target <= b)%nat -> emitted_ok b (MkInstruction op (N.of_nat target)).
Proof.
  intros Hop Hh Hle. repeat split; simpl; auto.
  - intros Hn. simpl in *. congruence.
  - intros _. lia.
Qed.

Lemma compile_statement_grows s :
  forall c c', compile_statement w s c = inr c' ->
  exists code, grows c c' code /\ Forall (emitted_ok (length (instructions c'))) code.
Proof.
  induction s using Stmt_nested_ind; intros c c' Hc.
  - (* let *)
    simpl in Hc. unfold compile_let in Hc.
    destruct (compile_expression w e c) as [|c1] eqn:E1; [discriminate|].
    destruct (compile_expression_appends _ _ _ E1) as (k1 & A1 & F1).
    apply appends_grows in A1. destruct A1 as (I1 & T1).
    match type of Hc with
    | context [get_local_index _ ?c2] =>
        assert (G2 : instructions c2 = instructions c1 /\
                     function_table c2 = function_table c1)
          by (destruct (local_vars c1 !! x); auto);
        destruct (get_local_index x c2); [discriminate|]; inv Hc
    end.
    destruct G2 as (I2 & T2).
    eexists. split.
    + split; simpl; [rewrite I2, I1, <- app_assoc; reflexivity|congruence].
    + rewrite Forall_app. split; [now apply Forall_straight_ok|].
      repeat constructor; simpl; try discriminate.
  - (* expression statement *)
    simpl in Hc.
    destruct (compile_expression w e c) as [|c1] eqn:E1; [discriminate|]. inv Hc.
    destruct (compile_expression_appends _ _ _ E1) as (k1 & A1 & F1).
    apply appends_grows in A1. destruct A1 as (I1 & T1).
    eexists. split.
    + split; simpl; [rewrite I1, <- app_assoc; reflexivity|congruence].
    + rewrite Forall_app. split; [now apply Forall_straight_ok|].
      repeat constructor; simpl; try discriminate.
  - (* if without else *)
    simpl in Hc.
    destruct (compile_expression w cond c) as [|c1] eqn:E1; [discriminate|].
    destruct (compile_expression_appends _ _ _ E1) as (k1 & A1 & F1).
    apply appends_grows in A1. destruct A1 as (I1 & T1).
    unfold emit_instruction in Hc.
    destruct (compile_statement w s _) as [|c3] eqn:E3; [discriminate|]. inv Hc.
    destruct (IHs _ _ E3) as (k3 & (I3 & T3) & F3). simpl in I3, T3.
    exists (k1 ++ MkInstruction JMP_IF_NOT (N.of_nat (length (instructions c3))) :: k3).
    split.
    + split; simpl; [|congruence].
      remember (length (instructions c3)) as n3 eqn:Hn3.
      rewrite I3, <- app_assoc. simpl.
      rewrite alter_at by reflexivity. simpl.
      rewrite I1, <- app_assoc. reflexivity.
    + simpl. rewrite length_alter.
      rewrite Forall_app. split; [now apply Forall_straight_ok|].
      constructor; [|assumption].
      apply jump_ok; [discriminate|reflexivity|lia].
  - (* if with else *)
    simpl in Hc.
    destruct (compile_expression w cond c) as [|c1] eqn:E1; [discriminate|].
    destruct (compile_expression_appends _ _ _ E1) as (k1 & A1 & F1).
    apply appends_grows in A1. destruct A1 as (I1 & T1).
    unfold emit_instruction in Hc.
    destruct (compile_statement w s1 _) as [|c3] eqn:E3; [discriminate|].
    destruct (IHs1 _ _ E3) as (k3 & (I3 & T3) & F3). simpl in I3, T3.
    destruct (compile_statement w s2 _) as [|c6] eqn:E6; [discriminate|]. inv Hc.
    destruct (IHs2 _ _ E6) as (k6 & (I6 & T6) & F6). simpl in I6, T6.
    assert (I5 : alter (fun instr => MkInstruction (opcode instr)
                          (N.of_nat (length (instructions c3 ++ [MkInstruction JMP 0]))))
                   (length (instructions c1))
                   (instructions c3 ++ [MkInstruction JMP 0]) =
                 instructions c1 ++
                 MkInstruction JMP_IF_NOT (N.of_nat (S (length (instructions c3)))) ::
                 k3 ++ [MkInstruction JMP 0]).
    { rewrite length_app. simpl.
      remember (length (instructions c3)) as n3 eqn:Hn3.
      rewrite I3, <- ?app_assoc. simpl.
      rewrite alter_at by reflexivity. simpl.
      do 3 f_equal. lia. }
    rewrite I5 in I6.
    assert (L3 : length (instructions c3) = (length (instructions c1) + 1 + length k3)%nat).
    { rewrite I3, !length_app. simpl. lia. }
    exists (k1 ++ MkInstruction JMP_IF_NOT (N.of_nat (S (length (instructions c3)))) ::
            k3 ++ MkInstruction JMP (N.of_nat (length (instructions c6))) :: k6).
    split.
    + split; simpl; [|congruence].
      remember (length (instructions c6)) as n6 eqn:Hn6.
      rewrite I6.
      replace ((instructions c1 ++
                MkInstruction JMP_IF_NOT (N.of_nat (S (length (instructions c3)))) ::
                k3 ++ [MkInstruction JMP 0]) ++ k6)
        with ((instructions c1 ++
               MkInstruction JMP_IF_NOT (N.of_nat (S (length (instructions c3)))) :: k3)
              ++ MkInstruction JMP 0 :: k6)
        by (rewrite <- ?app_assoc; simpl; rewrite <- ?app_assoc; reflexivity).
      rewrite alter_at by (rewrite length_app; simpl; lia). simpl.
      rewrite I1, <- ?app_assoc. simpl. rewrite <- ?app_assoc. reflexivity.
    + simpl. rewrite length_alter.
      assert (L6 : (S (length (instructions c3)) <= length (instructions c6))%nat).
      { rewrite I6, !length_app. simpl. rewrite length_app. simpl. lia. }
      rewrite Forall_app. split; [now apply Forall_straight_ok|].
      constructor; [apply jump_ok; [discriminate|reflexivity|lia]|].
      rewrite Forall_app. split.
      { eapply Forall_emitted_ok_mono; [|eassumption]. lia. }
      constructor; [apply jump_ok; [discriminate|reflexivity|lia]|assumption].
  - (* while *)
    simpl in Hc.
    destruct (compile_expression w cond c) as [|c1] eqn:E1; [discriminate|].
    destruct (compile_expression_appends _ _ _ E1) as (k1 & A1 & F1).
    apply appends_grows in A1. destruct A1 as (I1 & T1).
    unfold emit_instruction in Hc.
    destruct (compile_statement w s _) as [|c3] eqn:E3; [discriminate|]. inv Hc.
    destruct (IHs _ _ E3) as (k3 & (I3 & T3) & F3). simpl in I3, T3.
    exists (k1 ++ MkInstruction JMP_IF_NOT (N.of_nat (S (length (instructions c3)))) ::
            k3 ++ [MkInstruction JMP (N.of_nat (length (instructions c)))]).
    split.
    + split; simpl; [|congruence].
      rewrite length_app. simpl.
      remember (length (instructions c3)) as n3 eqn:Hn3.
      remember (length (instructions c)) as n0 eqn:Hn0.
      rewrite I3, <- ?app_assoc. simpl.
      rewrite alter_at by reflexivity. simpl.
      rewrite I1, <- ?app_assoc. simpl.
      do 4 f_equal. lia.
    + simpl. rewrite length_alter, length_app. simpl.
      assert (L3 : (length (instructions c) <= length (instructions c3))%nat).
      { rewrite I3, I1, !length_app. lia. }
      rewrite Forall_app. split; [now apply Forall_straight_ok|].
      constructor; [apply jump_ok; [discriminate|reflexivity|lia]|].
      rewrite Forall_app. split.
      { eapply Forall_emitted_ok_mono; [|eassumption]. lia. }
      constructor; [apply jump_ok; [discriminate|reflexivity|lia]|constructor].
  - (* block *)
    rewrite compile_statement_block in Hc. revert c c' Hc.
    induction H as [|s following Hs _ IH]; intros c c' Hc; simpl in Hc.
    + inv Hc. exists []. split; [split; [now rewrite app_nil_r|reflexivity]|constructor].
    + destruct (compile_statement w s c) as [|c1] eqn:E1; [discriminate|].
      destruct (Hs _ _ E1) as (k1 & G1 & F1).
      destruct (IH _ _ Hc) as (k2 & G2 & F2).
      exists (k1 ++ k2). split; [eapply grows_trans; eassumption|].
      rewrite Forall_app. split; [|assumption].
      eapply Forall_emitted_ok_mono; [|eassumption].
      destruct G2 as (I2 & _). rewrite I2, length_app. lia.
Qed.


Lemma final_ok_mono n1 n2 i : (n1 <= n2)%nat -> final_ok n1 i -> final_ok n2 i.
Proof. intros Hle (? & ? & Hj). repeat split; auto. intros Hi. specialize (Hj Hi). lia. Qed.

Lemma emitted_final_ok b n i : (b < n)%nat -> emitted_ok b i -> final_ok n i.
Proof. intros Hlt (? & ? & Hj). repeat split; auto. intros Hi. specialize (Hj Hi). lia. Qed.

Lemma last_not_ret_val (l : list Instruction) :
  Forall (fun i => opcode i <> RET_VAL) l ->
  match last l with
  | Some instr => match opcode instr with RET_VAL => true | _ => false end
  | None => false
  end = false.
Proof.
  intros HF. destruct (last l) as [i|] eqn:E; [|reflexivity].
  apply last_Some_elem_of in E. rewrite Forall_forall in HF.
  specialize (HF _ E). destruct (opcode i); congruence.
Qed.


Lemma params_keep (ps : list Param) (c0 : t) :
  instructions (foldl (fun c param => new_local (param_name param) c) c0 ps)
  = instructions c0 /\
  function_table (foldl (fun c param => new_local (param_name param) c) c0 ps)
  = function_table c0.
Proof.
  revert c0. induction ps as [|p ps IH]; intros c0; simpl; [auto|].
  destruct (IH (new_local (param_name p) c0)) as (-> & ->). auto.
Qed.

Lemma entry_state_same func c :
  instructions (entry_state func c) = instructions c /\
  function_table (entry_state func c) = function_table c.
Proof.
  unfold entry_state.
  destruct (params_keep (fn_params func)
              (Mk (instructions c) (string_constants c) ∅ 0 (function_table c)))
    as (-> & ->).
  auto.
Qed.

Lemma update_function_same fname f c c' :
  update_function fname f c = inr c' ->
  instructions c' = instructions c /\
  FunctionTable.name_to_index (function_table c') =
  FunctionTable.name_to_index (function_table c).
Proof.
  unfold update_function. intros H.
  destruct (FunctionTable.get_function_index fname (function_table c)); [discriminate|].
  destruct (FunctionTable.get_function n (function_table c)); [discriminate|].
  inv H. auto.
Qed.

Lemma compile_function_unfold func c :
  compile_function w func c =
  match compile_statement w (fn_body func) (entry_state func c) with
  | inl what => inl what
  | inr c2 =>
      update_function (fn_name func)
        (set_num_locals
           (next_local_index (if last_is_ret_val c2 then c2
                              else emit (Instruction_ RET) c2)))
        (if last_is_ret_val c2 then c2 else emit (Instruction_ RET) c2)
  end.
Proof. reflexivity. Qed.

(** A function's code: its body, every jump of which stays within the
    body or lands right behind it, then the [RET] that is appended. *)
Lemma compile_function_region func c c' :
  Forall (fun i => opcode i <> RET_VAL) (instructions c) ->
  compile_function w func c = inr c' ->
  exists body,
    instructions c' = instructions c ++ body ++ [Instruction_ RET] /\
    Forall (emitted_ok (length (instructions c ++ body))) body /\
    FunctionTable.name_to_index (function_table c') =
    FunctionTable.name_to_index (function_table c).
Proof.
  intros Hprev Hc. rewrite compile_function_unfold in Hc.
  destruct (compile_statement w (fn_body func) (entry_state func c)) as [|c2] eqn:E2;
    [discriminate|].
  destruct (compile_statement_grows _ _ _ E2) as (body & (I2 & T2) & F2).
  destruct (entry_state_same func c) as (Ie & Te). rewrite Ie in I2.
  assert (Hlast : last_is_ret_val c2 = false).
  { unfold last_is_ret_val. apply last_not_ret_val. rewrite I2, Forall_app.
    split; [assumption|]. eapply Forall_impl; [exact F2|]. intros i (? & _). assumption. }
  rewrite Hlast in Hc. apply update_function_same in Hc. destruct Hc as (I3 & T3).
  exists body. simpl in I3, T3. rewrite I3, I2, <- app_assoc.
  split; [reflexivity|]. split; [rewrite <- I2; assumption|].
  rewrite T3, T2, Te. reflexivity.
Qed.

Lemma vector_ok_region l body :
  vector_ok l -> Forall (emitted_ok (length (l ++ body))) body ->
  vector_ok (l ++ body ++ [Instruction_ RET]).
Proof.
  intros Hl Hb. unfold vector_ok. rewrite !Forall_app. repeat split.
  - eapply Forall_impl; [exact Hl|]. intros i. apply final_ok_mono.
    rewrite length_app. lia.
  - eapply Forall_impl; [exact Hb|]. intros i. apply emitted_final_ok.
    rewrite !length_app. simpl. lia.
  - repeat constructor; simpl; try discriminate.
Qed.

Lemma vector_ok_no_ret_val l : vector_ok l -> Forall (fun i => opcode i <> RET_VAL) l.
Proof. intros H. eapply Forall_impl; [exact H|]. intros i (? & _). assumption. Qed.

Lemma second_pass_regions funcs :
  forall c c', vector_ok (instructions c) -> second_pass w funcs c = inr c' ->
  exists bodies,
    length bodies = length funcs /\
    instructions c' = instructions c ++ concat (map with_ret bodies) /\
    vector_ok (instructions c') /\
    FunctionTable.name_to_index (function_table c') =
    FunctionTable.name_to_index (function_table c).
Proof.
  induction funcs as [|func funcs IH]; intros c c' Hok Hc; simpl in Hc.
  - inv Hc. exists []. simpl. rewrite app_nil_r. auto.
  - destruct (compile_function w func c) as [|c1] eqn:E1; [discriminate|].
    destruct (update_function (fn_name func) _ c1) as [|c2] eqn:E2; [discriminate|].
    destruct (compile_function_region _ _ _ (vector_ok_no_ret_val _ Hok) E1)
      as (body & I1 & F1 & T1).
    destruct (update_function_same _ _ _ _ E2) as (I2 & T2).
    assert (Hok2 : vector_ok (instructions c2)).
    { rewrite I2, I1. now apply vector_ok_region. }
    destruct (IH _ _ Hok2 Hc) as (bodies & Hlen & I3 & Hok3 & T3).
    exists (body :: bodies). simpl. split; [congruence|].
    split; [|split; [assumption|congruence]].
    rewrite I3, I2, I1. unfold with_ret. rewrite <- !app_assoc. reflexivity.
Qed.

Lemma compile_regions program c :
  compile w program = inr c ->
  exists bodies,
    length bodies = length (items program) /\
    instructions c = concat (map with_ret bodies) /\
    vector_ok (instructions c) /\
    FunctionTable.name_to_index (function_table c) =
    FunctionTable.name_to_index (first_pass (items program)).
Proof.
  unfold compile. intros Hc.
  apply second_pass_regions in Hc; [|constructor].
  destruct Hc as (bodies & ? & ? & ? & ?). exists bodies. auto.
Qed.


(** First pass: the table lists the functions in declaration order, and a
    name is mapped to the position of its last declaration. *)
Lemma first_pass_snoc funcs func :
  first_pass (funcs ++ [func]) =
  snd (FunctionTable.add_function func 0 (first_pass funcs)).
Proof. unfold first_pass. rewrite foldl_snoc. reflexivity. Qed.

Lemma first_pass_functions funcs :
  FunctionTable.name <$> FunctionTable.functions (first_pass funcs) = fn_name <$> funcs.
Proof.
  induction funcs as [|func funcs IH] using rev_ind; [reflexivity|].
  rewrite first_pass_snoc. unfold FunctionTable.add_function.
  cbn [snd FunctionTable.functions]. rewrite !fmap_app, IH. reflexivity.
Qed.

Lemma first_pass_index funcs fname k :
  FunctionTable.name_to_index (first_pass funcs) !! fname = Some k ->
  (fn_name <$> funcs) !! k = Some fname /\
  forall j, (k < j)%nat -> (fn_name <$> funcs) !! j <> Some fname.
Proof.
  revert k. induction funcs as [|func funcs IH] using rev_ind; intros k Hk.
  - discriminate.
  - rewrite first_pass_snoc in Hk. unfold FunctionTable.add_function in Hk.
    cbn [snd FunctionTable.name_to_index] in Hk.
    assert (Hlen : length (FunctionTable.functions (first_pass funcs)) = length funcs).
    { rewrite <- (length_fmap FunctionTable.name), first_pass_functions, length_fmap.
      reflexivity. }
    rewrite Hlen in Hk. rewrite fmap_app. simpl.
    destruct (decide (fn_name func = fname)) as [Heq|Hne]; [subst fname|].
    + rewrite lookup_insert_eq in Hk. inv Hk. split.
      * rewrite lookup_app_r by (rewrite length_fmap; lia).
        rewrite length_fmap, Nat.sub_diag. reflexivity.
      * intros j Hj. rewrite lookup_ge_None_2; [discriminate|].
        rewrite length_app, length_fmap. simpl. lia.
    + rewrite lookup_insert_ne in Hk by assumption.
      destruct (IH _ Hk) as (Hat & Hlast).
      assert (Hlt : (k < length funcs)%nat).
      { apply lookup_lt_Some in Hat. now rewrite length_fmap in Hat. }
      split.
      * rewrite lookup_app_l by (rewrite length_fmap; lia). assumption.
      * intros j Hj. destruct (decide (j < length funcs)%nat) as [Hjl|Hjl].
        -- rewrite lookup_app_l by (rewrite length_fmap; lia). now apply Hlast.
        -- rewrite lookup_app_r by (rewrite length_fmap; lia).
           rewrite length_fmap.
           destruct (j - length funcs)%nat as [|n] eqn:En; simpl; [congruence|].
           rewrite lookup_nil. discriminate.
Qed.


Lemma compile_in_order_snoc exprs e c :
  compile_in_order w (exprs ++ [e]) c =
  match compile_in_order w exprs c with
  | inl what => inl what
  | inr c1 => compile_expression w e c1
  end.
Proof.
  revert c. induction exprs as [|x exprs IH]; intros c; simpl.
  - destruct (compile_expression w e c); reflexivity.
  - destruct (compile_expression w x c); [reflexivity|apply IH].
Qed.

Lemma compile_args_reversed_rev args c :
  compile_args_reversed w args c = compile_in_order w (rev args) c.
Proof.
  induction args as [|arg args IH]; [reflexivity|].
  simpl. rewrite compile_in_order_snoc, IH. reflexivity.
Qed.

Lemma compile_in_order_appends exprs :
  forall c c', compile_in_order w exprs c = inr c' ->
  exists code, appends c c' code /\ Forall straight code.
Proof.
  induction exprs as [|e exprs IH]; intros c c' Hc; simpl in Hc.
  - inv Hc. exists []. split; [apply appends_refl|constructor].
  - destruct (compile_expression w e c) as [|c1] eqn:E1; [discriminate|].
    destruct (compile_expression_appends _ _ _ E1) as (k1 & A1 & F1).
    destruct (IH _ _ Hc) as (k2 & A2 & F2).
    exists (k1 ++ k2). split; [eapply appends_trans; eassumption|].
    rewrite Forall_app. auto.
Qed.

Lemma compile_block_snoc stmts s c :
  compile_block w (stmts ++ [s]) c =
  match compile_block w stmts c with
  | inl what => inl what
  | inr c1 => compile_statement w s c1
  end.
Proof.
  revert c. induction stmts as [|x stmts IH]; intros c; simpl.
  - destruct (compile_statement w s c); reflexivity.
  - destruct (compile_statement w x c); [reflexivity|apply IH].
Qed.

End WithWordSize.

End CompilerFacts.

(** ** The listing and the bytecode image *)

Module ListingFacts.
Import Output Reader ListingSpec.

Lemma append_nil (b : string) : "" +:+ b = b.
Proof. reflexivity. Qed.

Lemma append_cons (ch : ascii) (a b : string) : String ch a +:+ b = String ch (a +:+ b).
Proof. reflexivity. Qed.

Lemma string_app_assoc (a b c : string) : (a +:+ b) +:+ c = a +:+ (b +:+ c).
Proof.
  induction a as [|ch a IH]; [reflexivity|].
  rewrite !append_cons. f_equal. exact IH.
Qed.

Lemma string_app_nil_r (a : string) : a +:+ "" = a.
Proof.
  induction a as [|ch a IH]; [reflexivity|].
  rewrite append_cons. f_equal. exact IH.
Qed.

Lemma string_app_not_empty (a b : string) : a <> "" -> a +:+ b <> "".
Proof. intros Ha. destruct a; [congruence|]. rewrite append_cons. discriminate. Qed.

Lemma lines_from_line (line following current : string) :
  free_of is_newline line = true ->
  lines_from (line +:+ String "010" following) current =
  (current +:+ line) :: lines_from following "".
Proof.
  revert current. induction line as [|ch line IH]; intros current Hfree.
  - rewrite append_nil, string_app_nil_r. reflexivity.
  - rewrite append_cons. simpl. simpl in Hfree. apply andb_prop in Hfree. destruct Hfree as (Hch & Hfree).
    unfold is_newline in Hch. destruct (ch =? "010")%char; [discriminate|].
    rewrite IH by assumption. unfold append_char.
    rewrite string_app_assoc. reflexivity.
Qed.

Lemma words_from_last (word current : string) :
  free_of Parser.isspace word = true -> current +:+ word <> "" ->
  words_from word current = [current +:+ word].
Proof.
  revert current. induction word as [|ch word IH]; intros current Hfree Hne; simpl.
  - rewrite string_app_nil_r in *. apply String.eqb_neq in Hne. now rewrite Hne.
  - simpl in Hfree. apply andb_prop in Hfree. destruct Hfree as (Hch & Hfree).
    destruct (Parser.isspace ch); [discriminate|].
    unfold append_char. rewrite IH; rewrite ?string_app_assoc; auto.
Qed.

Lemma words_from_word (word following current : string) :
  free_of Parser.isspace word = true -> current +:+ word <> "" ->
  words_from (word +:+ String " " following) current =
  (current +:+ word) :: words_from following "".
Proof.
  revert current. induction word as [|ch word IH]; intros current Hfree Hne.
  - rewrite append_nil. simpl.
    rewrite string_app_nil_r in *. apply String.eqb_neq in Hne. now rewrite Hne.
  - rewrite append_cons. simpl.
    simpl in Hfree. apply andb_prop in Hfree. destruct Hfree as (Hch & Hfree).
    destruct (Parser.isspace ch); [discriminate|].
    unfold append_char. rewrite IH; rewrite ?string_app_assoc; auto.
Qed.

(** Decimal numerals *)
Lemma string_of_uint_chars (d : Decimal.uint) :
  free_of Parser.isspace (NilEmpty.string_of_uint d) = true /\
  free_of is_newline (NilEmpty.string_of_uint d) = true.
Proof. induction d; simpl; try tauto; destruct IHd; split; assumption. Qed.

Lemma show_operand_not_empty (n : N) : show_operand n <> "".
Proof.
  unfold show_operand. intros Hempty.
  pose proof (NilEmpty.usu (N.to_uint n)) as Hu. rewrite Hempty in Hu.
  simpl in Hu. inv Hu.
  pose proof (DecimalN.Unsigned.of_to n) as Hn.
  match goal with H : Decimal.Nil = _ |- _ => rewrite <- H in Hn end.
  simpl in Hn. subst n. discriminate.
Qed.

Lemma read_decimal_show (n : N) : read_decimal (show_operand n) = Some n.
Proof.
  unfold read_decimal.
  destruct (show_operand n) eqn:E; [now apply show_operand_not_empty in E|].
  rewrite <- E. unfold show_operand. rewrite NilEmpty.usu. simpl.
  now rewrite DecimalN.Unsigned.of_to.
Qed.

Lemma opcode_of_to_string (op : Opcode) : opcode_of_string (opcode_to_string op) = Some op.
Proof. destruct op; reflexivity. Qed.

Lemma opcode_name_chars (op : Opcode) :
  free_of Parser.isspace (opcode_to_string op) = true /\
  free_of is_newline (opcode_to_string op) = true /\
  opcode_to_string op <> "".
Proof. destruct op; repeat split; (reflexivity || discriminate). Qed.

Lemma takes_operand_has_operand (i : Instruction) : takes_operand (opcode i) = has_operand i.
Proof. unfold has_operand. destruct (opcode i); reflexivity. Qed.

Lemma free_of_app p (a b : string) :
  free_of p a = true -> free_of p b = true -> free_of p (a +:+ b) = true.
Proof.
  intros Ha Hb. induction a as [|ch a IH]; [assumption|].
  rewrite append_cons. simpl in *.
  apply andb_prop in Ha. destruct Ha as (-> & Ha). simpl. auto.
Qed.

Lemma asm_line_text instr following :
  asm_line instr +:+ following = line_text instr +:+ String "010" following.
Proof.
  unfold asm_line, line_text, newline. rewrite !string_app_assoc. reflexivity.
Qed.

Lemma line_text_no_newline instr : free_of is_newline (line_text instr) = true.
Proof.
  unfold line_text. destruct (opcode_name_chars (opcode instr)) as (_ & Hn & _).
  apply free_of_app; [assumption|].
  destruct (has_operand instr); [|reflexivity].
  rewrite append_cons, append_nil. simpl. apply string_of_uint_chars.
Qed.

Lemma read_line_text instr :
  (has_operand instr = false -> operand instr = 0%N) ->
  read_line (line_text instr) = Some instr.
Proof.
  intros Hzero. unfold read_line, line_text.
  destruct (opcode_name_chars (opcode instr)) as (Hs & _ & Hne).
  destruct (has_operand instr) eqn:Hop.
  - change (" " +:+ show_operand (operand instr))
      with (String " " (show_operand (operand instr))).
    rewrite words_from_word by (rewrite ?append_nil; auto).
    rewrite words_from_last;
      [|apply string_of_uint_chars|apply show_operand_not_empty].
    rewrite !append_nil. simpl.
    rewrite opcode_of_to_string, read_decimal_show, takes_operand_has_operand, Hop.
    destruct instr; reflexivity.
  - rewrite string_app_nil_r, words_from_last by (rewrite ?append_nil; auto).
    rewrite !append_nil. simpl.
    rewrite opcode_of_to_string, takes_operand_has_operand, Hop.
    destruct instr as [op v]. simpl in *. rewrite Hzero by reflexivity. reflexivity.
Qed.

Lemma read_write_ns (instrs : list Instruction) :
  Forall (fun i => has_operand i = false -> operand i = 0%N) instrs ->
  read_ns (write_ns instrs) = Some instrs.
Proof.
  unfold read_ns. induction 1 as [|i instrs Hi _ IH]; [reflexivity|].
  cbn [write_ns foldr].
  rewrite asm_line_text, lines_from_line, append_nil by apply line_text_no_newline.
  cbn [mapM]. rewrite read_line_text by assumption.
  fold (write_ns instrs). rewrite IH. reflexivity.
Qed.

(** The writer's shifts and masks are the bytes of the little-endian
    representation. *)
Lemma little_endian_shifts (width : nat) (value : N) :
  little_endian width value =
  map (fun i => N.land (N.shiftr value (N.of_nat i * 8)) 255) (seq 0 width).
Proof.
  revert value. induction width as [|width IH]; intros value; [reflexivity|].
  cbn [little_endian seq map]. f_equal.
  - change 255%N with (N.ones 8). rewrite N.land_ones.
    change (N.of_nat 0 * 8)%N with 0%N. now rewrite N.shiftr_0_r.
  - rewrite IH, <- seq_shift, map_map. apply map_ext. intros i.
    change 256%N with (2 ^ 8)%N.
    rewrite <- (N.shiftr_div_pow2 value 8), N.shiftr_shiftr. do 2 f_equal. lia.
Qed.

Lemma encode_write_no (w : nat) (instrs : list Instruction) :
  encode w instrs = write_no w instrs.
Proof.
  unfold encode, write_no. induction instrs as [|i instrs IH]; [reflexivity|].
  simpl. rewrite IH. unfold bytecode, operand_bytes.
  rewrite takes_operand_has_operand, little_endian_shifts. reflexivity.
Qed.

End ListingFacts.

(** ** The checker *)

Module CheckerFacts.
Import TypeChecker CheckerSpec.

Lemma records_refl tc : records tc tc true.
Proof. reflexivity. Qed.

Lemma records_true_then tc tc1 tc2 b :
  records tc tc1 true -> records tc1 tc2 b -> records tc tc2 b.
Proof.
  unfold records. intros H1 H2. destruct b.
  - congruence.
  - destruct H2 as (new & ? & H2). exists new. rewrite H2, H1. auto.
Qed.

Lemma records_false_more tc tc1 tc2 b :
  records tc tc1 false -> records tc1 tc2 b -> records tc tc2 false.
Proof.
  unfold records. intros (new & Hne & H1) H2. destruct b.
  - exists new. rewrite H2. auto.
  - destruct H2 as (new2 & _ & H2). exists (new ++ new2).
    rewrite H2, H1, app_assoc. split; [|reflexivity].
    destruct new; [congruence|discriminate].
Qed.

Lemma records_same tc tc' tc'' b :
  errors_ tc'' = errors_ tc' -> records tc tc' b -> records tc tc'' b.
Proof.
  unfold records. intros H. destruct b.
  - congruence.
  - intros (new & ? & H1). exists new. rewrite H, H1. auto.
Qed.

Lemma records_from tc0 tc tc' b :
  errors_ tc0 = errors_ tc -> records tc0 tc' b -> records tc tc' b.
Proof.
  unfold records. intros H. destruct b.
  - congruence.
  - intros (new & ? & H1). exists new. rewrite H1, H. auto.
Qed.

Lemma records_error tc tc0 message sp :
  records tc tc0 true -> records tc (error message sp tc0) false.
Proof.
  unfold records. intros H. exists [format_error message sp]. simpl. rewrite H.
  split; [discriminate|reflexivity].
Qed.

Lemma records_marked tc tc0 x sp b :
  records tc tc0 b -> records tc (mark_mutably_borrowed x sp tc0) b.
Proof. apply records_same. reflexivity. Qed.

Lemma exit_scope_errors tc tc' : exit_scope tc = Some tc' -> errors_ tc' = errors_ tc.
Proof. unfold exit_scope. destruct (scopes_ tc); intros H; inv H. reflexivity. Qed.

Lemma declare_variable_errors x ty m tc b tc' :
  declare_variable x ty m tc = (b, tc') -> errors_ tc' = errors_ tc.
Proof.
  unfold declare_variable. intros H.
  destruct (scopes_ tc) as [|s rest].
  - destruct (∅ !! x) eqn:E; inv H; reflexivity.
  - destruct (s !! x); inv H; reflexivity.
Qed.

Section WithProgram.
Variable program_ : Program.

Lemma check_expression_call sp ty callee args tc :
  check_expression program_ (CallExpr sp ty callee args) tc =
  match check_expression program_ callee tc with
  | None => None
  | Some (ok, callee', tc1) =>
      if negb ok then Some (false, CallExpr sp ty callee' args, tc1)
      else
        match callee' with
        | Identifier _ _ callee_name _ =>
            match find_function program_ callee_name with
            | None =>
                Some (false, CallExpr sp ty callee' args,
                      error ("Undefined function: " +:+ callee_name) sp tc1)
            | Some func_decl =>
                if negb (length args =? length (fn_params func_decl))%nat then
                  Some (false, CallExpr sp ty callee' args,
                        error ("Wrong number of arguments for function " +:+ callee_name)
                              sp tc1)
                else
                  match check_args program_ sp callee_name 0 args (fn_params func_decl) tc1 with
                  | None => None
                  | Some (ok_args, args', tc2) =>
                      if negb ok_args then Some (false, CallExpr sp ty callee' args', tc2)
                      else
                        Some (true,
                              CallExpr sp (Some (copy_type (fn_return_type func_decl) sp))
                                       callee' args',
                              tc2)
                  end
            end
        | _ =>
            Some (false, CallExpr sp ty callee' args,
                  error "Function call requires a function name" sp tc1)
        end
  end.
Proof. reflexivity. Qed.

(** Takes the outermost [match], [if] or [let] of [H] apart. *)
Ltac split_head H :=
  match type of H with
  | (if negb ?x then _ else _) = _ => destruct x eqn:?; cbn [negb] in H
  | match ?x with _ => _ end = _ =>
      match type of x with
      | option (_ * _ * _) => destruct x as [[[? ?] ?]|] eqn:?
      | _ => destruct x eqn:?
      end; try discriminate
  | (let (_, _) := ?x in _) = _ => destruct x eqn:?
  end.

Ltac chain :=
  first
    [ eassumption
    | apply records_refl
    | eapply records_true_then; [eassumption|]; chain
    | eapply records_same; [eassumption|]; chain ].

Ltac finish_records :=
  repeat match goal with
         | H : Some _ = Some _ |- _ => inv H
         end;
  first
    [ chain
    | apply records_error; chain
    | apply records_marked; chain ].

Lemma check_expression_records e :
  forall tc b e' tc', check_expression program_ e tc = Some (b, e', tc') -> records tc tc' b.
Proof.
  induction e using Expr_nested_ind; intros tc b e' tc' Hc.
  - simpl in Hc. inv Hc. apply records_refl.
  - simpl in Hc. inv Hc. apply records_refl.
  - simpl in Hc. inv Hc. apply records_refl.
  - simpl in Hc. repeat split_head Hc; finish_records.
  - destruct op; simpl in Hc;
      repeat split_head Hc;
      repeat match goal with
             | H : check_expression _ _ _ = Some _ |- _ =>
                 first [apply IHe1 in H | apply IHe2 in H]
             end;
      finish_records.
  - simpl in Hc. repeat split_head Hc;
      repeat match goal with
             | H : check_expression _ _ _ = Some _ |- _ => apply IHe in H
             end;
      finish_records.
  - simpl in Hc. repeat split_head Hc;
      repeat match goal with
             | H : check_expression _ _ _ = Some _ |- _ => apply IHe in H
             end;
      finish_records.
  - rewrite check_expression_call in Hc.
    assert (Hargs : forall fname i params tc b args' tc',
               check_args program_ sp fname i args params tc = Some (b, args', tc') ->
               records tc tc' b).
    { clear Hc IHe. induction H as [|arg rest Harg _ IH];
        intros fname i params tc0 b0 args' tc0' Hc; simpl in Hc.
      - inv Hc. apply records_refl.
      - repeat split_head Hc;
          repeat match goal with
                 | H : check_expression _ _ _ = Some _ |- _ => apply Harg in H
                 | H : check_args program_ _ _ _ _ _ _ = Some _ |- _ => apply IH in H
                 end;
          finish_records. }
    repeat split_head Hc;
      repeat match goal with
             | H : check_expression _ _ _ = Some _ |- _ => apply IHe in H
             | H : check_args program_ _ _ _ _ _ _ = Some _ |- _ => apply Hargs in H
             end;
      finish_records.
Qed.

Lemma check_statement_block sp statements tc :
  check_statement program_ (BlockStmt sp statements) tc =
  match check_block program_ statements (enter_scope tc) with
  | None => None
  | Some (success, statements', tc1) =>
      match exit_scope tc1 with
      | None => None
      | Some tc2 => Some (success, BlockStmt sp statements', tc2)
      end
  end.
Proof. reflexivity. Qed.

Lemma records_scoped tc tc1 tc2 b :
  records (enter_scope tc) tc1 b -> exit_scope tc1 = Some tc2 -> records tc tc2 b.
Proof.
  intros H1 H2. apply exit_scope_errors in H2.
  eapply records_same; [exact H2|]. eapply records_from; [|exact H1]. reflexivity.
Qed.

Lemma check_statement_records s :
  forall tc b s' tc', check_statement program_ s tc = Some (b, s', tc') -> records tc tc' b.
Proof.
  induction s using Stmt_nested_ind; intros tc b s' tc' Hc.
  - (* let *)
    simpl in Hc. repeat split_head Hc;
      repeat match goal with
             | H : check_expression _ _ _ = Some _ |- _ =>
                 apply check_expression_records in H
             | H : declare_variable _ _ _ _ = _ |- _ =>
                 apply declare_variable_errors in H
             end;
      finish_records.
  - (* expression statement *)
    simpl in Hc. repeat split_head Hc. inv Hc.
    eapply check_expression_records; eassumption.
  - (* if without else *)
    simpl in Hc. repeat split_head Hc;
      repeat match goal with
             | H : check_expression _ _ _ = Some _ |- _ =>
                 apply check_expression_records in H
             | H : check_statement _ _ _ = Some _ |- _ => apply IHs in H
             end;
      repeat match goal with H : Some _ = Some _ |- _ => inv H end;
      try finish_records.
    all: eapply records_true_then; [eassumption|]; eapply records_scoped; eassumption.
  - (* if with else *)
    simpl in Hc. repeat split_head Hc;
      repeat match goal with
             | H : check_expression _ _ _ = Some _ |- _ =>
                 apply check_expression_records in H
             | H : check_statement _ s1 _ = Some _ |- _ => apply IHs1 in H
             | H : check_statement _ s2 _ = Some _ |- _ => apply IHs2 in H
             end;
      repeat match goal with H : Some _ = Some _ |- _ => inv H end;
      try finish_records.
    all: eapply records_true_then; [eassumption|].
    all: match goal with
         | H1 : records (enter_scope ?a) ?b ?x, E1 : exit_scope ?b = Some ?c,
           H2 : records (enter_scope ?c) ?d ?y, E2 : exit_scope ?d = Some ?e
           |- records ?a ?e _ =>
             pose proof (records_scoped _ _ _ _ H1 E1) as R1;
             pose proof (records_scoped _ _ _ _ H2 E2) as R2;
             destruct x; simpl;
               [eapply records_true_then; eassumption
               |eapply records_false_more; eassumption]
         end.
  - (* while *)
    simpl in Hc. repeat split_head Hc;
      repeat match goal with
             | H : check_expression _ _ _ = Some _ |- _ =>
                 apply check_expression_records in H
             | H : check_statement _ _ _ = Some _ |- _ => apply IHs in H
             end;
      repeat match goal with H : Some _ = Some _ |- _ => inv H end;
      try finish_records.
    all: eapply records_true_then; [eassumption|]; eapply records_scoped; eassumption.
  - (* block *)
    rewrite check_statement_block in Hc.
    assert (Hblock : forall tc b stmts' tc',
               check_block program_ stmts tc = Some (b, stmts', tc') -> records tc tc' b).
    { clear Hc. induction H as [|s rest Hs _ IH]; intros tc0 b0 stmts' tc0' Hc; simpl in Hc.
      - inv Hc. apply records_refl.
      - repeat split_head Hc;
          repeat match goal with
                 | H : check_statement _ _ _ = Some _ |- _ => apply Hs in H
                 | H : check_block program_ _ _ = Some _ |- _ => apply IH in H
                 end;
          finish_records. }
    repeat split_head Hc. inv Hc.
    eapply records_scoped; [|eassumption]. eapply Hblock; eassumption.
Qed.

Lemma declare_params_records params :
  forall tc b tc', declare_params params tc = (b, tc') -> records tc tc' b.
Proof.
  induction params as [|param rest IH]; intros tc b tc' Hc; simpl in Hc.
  - inv Hc. apply records_refl.
  - repeat split_head Hc;
      match goal with
      | H : declare_variable _ _ _ _ = _ |- _ => apply declare_variable_errors in H
      end.
    + apply IH in Hc. eapply records_from; [|eassumption]. assumption.
    + inv Hc. apply records_error. chain.
Qed.

Lemma check_return_records return_type body success tc b body' tc' :
  check_return program_ return_type body success tc = Some (b, body', tc') ->
  (records tc tc' true /\ b = success) \/ (records tc tc' false /\ b = false).
Proof.
  unfold check_return. intros Hc.
  repeat split_head Hc;
    repeat match goal with
           | H : check_expression _ _ _ = Some _ |- _ =>
               apply check_expression_records in H
           end;
    repeat match goal with H : Some _ = Some _ |- _ => inv H end;
    first [left; split; [finish_records|reflexivity]
          |right; split; [finish_records|reflexivity]].
Qed.

Lemma check_function_records func tc b func' tc' :
  check_function program_ func tc = Some (b, func', tc') -> records tc tc' b.
Proof.
  unfold check_function. intros Hc.
  repeat split_head Hc;
    repeat match goal with
           | H : declare_params _ _ = _ |- _ => apply declare_params_records in H
           | H : check_statement _ _ _ = Some _ |- _ => apply check_statement_records in H
           | H : check_return _ _ _ _ _ = Some _ |- _ => apply check_return_records in H
           | H : exit_scope _ = Some _ |- _ => apply exit_scope_errors in H
           end;
    repeat match goal with H : Some _ = Some _ |- _ => inv H end.
  - eapply records_same; [eassumption|].
    eapply (records_from (enter_scope tc)); [reflexivity|].
    eapply records_true_then; [eassumption|].
    match goal with H : _ \/ _ |- _ => destruct H as [(R & ->)|(R & ->)] end.
    + destruct b1; [eapply records_true_then|eapply records_false_more]; eassumption.
    + destruct b1; [eapply records_true_then|eapply records_false_more]; eassumption.
  - eapply (records_from (enter_scope tc)); [reflexivity|eassumption].
Qed.

(** An [if] with an [else] whose [then] branch fails: the [else] branch is
    checked all the same, from the state the [then] branch left. *)
Lemma check_if_else_after_failure sp cond th el tc cond' tc1 cty th' tc2 tc3 ok el' tc4 tc5 :
  check_expression program_ cond tc = Some (true, cond', tc1) ->
  expr_type cond' = Some cty -> kind cty = Bool ->
  check_statement program_ th (enter_scope tc1) = Some (false, th', tc2) ->
  exit_scope tc2 = Some tc3 ->
  check_statement program_ el (enter_scope tc3) = Some (ok, el', tc4) ->
  exit_scope tc4 = Some tc5 ->
  check_statement program_ (IfStmt sp cond th (Some el)) tc
  = Some (false, IfStmt sp cond' th' (Some el'), tc5) /\
  (ok = false ->
   exists first second,
     first <> [] /\ second <> [] /\ errors_ tc5 = errors_ tc ++ first ++ second).
Proof.
  intros Hc Ht Hk Hth Hx1 Hel Hx2. split.
  - cbn [check_statement]. rewrite Hc. cbn [negb]. rewrite Ht, Hk. cbn [Kind_eqb negb].
    rewrite Hth, Hx1, Hel, Hx2. reflexivity.
  - intros ->.
    apply check_expression_records in Hc. apply check_statement_records in Hth, Hel.
    pose proof (records_scoped _ _ _ _ Hth Hx1) as R1.
    pose proof (records_scoped _ _ _ _ Hel Hx2) as R2.
    unfold records in Hc, R1, R2.
    destruct R1 as (first & Hf & E1). destruct R2 as (second & Hs & E2).
    exists first, second. split; [exact Hf|]. split; [exact Hs|].
    rewrite E2, E1, Hc, <- app_assoc. reflexivity.
Qed.

(** A function whose body, a block ending in an expression statement,
    fails: the trailing expression is checked again, in the state the body
    left, and an error of this second check is recorded after those of the
    body. *)
Lemma check_function_after_failure func tc tc1 bsp stmts esp e tc2 e' tc3 tc4 :
  declare_params (fn_params func) (enter_scope tc) = (true, tc1) ->
  check_statement program_ (fn_body func) tc1 = Some (false, BlockStmt bsp stmts, tc2) ->
  last stmts = Some (ExprStmt esp e) ->
  check_expression program_ e tc2 = Some (false, e', tc3) ->
  exit_scope tc3 = Some tc4 ->
  check_function program_ func tc
  = Some (false,
          MkFunctionDecl (fn_span func) (fn_name func) (fn_params func) (fn_return_type func)
                         (BlockStmt bsp (removelast stmts ++ [ExprStmt esp e'])),
          tc4) /\
  exists first second,
    first <> [] /\ second <> [] /\ errors_ tc4 = errors_ tc ++ first ++ second.
Proof.
  intros Hd Hb Hl He Hx. split.
  - unfold check_function. rewrite Hd. cbn [negb]. rewrite Hb.
    unfold check_return. rewrite Hl, He. cbn [negb]. rewrite Hx. reflexivity.
  - apply declare_params_records in Hd. apply check_statement_records in Hb.
    apply check_expression_records in He. apply exit_scope_errors in Hx.
    unfold records in Hd, Hb, He. cbn [enter_scope errors_] in Hd.
    destruct Hb as (first & Hf & E1). destruct He as (second & Hs & E2).
    exists first, second. split; [exact Hf|]. split; [exact Hs|].
    rewrite Hx, E2, E1, Hd, <- app_assoc. reflexivity.
Qed.

End WithProgram.
End CheckerFacts.

Module BorrowFacts.
Import TypeChecker CheckerSpec CheckerFacts.

Lemma lookup_scopes_stored vname scopes :
  lookup_scopes vname scopes =
  match stored vname scopes with
  | Some found =>
      Some (MkVariableInfo (copy_type (vi_type found) (ty_span (vi_type found)))
                           (vi_is_mut found))
  | None => None
  end.
Proof.
  induction scopes as [|scope outer IH]; simpl; [reflexivity|].
  destruct (scope !! vname); [reflexivity|exact IH].
Qed.

Lemma stored_marked vname sp (scopes : list (gmap string VariableInfo)) :
  stored vname (map (alter (mark_borrowed sp) vname) scopes) =
  mark_borrowed sp <$> stored vname scopes.
Proof.
  induction scopes as [|scope outer IH]; simpl; [reflexivity|].
  rewrite lookup_alter_eq. destruct (scope !! vname); simpl; [reflexivity|exact IH].
Qed.

Lemma marked_suffix (vname : string) sp (scopes inner outer : list (gmap string VariableInfo)) :
  map (alter (mark_borrowed sp) vname) scopes = inner ++ outer ->
  exists scopes0, outer = map (alter (mark_borrowed sp) vname) scopes0.
Proof.
  revert scopes. induction inner as [|s inner IH]; intros scopes H; simpl in H.
  - exists scopes. auto.
  - destruct scopes as [|s0 scopes]; [discriminate|]. simpl in H. inv H. eauto.
Qed.

Lemma marked_suffix_kind vname sp (scopes inner outer : list (gmap string VariableInfo)) info :
  map (alter (mark_borrowed sp) vname) scopes = inner ++ outer ->
  stored vname outer = Some info ->
  kind (vi_type info) = MutRef.
Proof.
  intros H Hs. destruct (marked_suffix _ _ _ _ _ H) as (scopes0 & ->).
  rewrite stored_marked in Hs. destruct (stored vname scopes0); inv Hs. reflexivity.
Qed.

Lemma copy_type_one_level t : one_level t = true -> copy_type t (ty_span t) = t.
Proof.
  destruct t as [k [[kb [bb|] sb]|] s]; cbn; intros H; first [discriminate H|reflexivity].
Qed.

(** What the marking does to each frame of the stack. *)
Lemma marked_frames vname sp (scopes : list (gmap string VariableInfo)) i frame :
  scopes !! i = Some frame ->
  exists frame',
    map (alter (mark_borrowed sp) vname) scopes !! i = Some frame' /\
    (forall other, other <> vname -> frame' !! other = frame !! other) /\
    match frame !! vname with
    | None => frame' !! vname = None
    | Some info =>
        exists marked,
          frame' !! vname = Some marked /\
          vi_is_mut marked = vi_is_mut info /\
          kind (vi_type marked) = MutRef /\
          (one_level (vi_type info) = true ->
           vi_type marked = MkTy MutRef (Some (vi_type info)) sp)
    end.
Proof.
  intros H. exists (alter (mark_borrowed sp) vname frame).
  split; [change (map ?f ?l) with (f <$> l); rewrite list_lookup_fmap, H; reflexivity|].
  split; [intros other Hne; apply lookup_alter_ne; congruence|].
  rewrite lookup_alter_eq. destruct (frame !! vname) as [info|]; cbn; [|reflexivity].
  exists (mark_borrowed sp info). split; [reflexivity|].
  split; [reflexivity|]. split; [reflexivity|].
  intros Ho. cbn. rewrite (copy_type_one_level _ Ho). reflexivity.
Qed.

Section WithProgram.
Variable program_ : Program.

(** Assignment to a variable whose stored type is a [MutRef]. *)
Lemma assignment_while_borrowed tc vname info sp ty lsp lty lm rhs :
  stored vname (scopes_ tc) = Some info ->
  kind (vi_type info) = MutRef ->
  check_expression program_
    (BinaryExpr sp ty BinOp.Assignment (Identifier lsp lty vname lm) rhs) tc =
  Some (false,
        BinaryExpr sp ty BinOp.Assignment (Identifier lsp lty vname lm) rhs,
        error ("Cannot use variable while mutably borrowed: " +:+ vname) sp tc).
Proof.
  intros Hs Hk. simpl. unfold lookup_variable.
  rewrite lookup_scopes_stored, Hs. simpl. rewrite Hk. reflexivity.
Qed.

(** What a successful [&mut v] on a freshly parsed identifier implies. *)
Lemma borrow_mut_success tc sp ty isp vname e' tc' :
  check_expression program_ (BorrowExpr sp ty true (Identifier isp None vname false)) tc
    = Some (true, e', tc') ->
  is_function_name program_ vname = false /\
  (exists info, stored vname (scopes_ tc) = Some info /\ vi_is_mut info = true /\
                kind (vi_type info) <> MutRef) /\
  tc' = mark_mutably_borrowed vname sp tc.
Proof.
  intros Hc. simpl in Hc. unfold lookup_variable in Hc.
  rewrite lookup_scopes_stored in Hc.
  destruct (is_function_name program_ vname); [discriminate|].
  destruct (stored vname (scopes_ tc)) as [info|] eqn:Hs; [|discriminate].
  simpl in Hc. unfold lookup_variable in Hc. rewrite lookup_scopes_stored, Hs in Hc.
  destruct (vi_is_mut info) eqn:Hm; [|discriminate]. simpl in Hc.
  destruct (Kind_eqb (kind (vi_type info)) MutRef) eqn:Hk; [discriminate|].
  inv Hc. split; [reflexivity|]. split; [|reflexivity].
  exists info. repeat split; auto. intros Heq. rewrite Heq in Hk. discriminate.
Qed.

Lemma borrow_mut_while_borrowed tc vname info sp ty isp ity im :
  is_function_name program_ vname = false ->
  stored vname (scopes_ tc) = Some info ->
  kind (vi_type info) = MutRef ->
  check_expression program_ (BorrowExpr sp ty true (Identifier isp ity vname im)) tc =
  Some (false,
        BorrowExpr sp ty true
          (Identifier isp (Some (copy_type (copy_type (vi_type info) (ty_span (vi_type info))) isp))
                      vname (vi_is_mut info)),
        error (if vi_is_mut info
               then "Variable already mutably borrowed: " +:+ vname
               else "Cannot borrow immutable variable as mutable") sp tc).
Proof.
  intros Hf Hs Hk. simpl. unfold lookup_variable.
  rewrite Hf, lookup_scopes_stored, Hs. simpl.
  destruct (vi_is_mut info); simpl; [|reflexivity].
  unfold lookup_variable. rewrite lookup_scopes_stored, Hs. simpl. rewrite Hk. reflexivity.
Qed.

End WithProgram.
End BorrowFacts.

(** ** The parser *)

Module ParserFacts.
Import Parser ParserSpec ListingFacts.

Lemma string_drop_add (a b : nat) (s : string) :
  string_drop (a + b) s = string_drop b (string_drop a s).
Proof.
  revert s. induction a as [|a IH]; intros s; [reflexivity|].
  destruct s as [|c s]; simpl.
  - destruct b; reflexivity.
  - apply IH.
Qed.

Lemma string_length_app (a b : string) :
  String.length (a +:+ b) = (String.length a + String.length b)%nat.
Proof. induction a as [|c a IH]; [reflexivity|]. simpl. now rewrite <- IH. Qed.

Lemma string_drop_app (a b : string) : string_drop (String.length a) (a +:+ b) = b.
Proof. induction a as [|c a IH]; [reflexivity|exact IH]. Qed.

Lemma substring_drop (p n : nat) (s : string) :
  String.substring p n s = String.substring 0 n (string_drop p s).
Proof.
  revert s. induction p as [|p IH]; intros s; [reflexivity|].
  destruct s as [|c s]; simpl.
  - destruct n; reflexivity.
  - apply IH.
Qed.

(** After skipping, there is nothing left to skip. *)
Lemma skip_whitespace_from_done (s : string) :
  forall in_comment,
    skip_whitespace_from (string_drop (skip_whitespace_from s in_comment) s) false = 0%nat.
Proof.
  induction s as [|c s IH]; intros in_comment; [reflexivity|].
  destruct in_comment.
  - cbn [skip_whitespace_from].
    destruct ((c =? "010")%char || (c =? "013")%char); apply IH.
  - cbn [skip_whitespace_from].
    destruct (isspace c || (c =? "010")%char || (c =? "013")%char) eqn:Hsp; [apply IH|].
    destruct (ascii_dec c "/") as [->|Hc].
    + destruct s as [|c' s'].
      * reflexivity.
      * destruct (ascii_dec c' "/") as [->|Hc'].
        -- specialize (IH true). cbn [skip_whitespace_from] in IH. simpl in IH.
           simpl. exact IH.
        -- replace (match c' with "/"%char => _ | _ => 0%nat end) with 0%nat.
           ++ simpl. replace (match c' with "/"%char => _ | _ => 0%nat end) with 0%nat;
                [reflexivity|].
              destruct c' as [[] [] [] [] [] [] [] []]; try reflexivity. congruence.
           ++ destruct c' as [[] [] [] [] [] [] [] []]; try reflexivity. congruence.
    + replace (match c with "/"%char => _ | _ => 0%nat end) with 0%nat.
      * simpl. rewrite Hsp.
        destruct c as [[] [] [] [] [] [] [] []]; try reflexivity. congruence.
      * destruct c as [[] [] [] [] [] [] [] []]; try reflexivity. congruence.
Qed.

Section WithSource.
Variable source : string.

Lemma rest_add (pos k : nat) : rest source (pos + k) = string_drop k (rest source pos).
Proof. unfold rest. apply string_drop_add. Qed.

Lemma rest_app (pos : nat) (a b : string) :
  rest source pos = a +:+ b -> rest source (pos + String.length a) = b.
Proof. intros H. rewrite rest_add, H. apply string_drop_app. Qed.

Lemma skip_whitespace_idem (pos : nat) :
  skip_whitespace source (skip_whitespace source pos) = skip_whitespace source pos.
Proof.
  unfold skip_whitespace at 1. unfold skip_whitespace at 2.
  rewrite rest_add, skip_whitespace_from_done. lia.
Qed.


(** One step of each function of the expression grammar. *)
Lemma parse_expr_step n pos :
  parse_expr source (S n) pos = parse_assignment source n pos.
Proof. reflexivity. Qed.

Lemma parse_assignment_step n pos :
  parse_assignment source (S n) pos =
  bind (parse_or source n pos) (fun lhs pos1 =>
    let (is_assign, pos2) := match_ source "=" pos1 in
    if is_assign then
      match lhs with
      | Identifier _ _ _ _ =>
          bind (parse_assignment source n (skip_whitespace source pos2))
               (fun rhs pos4 => Ok (binary_from_left BinOp.Assignment lhs rhs pos4) pos4)
      | _ => Throw "Invalid assignment target"
      end
    else Ok lhs pos1).
Proof. reflexivity. Qed.

Lemma parse_or_step n pos :
  parse_or source (S n) pos =
  bind (parse_and source n pos) (fun expr pos1 => parse_or_loop source n expr pos1).
Proof. reflexivity. Qed.

Lemma parse_and_step n pos :
  parse_and source (S n) pos =
  bind (parse_equality source n pos) (fun expr pos1 => parse_and_loop source n expr pos1).
Proof. reflexivity. Qed.

Lemma parse_equality_step n pos :
  parse_equality source (S n) pos =
  bind (parse_comparison source n pos)
       (fun expr pos1 => parse_equality_loop source n expr pos1).
Proof. reflexivity. Qed.

Lemma parse_comparison_step n pos :
  parse_comparison source (S n) pos =
  bind (parse_term source n pos)
       (fun expr pos1 => parse_comparison_loop source n pos expr pos1).
Proof. reflexivity. Qed.

Lemma parse_term_step n pos :
  parse_term source (S n) pos =
  bind (parse_factor source n pos)
       (fun expr pos1 => parse_term_loop source n pos expr pos1).
Proof. reflexivity. Qed.

Lemma parse_factor_step n pos :
  parse_factor source (S n) pos =
  bind (parse_unary source n pos)
       (fun expr pos1 => parse_factor_loop source n pos expr pos1).
Proof. reflexivity. Qed.

Lemma parse_call_step n pos :
  parse_call source (S n) pos =
  bind (parse_primary source n pos)
       (fun expr pos1 => parse_call_loop source n pos expr pos1).
Proof. reflexivity. Qed.

Lemma match_no expected pos :
  peek source expected pos = false -> match_ source expected pos = (false, pos).
Proof. unfold match_. now intros ->. Qed.

Lemma match_yes expected pos :
  peek source expected pos = true ->
  match_ source expected pos = (true, pos + String.length expected).
Proof. unfold match_. now intros ->. Qed.

(** An operand that no operator precedes or follows is what every level of
    the expression grammar up to [parse_or] returns. *)
Lemma operand_alone n pos e pos1 :
  no_prefix_at source (skip_whitespace source pos) ->
  parse_primary source (S n) (skip_whitespace source pos) = Ok e pos1 ->
  no_operator_at source (skip_whitespace source pos1) ->
  parse_or source (S (S (S (S (S (S (S (S (S n))))))))) pos
  = Ok e (skip_whitespace source pos1).
Proof.
  intros Hpre Hprim Hop.
  unfold no_prefix_at in Hpre. unfold no_operator_at in Hop.
  repeat match goal with
         | H : Forall _ (_ :: _) |- _ => apply Forall_cons_1 in H; destruct H as [? H]
         end.
  assert (Hcall : parse_call source (S (S n)) (skip_whitespace source pos)
                  = Ok e (skip_whitespace source pos1)).
  { rewrite parse_call_step, Hprim. cbn [bind parse_call_loop].
    rewrite match_no by assumption. reflexivity. }
  assert (Hunary : parse_unary source (S (S (S n))) pos
                   = Ok e (skip_whitespace source pos1)).
  { cbn [parse_unary]. rewrite !match_no by assumption. exact Hcall. }
  rewrite parse_or_step, parse_and_step, parse_equality_step, parse_comparison_step,
    parse_term_step, parse_factor_step, Hunary.
  cbn [bind parse_factor_loop]. rewrite skip_whitespace_idem.
  rewrite !match_no by assumption.
  cbn [bind parse_term_loop]. rewrite skip_whitespace_idem.
  rewrite !match_no by assumption.
  cbn [bind parse_comparison_loop]. rewrite skip_whitespace_idem.
  rewrite !match_no by assumption.
  cbn [bind parse_equality_loop]. rewrite !match_no by assumption.
  cbn [bind parse_and_loop]. rewrite !match_no by assumption.
  cbn [bind parse_or_loop]. rewrite !match_no by assumption.
  reflexivity.
Qed.


Lemma prefix_empty (s : string) : String.prefix "" s = true.
Proof. destruct s; reflexivity. Qed.

Lemma char_at_rest pos c r : rest source pos = String c r -> char_at source pos = c.
Proof. unfold char_at. now intros ->. Qed.

Lemma peek_rest expected pos s :
  rest source pos = s -> peek source expected pos = String.prefix expected s.
Proof. unfold peek. now intros ->. Qed.

Lemma skip_whitespace_rest pos s :
  rest source pos = s ->
  skip_whitespace source pos = (pos + skip_whitespace_from s false)%nat.
Proof. unfold skip_whitespace. now intros ->. Qed.

Lemma rest_next pos c r : rest source pos = String c r -> rest source (pos + 1) = r.
Proof. intros H. rewrite rest_add, H. reflexivity. Qed.

(** [parse_primary] on a parenthesised expression returns the node of the
    expression inside. *)
Lemma parse_primary_parenthesised n pos r e pos2 r2 :
  rest source pos = String "(" r ->
  parse_expr source n (pos + 1) = Ok e pos2 ->
  rest source pos2 = String ")" r2 ->
  parse_primary source (S n) pos = Ok e (pos2 + 1).
Proof.
  intros Hr He Hr2.
  assert (Hskip : skip_whitespace source pos = pos).
  { rewrite (skip_whitespace_rest _ _ Hr). simpl. lia. }
  cbn [parse_primary]. rewrite Hskip, (char_at_rest _ _ _ Hr).
  unfold match_. rewrite !(peek_rest _ _ _ Hr).
  cbn -[parse_expr isdigit isalpha].
  change (isdigit "(") with false. change (isalpha "(") with false.
  rewrite prefix_empty. cbn -[parse_expr]. rewrite He. cbn [bind].
  unfold expect, match_. rewrite (peek_rest _ _ _ Hr2). cbn.
  rewrite prefix_empty. reflexivity.
Qed.

Lemma parse_primary_x n pos r :
  rest source pos = String "x" r -> ends_word r ->
  parse_primary source (S n) pos =
  Ok (Identifier (MkSpan pos (pos + 1)) None "x" false) (pos + 1).
Proof.
  intros Hr Hend.
  assert (Hskip : skip_whitespace source pos = pos).
  { rewrite (skip_whitespace_rest _ _ Hr). simpl. lia. }
  cbn [parse_primary]. rewrite Hskip, (char_at_rest _ _ _ Hr).
  unfold match_. rewrite !(peek_rest _ _ _ Hr).
  cbn -[isdigit isalpha consume_identifier].
  change (isdigit "x") with false. change (isalpha "x") with true.
  cbn -[consume_identifier].
  unfold consume_identifier. rewrite (char_at_rest _ _ _ Hr), Hr.
  change (isalpha "x") with true. cbn -[String.substring isalnum].
  change (isalnum "x") with true. cbn -[String.substring isalnum].
  assert (Hlen : identifier_length r = 0%nat).
  { destruct r as [|c r']; [reflexivity|]. simpl in *. now rewrite Hend. }
  rewrite Hlen, substring_drop. fold (rest source pos). rewrite Hr.
  cbn. destruct r; reflexivity.
Qed.

Lemma parse_primary_20 n pos :
  rest source pos = "20" ->
  parse_primary source (S n) pos =
  Ok (IntLiteral (MkSpan pos (pos + 2)) None 20) (pos + 2).
Proof.
  intros Hr.
  assert (Hskip : skip_whitespace source pos = pos).
  { rewrite (skip_whitespace_rest _ _ Hr). simpl. lia. }
  cbn [parse_primary]. rewrite Hskip, (char_at_rest _ _ _ Hr).
  change (isdigit "2") with true. cbn [bind].
  unfold consume_integer. rewrite Hr, substring_drop. fold (rest source pos).
  rewrite Hr. reflexivity.
Qed.

End WithSource.

Lemma parenthesised_length n inner :
  String.length (parenthesised n inner) = (2 * n + String.length inner)%nat.
Proof.
  induction n as [|n IH]; [reflexivity|].
  cbn [parenthesised]. rewrite !string_length_app, IH. simpl. lia.
Qed.


Lemma parenthesised_head n tail :
  exists c r, parenthesised n "x" +:+ tail = String c r /\ (c = "x"%char \/ c = "("%char).
Proof.
  destruct n as [|n].
  - exists "x"%char, tail. split; [reflexivity|now left].
  - exists "("%char, ((parenthesised n "x" +:+ ")") +:+ tail). split; [reflexivity|now right].
Qed.

Lemma operand_start source pos c r :
  rest source pos = String c r -> c = "x"%char \/ c = "("%char ->
  skip_whitespace source pos = pos /\ no_prefix_at source pos.
Proof.
  intros Hr Hc. split.
  - rewrite (skip_whitespace_rest _ _ _ Hr). destruct Hc as [-> | ->]; simpl; lia.
  - unfold no_prefix_at. repeat constructor; rewrite (peek_rest _ _ _ _ Hr);
      destruct Hc as [-> | ->]; reflexivity.
Qed.

Lemma closing_parenthesis source pos r :
  rest source pos = String ")" r ->
  skip_whitespace source pos = pos /\ no_operator_at source pos /\
  peek source "=" pos = false.
Proof.
  intros Hr. split; [|split].
  - rewrite (skip_whitespace_rest _ _ _ Hr). simpl. lia.
  - unfold no_operator_at. repeat constructor; rewrite (peek_rest _ _ _ _ Hr); reflexivity.
  - rewrite (peek_rest _ _ _ _ Hr). reflexivity.
Qed.

(** An identifier inside [n] pairs of parentheses: [parse_primary] returns
    the [Identifier] node itself. *)
Lemma parse_primary_nested n :
  forall source pos tail fuel,
    rest source pos = parenthesised n "x" +:+ tail -> ends_word tail ->
    parse_primary source (S (11 * n) + fuel) pos =
    Ok (Identifier (MkSpan (pos + n) (pos + n + 1)) None "x" false) (pos + 2 * n + 1).
Proof.
  induction n as [|n IH]; intros source pos tail fuel Hr Hend.
  - cbn [parenthesised] in Hr. change (S (11 * 0) + fuel)%nat with (S fuel).
    rewrite (parse_primary_x source fuel pos tail Hr Hend).
    rewrite !Nat.add_0_r. reflexivity.
  - cbn [parenthesised] in Hr.
    rewrite !string_app_assoc in Hr.
    change ("(" +:+ parenthesised n "x" +:+ ")" +:+ tail)
      with (String "(" (parenthesised n "x" +:+ String ")" tail)) in Hr.
    pose proof (rest_next _ _ _ _ Hr) as Hr1.
    destruct (parenthesised_head n (String ")" tail)) as (c & r & Hhead & Hc).
    rewrite Hhead in Hr1.
    destruct (operand_start _ _ _ _ Hr1 Hc) as (Hskip1 & Hpre1).
    rewrite <- Hhead in Hr1.
    assert (Hprim : parse_primary source (S (11 * n + fuel)) (pos + 1) =
                    Ok (Identifier (MkSpan (pos + 1 + n) (pos + 1 + n + 1)) None "x" false)
                       (pos + 1 + 2 * n + 1))
      by (apply (IH source (pos + 1)%nat (String ")" tail) fuel Hr1); reflexivity).
    assert (Hr2 : rest source (pos + 1 + 2 * n + 1) = String ")" tail).
    { replace (pos + 1 + 2 * n + 1)%nat
        with (pos + 1 + String.length (parenthesised n "x"))%nat
        by (rewrite parenthesised_length; simpl; lia).
      now apply rest_app. }
    destruct (closing_parenthesis _ _ _ Hr2) as (Hskip2 & Hop2 & Heq2).
    pose proof (operand_alone source (11 * n + fuel) (pos + 1)
                  (Identifier (MkSpan (pos + 1 + n) (pos + 1 + n + 1)) None "x" false)
                  (pos + 1 + 2 * n + 1)) as Hor.
    rewrite Hskip1, Hskip2 in Hor. specialize (Hor Hpre1 Hprim Hop2).
    replace (S (11 * S n) + fuel)%nat
      with (S (S (S (S (S (S (S (S (S (S (S (S (11 * n + fuel))))))))))))) by lia.
    rewrite (parse_primary_parenthesised source _ pos _
               (Identifier (MkSpan (pos + 1 + n) (pos + 1 + n + 1)) None "x" false)
               (pos + 1 + 2 * n + 1) tail Hr).
    + replace (pos + 1 + n)%nat with (pos + S n)%nat by lia.
      replace (pos + 1 + 2 * n + 1 + 1)%nat with (pos + 2 * S n + 1)%nat by lia.
      reflexivity.
    + rewrite parse_expr_step, parse_assignment_step, Hor. cbn [bind].
      rewrite (match_no _ _ _ Heq2). reflexivity.
    + exact Hr2.
Qed.

(** Any number of parentheses around the target of an assignment. *)
Lemma parse_parenthesised_target n fuel :
  parse_expr (parenthesised n "x" +:+ " = 20") (12 + 11 * n + fuel) 0 =
  Ok (BinaryExpr (MkSpan n (2 * n + 6)) None BinOp.Assignment
        (Identifier (MkSpan n (n + 1)) None "x" false)
        (IntLiteral (MkSpan (2 * n + 4) (2 * n + 6)) None 20))
     (2 * n + 6).
Proof.
  set (source := parenthesised n "x" +:+ " = 20").
  assert (Hr0 : rest source 0 = parenthesised n "x" +:+ " = 20") by reflexivity.
  destruct (parenthesised_head n " = 20") as (c & r & Hhead & Hc).
  assert (Hr0' : rest source 0 = String c r) by (rewrite Hr0; exact Hhead).
  destruct (operand_start _ _ _ _ Hr0' Hc) as (Hskip0 & Hpre0).
  pose proof (parse_primary_nested n source 0 " = 20" (S fuel) Hr0 eq_refl) as Hprim.
  replace (S (11 * n) + S fuel)%nat with (S (S (11 * n + fuel))) in Hprim by lia.
  cbn [Nat.add] in Hprim.
  assert (Hr1 : rest source (2 * n + 1) = " = 20").
  { replace (2 * n + 1)%nat with (0 + String.length (parenthesised n "x"))%nat
      by (rewrite parenthesised_length; simpl; lia).
    now apply rest_app. }
  assert (Hr2 : rest source (2 * n + 2) = "= 20").
  { replace (2 * n + 2)%nat with (2 * n + 1 + 1)%nat by lia.
    now apply (rest_next _ _ " "%char). }
  assert (Hr3 : rest source (2 * n + 3) = " 20").
  { replace (2 * n + 3)%nat with (2 * n + 2 + 1)%nat by lia.
    now apply (rest_next _ _ "="%char). }
  assert (Hr4 : rest source (2 * n + 4) = "20").
  { replace (2 * n + 4)%nat with (2 * n + 3 + 1)%nat by lia.
    now apply (rest_next _ _ " "%char). }
  assert (Hr6 : rest source (2 * n + 6) = "").
  { replace (2 * n + 6)%nat with (2 * n + 4 + 2)%nat by lia.
    rewrite rest_add, Hr4. reflexivity. }
  assert (Hskip1 : skip_whitespace source (2 * n + 1) = (2 * n + 2)%nat).
  { rewrite (skip_whitespace_rest _ _ _ Hr1). simpl. lia. }
  assert (Hskip3 : skip_whitespace source (2 * n + 3) = (2 * n + 4)%nat).
  { rewrite (skip_whitespace_rest _ _ _ Hr3). simpl. lia. }
  assert (Hskip4 : skip_whitespace source (2 * n + 4) = (2 * n + 4)%nat).
  { rewrite (skip_whitespace_rest _ _ _ Hr4). simpl. lia. }
  assert (Hskip6 : skip_whitespace source (2 * n + 6) = (2 * n + 6)%nat).
  { rewrite (skip_whitespace_rest _ _ _ Hr6). simpl. lia. }
  assert (Hop2 : no_operator_at source (2 * n + 2)).
  { unfold no_operator_at.
    repeat constructor; rewrite (peek_rest _ _ _ _ Hr2); reflexivity. }
  pose proof (operand_alone source (S (11 * n + fuel)) 0
                (Identifier (MkSpan (0 + n) (0 + n + 1)) None "x" false)
                (0 + 2 * n + 1)) as Hlhs.
  rewrite Hskip0 in Hlhs. cbn [Nat.add] in Hlhs. rewrite Hskip1 in Hlhs.
  specialize (Hlhs Hpre0 Hprim Hop2).
  assert (Hpre4 : no_prefix_at source (2 * n + 4)).
  { unfold no_prefix_at.
    repeat constructor; rewrite (peek_rest _ _ _ _ Hr4); reflexivity. }
  assert (Hop6 : no_operator_at source (2 * n + 6)).
  { unfold no_operator_at.
    repeat constructor; rewrite (peek_rest _ _ _ _ Hr6); reflexivity. }
  pose proof (operand_alone source (11 * n + fuel) (2 * n + 4)
                (IntLiteral (MkSpan (2 * n + 4) (2 * n + 4 + 2)) None 20)
                (2 * n + 4 + 2)) as Hrhs.
  rewrite Hskip4 in Hrhs.
  replace (2 * n + 4 + 2)%nat with (2 * n + 6)%nat in Hrhs by lia.
  rewrite Hskip6 in Hrhs.
  specialize (Hrhs Hpre4).
  assert (Hint : parse_primary source (S (11 * n + fuel)) (2 * n + 4) =
                 Ok (IntLiteral (MkSpan (2 * n + 4) (2 * n + 6)) None 20) (2 * n + 6)).
  { rewrite (parse_primary_20 source _ _ Hr4).
    replace (2 * n + 4 + 2)%nat with (2 * n + 6)%nat by lia. reflexivity. }
  specialize (Hrhs Hint Hop6).
  replace (12 + 11 * n + fuel)%nat
    with (S (S (S (S (S (S (S (S (S (S (S (S (11 * n + fuel))))))))))))) by lia.
  rewrite parse_expr_step, parse_assignment_step, Hlhs. cbn [bind].
  rewrite (match_yes source "=" _) by (rewrite (peek_rest _ _ _ _ Hr2); reflexivity).
  replace (2 * n + 2 + String.length "=")%nat with (2 * n + 3)%nat by (simpl; lia).
  rewrite Hskip3, parse_assignment_step, Hrhs. cbn [bind].
  rewrite (match_no source "=" _) by (rewrite (peek_rest _ _ _ _ Hr6); reflexivity).
  cbn [bind]. unfold binary_from_left, make_span. cbn [expr_span span_start].
  reflexivity.
Qed.

End ParserFacts.

(** ** Fuel *)

Module FuelFacts.
Import Parser ParserSpec.

Section WithSource.
Variable source : string.

Ltac use_ih E :=
  match goal with
  | IH : forall _, _ |- _ => rewrite IH by (rewrite E; discriminate); rewrite E
  end.

Ltac mono H :=
  repeat
    (cbn [bind] in H |- *;
     match type of H with
     | context [match_ source ?s ?p] =>
         destruct (match_ source s p) as [? ?] eqn:?
     | context [if ?b then _ else _] => destruct b eqn:?
     | context [bind ?c _] =>
         lazymatch c with context [bind _ _] => fail | _ => idtac end;
         let E := fresh "E" in
         destruct c eqn:E; [try use_ih E|try use_ih E|cbn [bind] in H; congruence]
     | context [match ?e with Identifier _ _ _ _ => _ | _ => _ end] => destruct e
     end);
  cbn [bind] in H |- *; try reflexivity; try congruence;
  try (match goal with IH : forall _, _ |- _ => apply IH; assumption end).

Lemma parse_type_mono fuel :
  forall pos, parse_type source fuel pos <> OutOfFuel ->
              parse_type source (S fuel) pos = parse_type source fuel pos.
Proof.
  induction fuel as [|n IH]; intros pos H.
  - simpl in H. congruence.
  - cut (forall m, m = S n -> parse_type source (S m) pos = parse_type source (S n) pos);
      [intros C; exact (C _ eq_refl)|].
    intros m Hm. cbn [parse_type] in H |- *. subst m. mono H.
Qed.


Lemma expr_mono_all fuel : expr_mono source fuel.
Proof.
  induction fuel as [|n IH].
  - repeat split; intros; simpl in *; congruence.
  - destruct IH as (IH0 & IH1 & IH2 & IH3 & IH4 & IH5 & IH6 & IH7 & IH8 & IH9 & IH10 & IH11 & IH12 & IH13 & IH14 & IH15 & IH16 & IH17 & IH18).
    repeat split.
    + intros pos H.
      cut (forall m, m = S n -> parse_expr source (S m) pos = parse_expr source (S n) pos);
        [intros C; exact (C _ eq_refl)|].
      intros m Hm. cbn [parse_expr] in H |- *. subst m. mono H.
    + intros pos H.
      cut (forall m, m = S n -> parse_assignment source (S m) pos = parse_assignment source (S n) pos);
        [intros C; exact (C _ eq_refl)|].
      intros m Hm. cbn [parse_assignment] in H |- *. subst m. mono H.
    + intros pos H.
      cut (forall m, m = S n -> parse_or source (S m) pos = parse_or source (S n) pos);
        [intros C; exact (C _ eq_refl)|].
      intros m Hm. cbn [parse_or] in H |- *. subst m. mono H.
    + intros expr pos H.
      cut (forall m, m = S n -> parse_or_loop source (S m) expr pos = parse_or_loop source (S n) expr pos);
        [intros C; exact (C _ eq_refl)|].
      intros m Hm. cbn [parse_or_loop] in H |- *. subst m. mono H.
    + intros pos H.
      cut (forall m, m = S n -> parse_and source (S m) pos = parse_and source (S n) pos);
        [intros C; exact (C _ eq_refl)|].
      intros m Hm. cbn [parse_and] in H |- *. subst m. mono H.
    + intros expr pos H.
      cut (forall m, m = S n -> parse_and_loop source (S m) expr pos = parse_and_loop source (S n) expr pos);
        [intros C; exact (C _ eq_refl)|].
      intros m Hm. cbn [parse_and_loop] in H |- *. subst m. mono H.
    + intros pos H.
      cut (forall m, m = S n -> parse_equality source (S m) pos = parse_equality source (S n) pos);
        [intros C; exact (C _ eq_refl)|].
      intros m Hm. cbn [parse_equality] in H |- *. subst m. mono H.
    + intros expr pos H.
      cut (forall m, m = S n -> parse_equality_loop source (S m) expr pos = parse_equality_loop source (S n) expr pos);
        [intros C; exact (C _ eq_refl)|].
      intros m Hm. cbn [parse_equality_loop] in H |- *. subst m. mono H.
    + intros pos H.
      cut (forall m, m = S n -> parse_comparison source (S m) pos = parse_comparison source (S n) pos);
        [intros C; exact (C _ eq_refl)|].
      intros m Hm. cbn [parse_comparison] in H |- *. subst m. mono H.
    + intros start expr pos H.
      cut (forall m, m = S n -> parse_comparison_loop source (S m) start expr pos = parse_comparison_loop source (S n) start expr pos);
        [intros C; exact (C _ eq_refl)|].
      intros m Hm. cbn [parse_comparison_loop] in H |- *. subst m. mono H.
    + intros pos H.
      cut (forall m, m = S n -> parse_term source (S m) pos = parse_term source (S n) pos);
        [intros C; exact (C _ eq_refl)|].
      intros m Hm. cbn [parse_term] in H |- *. subst m. mono H.
    + intros start expr pos H.
      cut (forall m, m = S n -> parse_term_loop source (S m) start expr pos = parse_term_loop source (S n) start expr pos);
        [intros C; exact (C _ eq_refl)|].
      intros m Hm. cbn [parse_term_loop] in H |- *. subst m. mono H.
    + intros pos H.
      cut (forall m, m = S n -> parse_factor source (S m) pos = parse_factor source (S n) pos);
        [intros C; exact (C _ eq_refl)|].
      intros m Hm. cbn [parse_factor] in H |- *. subst m. mono H.
    + intros start expr pos H.
      cut (forall m, m = S n -> parse_factor_loop source (S m) start expr pos = parse_factor_loop source (S n) start expr pos);
        [intros C; exact (C _ eq_refl)|].
      intros m Hm. cbn [parse_factor_loop] in H |- *. subst m. mono H.
    + intros pos H.
      cut (forall m, m = S n -> parse_unary source (S m) pos = parse_unary source (S n) pos);
        [intros C; exact (C _ eq_refl)|].
      intros m Hm. cbn [parse_unary] in H |- *. subst m. mono H.
    + intros pos H.
      cut (forall m, m = S n -> parse_call source (S m) pos = parse_call source (S n) pos);
        [intros C; exact (C _ eq_refl)|].
      intros m Hm. cbn [parse_call] in H |- *. subst m. mono H.
    + intros start expr pos H.
      cut (forall m, m = S n -> parse_call_loop source (S m) start expr pos = parse_call_loop source (S n) start expr pos);
        [intros C; exact (C _ eq_refl)|].
      intros m Hm. cbn [parse_call_loop] in H |- *. subst m. mono H.
    + intros args pos H.
      cut (forall m, m = S n -> parse_args_loop source (S m) args pos = parse_args_loop source (S n) args pos);
        [intros C; exact (C _ eq_refl)|].
      intros m Hm. cbn [parse_args_loop] in H |- *. subst m. mono H.
    + intros pos H.
      cut (forall m, m = S n -> parse_primary source (S m) pos = parse_primary source (S n) pos);
        [intros C; exact (C _ eq_refl)|].
      intros m Hm. cbn [parse_primary] in H |- *. subst m. mono H.
Qed.


Lemma parse_expr_mono fuel pos :
  parse_expr source fuel pos <> OutOfFuel ->
  parse_expr source (S fuel) pos = parse_expr source fuel pos.
Proof. destruct (expr_mono_all fuel) as (H & _). apply H. Qed.

Lemma parse_let_mono fuel pos :
  parse_let source fuel pos <> OutOfFuel ->
  parse_let source (S fuel) pos = parse_let source fuel pos.
Proof.
  pose proof (parse_expr_mono fuel) as X0. pose proof (parse_type_mono fuel) as X1.
  intros H. unfold parse_let in H |- *. mono H.
Qed.

Lemma stmt_mono_all fuel : stmt_mono source fuel.
Proof.
  induction fuel as [|n IH].
  - repeat split; intros; simpl in *; congruence.
  - destruct IH as (IH0 & IH1 & IH2 & IH3 & IH4).
    destruct (expr_mono_all n) as (X0 & _).
    pose proof (parse_let_mono n) as X1.
    repeat split.
    + intros pos H.
      cut (forall m, m = S n -> parse_statement source (S m) pos = parse_statement source (S n) pos);
        [intros C; exact (C _ eq_refl)|].
      intros m Hm. cbn [parse_statement] in H |- *. subst m. mono H.
    + intros pos H.
      cut (forall m, m = S n -> parse_if source (S m) pos = parse_if source (S n) pos);
        [intros C; exact (C _ eq_refl)|].
      intros m Hm. cbn [parse_if] in H |- *. subst m. mono H.
    + intros pos H.
      cut (forall m, m = S n -> parse_while source (S m) pos = parse_while source (S n) pos);
        [intros C; exact (C _ eq_refl)|].
      intros m Hm. cbn [parse_while] in H |- *. subst m. mono H.
    + intros pos H.
      cut (forall m, m = S n -> parse_block source (S m) pos = parse_block source (S n) pos);
        [intros C; exact (C _ eq_refl)|].
      intros m Hm. cbn [parse_block] in H |- *. subst m. mono H.
    + intros statements pos H.
      cut (forall m, m = S n -> parse_block_loop source (S m) statements pos = parse_block_loop source (S n) statements pos);
        [intros C; exact (C _ eq_refl)|].
      intros m Hm. cbn [parse_block_loop] in H |- *. subst m. mono H.
Qed.

Lemma parse_block_mono fuel pos :
  parse_block source fuel pos <> OutOfFuel ->
  parse_block source (S fuel) pos = parse_block source fuel pos.
Proof. destruct (stmt_mono_all fuel) as (_ & _ & _ & H & _). apply H. Qed.

Lemma parse_params_loop_mono fuel :
  forall params pos,
    parse_params_loop source fuel params pos <> OutOfFuel ->
    parse_params_loop source (S fuel) params pos = parse_params_loop source fuel params pos.
Proof.
  induction fuel as [|n IH]; intros params pos H.
  - simpl in H. congruence.
  - pose proof (parse_type_mono n) as X1.
    cut (forall m, m = S n -> parse_params_loop source (S m) params pos
                             = parse_params_loop source (S n) params pos);
      [intros C; exact (C _ eq_refl)|].
    intros m Hm. cbn [parse_params_loop] in H |- *. subst m. mono H.
Qed.

Lemma parse_function_mono fuel pos :
  parse_function source fuel pos <> OutOfFuel ->
  parse_function source (S fuel) pos = parse_function source fuel pos.
Proof.
  pose proof (parse_block_mono fuel) as X0. pose proof (parse_type_mono fuel) as X1.
  pose proof (parse_params_loop_mono fuel) as X2.
  intros H. unfold parse_function, parse_params in H |- *. mono H.
Qed.

Lemma parse_items_mono fuel :
  forall items pos,
    parse_items source fuel items pos <> OutOfFuel ->
    parse_items source (S fuel) items pos = parse_items source fuel items pos.
Proof.
  induction fuel as [|n IH]; intros items pos H.
  - simpl in H. congruence.
  - pose proof (parse_function_mono n) as X1.
    cut (forall m, m = S n -> parse_items source (S m) items pos
                             = parse_items source (S n) items pos);
      [intros C; exact (C _ eq_refl)|].
    intros m Hm. cbn [parse_items] in H |- *. subst m. mono H.
Qed.

Lemma parse_mono fuel :
  parse source fuel <> OutOfFuel -> parse source (S fuel) = parse source fuel.
Proof.
  pose proof (parse_items_mono fuel) as X0.
  intros H. unfold parse in H |- *. mono H.
Qed.

(** More fuel does not change a result. *)
Lemma parse_enough fuel fuel' :
  (fuel <= fuel')%nat -> parse source fuel <> OutOfFuel ->
  parse source fuel' = parse source fuel.
Proof.
  induction 1 as [|m Hle IH]; intros H; [reflexivity|].
  rewrite parse_mono; rewrite IH; auto.
Qed.

Lemma parse_expr_enough fuel fuel' pos :
  (fuel <= fuel')%nat -> parse_expr source fuel pos <> OutOfFuel ->
  parse_expr source fuel' pos = parse_expr source fuel pos.
Proof.
  induction 1 as [|m Hle IH]; intros H; [reflexivity|].
  rewrite parse_expr_mono; rewrite IH; auto.
Qed.

End WithSource.
End FuelFacts.

(** ** Word sizes *)

(** Literals that fit in one byte are lowered alike on every host. *)
Module WidthFacts.
Import Compiler CompilerSpec CompilerFacts WidthSpec.

Lemma int_to_size_t_small w v :
  (1 <= w)%nat -> (0 <=? v)%Z && (v <? 256)%Z = true -> int_to_size_t w v = Z.to_N v.
Proof.
  intros Hw Hv. apply andb_prop in Hv. destruct Hv as (H0 & H1).
  apply Z.leb_le in H0. apply Z.ltb_lt in H1.
  unfold int_to_size_t. rewrite Z.mod_small; [reflexivity|].
  split; [assumption|]. apply Z.lt_le_trans with (2 ^ 8)%Z; [exact H1|].
  apply Z.pow_le_mono_r; lia.
Qed.

Section TwoWidths.
Variables w w' : nat.
Hypothesis Hw : (1 <= w)%nat.
Hypothesis Hw' : (1 <= w')%nat.

Lemma compile_expression_width e :
  small_literals e = true ->
  forall c, compile_expression w e c = compile_expression w' e c.
Proof.
  induction e using Expr_nested_ind; intros Hs c;
    try reflexivity; cbn [small_literals] in Hs.
  - simpl. now rewrite !int_to_size_t_small.
  - apply andb_prop in Hs. destruct Hs as (H1 & H2).
    destruct op; simpl; rewrite ?IHe1, ?IHe2 by assumption;
      try reflexivity;
      destruct (compile_expression w' e1 c); try reflexivity; now rewrite IHe2.
  - simpl. now rewrite IHe.
  - simpl. now rewrite IHe.
  - apply andb_prop in Hs. destruct Hs as (_ & Hargs).
    rewrite !compile_expression_call.
    assert (Hrev : forall c, compile_args_reversed w args c = compile_args_reversed w' args c).
    { clear IHe. induction H as [|arg following Harg _ IH]; intros c0; [reflexivity|].
      apply andb_prop in Hargs. destruct Hargs as (Ha & Hf).
      simpl. rewrite IH by assumption.
      destruct (compile_args_reversed w' following c0); [reflexivity|now apply Harg]. }
    now rewrite Hrev.
Qed.

Lemma compile_statement_width s :
  small_literals_stmt s = true ->
  forall c, compile_statement w s c = compile_statement w' s c.
Proof.
  induction s using Stmt_nested_ind; intros Hs c; cbn [small_literals_stmt] in Hs.
  - simpl. unfold compile_let. now rewrite compile_expression_width.
  - simpl. now rewrite compile_expression_width.
  - apply andb_prop in Hs. destruct Hs as (Hs & _).
    apply andb_prop in Hs. destruct Hs as (H1 & H2).
    simpl. rewrite compile_expression_width by assumption.
    destruct (compile_expression w' cond c); [reflexivity|].
    unfold emit_instruction. now rewrite IHs.
  - apply andb_prop in Hs. destruct Hs as (Hs & H3).
    apply andb_prop in Hs. destruct Hs as (H1 & H2).
    simpl. rewrite compile_expression_width by assumption.
    destruct (compile_expression w' cond c); [reflexivity|].
    unfold emit_instruction. rewrite IHs1 by assumption.
    destruct (compile_statement w' s1 _); [reflexivity|]. now rewrite IHs2.
  - apply andb_prop in Hs. destruct Hs as (H1 & H2).
    simpl. rewrite compile_expression_width by assumption.
    destruct (compile_expression w' cond c); [reflexivity|].
    unfold emit_instruction. now rewrite IHs.
  - rewrite !compile_statement_block. revert c.
    induction H as [|s following Hsx _ IH]; intros c; [reflexivity|].
    apply andb_prop in Hs. destruct Hs as (Ha & Hf).
    simpl. rewrite Hsx by assumption.
    destruct (compile_statement w' s c); [reflexivity|now apply IH].
Qed.

Lemma compile_width program :
  small_literals_program program = true -> compile w program = compile w' program.
Proof.
  unfold compile, small_literals_program.
  generalize (Compiler.Mk [] [] ∅ 0 (first_pass (items program))).
  induction (items program) as [|func funcs IH]; intros c Hs; [reflexivity|].
  simpl in Hs. apply andb_prop in Hs. destruct Hs as (Hf & Hfs).
  simpl. rewrite !compile_function_unfold, compile_statement_width by assumption.
  destruct (compile_statement w' (fn_body func) (entry_state func c)); [reflexivity|].
  destruct (update_function _ _ _); [reflexivity|].
  destruct (update_function _ _ _); [reflexivity|]. now apply IH.
Qed.

End TwoWidths.
End WidthFacts.

(** ** The driver of the checker *)

Module FailFastFacts.
Import TypeChecker CheckerSpec CheckerFacts.

Lemma check_functions_fail_fast program_ funcs :
  forall tc b funcs' tc',
    check_functions program_ funcs tc = Some (b, funcs', tc') ->
    (b = false <-> errors_ tc' <> []) /\
    (errors_ tc = [] -> b = false ->
     exists passed func rest passed' func' tc0,
       funcs = passed ++ func :: rest /\
       funcs' = passed' ++ func' :: rest /\
       length passed' = length passed /\
       errors_ tc0 = [] /\
       check_function program_ func tc0 = Some (false, func', tc')).
Proof.
  induction funcs as [|func rest IH]; intros tc b funcs' tc' Hc; simpl in Hc.
  - inv Hc. unfold has_errors. destruct (errors_ tc') eqn:E; simpl; split.
    + split; [discriminate|congruence].
    + discriminate.
    + split; [discriminate|reflexivity].
    + discriminate.
  - destruct (check_function program_ func tc) as [[[ok func1] tc1]|] eqn:E1;
      [|discriminate].
    pose proof (check_function_records _ _ _ _ _ _ E1) as R1.
    destruct ok; cbn [negb] in Hc.
    + destruct (check_functions program_ rest tc1) as [[[result rest'] tc2]|] eqn:E2;
        [|discriminate].
      inv Hc. destruct (IH _ _ _ _ E2) as (Hiff & Hfirst). split; [assumption|].
      intros Hempty Hb. unfold records in R1. rewrite Hempty in R1.
      destruct (Hfirst R1 Hb) as (passed & f & post & passed' & f' & tc0 & -> & -> & ? & ? & ?).
      exists (func :: passed), f, post, (func1 :: passed'), f', tc0.
      repeat split; simpl; auto.
    + inv Hc. unfold records in R1. destruct R1 as (new & Hne & Herr). split.
      * split; [|reflexivity]. intros _. rewrite Herr.
        destruct new; [congruence|]. destruct (errors_ tc); discriminate.
      * intros Hempty _. exists [], func, rest, [], func1, tc. repeat split; auto.
Qed.

End FailFastFacts.

(** ** The function table *)

Module TableFacts.
Import FunctionTable Compiler CompilerSpec CompilerFacts.

Lemma clone_id : forall t : Ty, clone t = t.
Proof.
  fix IH 1. intros [k [b|] sp]; simpl; [rewrite IH|]; reflexivity.
Qed.

Lemma first_pass_size funcs : size (first_pass funcs) = length funcs.
Proof.
  induction funcs as [|func funcs IH] using rev_ind; [reflexivity|].
  rewrite first_pass_snoc. unfold size, add_function in *. simpl.
  rewrite !length_app, IH. reflexivity.
Qed.

Lemma first_pass_declared funcs fname :
  fname ∈ (fn_name <$> funcs) ->
  exists k, name_to_index (first_pass funcs) !! fname = Some k.
Proof.
  induction funcs as [|func funcs IH] using rev_ind; intros Hin.
  - simpl in Hin. inversion Hin.
  - rewrite first_pass_snoc. unfold add_function. cbn [snd name_to_index].
    destruct (decide (fname = fn_name func)) as [Heq|Hne].
    + subst fname. rewrite lookup_insert_eq. eauto.
    + rewrite lookup_insert_ne by congruence. apply IH.
      rewrite fmap_app in Hin. apply elem_of_app in Hin. destruct Hin as [Hin|Hin]; [assumption|].
      simpl in Hin. apply list_elem_of_singleton in Hin. congruence.
Qed.

Lemma first_pass_undeclared funcs fname :
  fname ∉ (fn_name <$> funcs) -> name_to_index (first_pass funcs) !! fname = None.
Proof.
  induction funcs as [|func funcs IH] using rev_ind; intros Hin; [reflexivity|].
  rewrite first_pass_snoc. unfold add_function. cbn [snd name_to_index].
  rewrite fmap_app in Hin. apply not_elem_of_app in Hin. destruct Hin as (Hin & Hlast).
  simpl in Hlast. apply not_elem_of_cons in Hlast. destruct Hlast as (Hne & _).
  rewrite lookup_insert_ne by congruence. now apply IH.
Qed.

(** Every index the table of the first pass maps a name to is the
    position of an entry that bears the name. *)
Lemma first_pass_entry funcs fname k :
  name_to_index (first_pass funcs) !! fname = Some k ->
  exists info, functions (first_pass funcs) !! k = Some info /\ name info = fname.
Proof.
  intros Hk. destruct (first_pass_index _ _ _ Hk) as (Hat & _).
  rewrite <- first_pass_functions in Hat. rewrite list_lookup_fmap in Hat.
  destruct (functions (first_pass funcs) !! k) as [info|]; [|discriminate].
  exists info. split; [reflexivity|]. simpl in Hat. congruence.
Qed.

(** The slots of the parameters. *)
Lemma params_slots (ps : list Param) :
  forall c0,
    let c1 := foldl (fun c param => new_local (param_name param) c) c0 ps in
    next_local_index c1 = (next_local_index c0 + length ps)%nat /\
    (forall x, x ∉ (param_name <$> ps) -> local_vars c1 !! x = local_vars c0 !! x) /\
    (forall i p, ps !! i = Some p ->
       (forall j, (i < j)%nat -> (param_name <$> ps) !! j <> Some (param_name p)) ->
       local_vars c1 !! param_name p = Some (next_local_index c0 + i)%nat).
Proof.
  induction ps as [|q ps IH] using rev_ind; intros c0; cbn zeta.
  - simpl. split; [lia|]. split; [reflexivity|]. intros i p Hi. discriminate.
  - rewrite foldl_snoc. specialize (IH c0). cbn zeta in IH.
    destruct IH as (Hn & Hout & Hin).
    set (c1 := foldl (fun c param => new_local (param_name param) c) c0 ps) in *.
    cbn [new_local next_local_index local_vars]. split; [|split].
    + rewrite length_app. simpl. lia.
    + intros x Hx. rewrite fmap_app in Hx. apply not_elem_of_app in Hx.
      destruct Hx as (Hx & Hq). simpl in Hq. apply not_elem_of_cons in Hq.
      destruct Hq as (Hq & _). rewrite lookup_insert_ne by congruence. now apply Hout.
    + intros i p Hi Hlast.
      destruct (decide (i = length ps)) as [Heq|Hne].
      * subst i. rewrite lookup_app_r in Hi by lia.
        replace (length ps - length ps)%nat with 0%nat in Hi by lia. simpl in Hi.
        inv Hi. rewrite lookup_insert_eq. f_equal. lia.
      * assert (Hlt : (i < length ps)%nat).
        { apply lookup_lt_Some in Hi. rewrite length_app in Hi. simpl in Hi. lia. }
        rewrite lookup_app_l in Hi by assumption.
        assert (Hpq : param_name p <> param_name q).
        { intros Heq. apply (Hlast (length ps) Hlt).
          rewrite fmap_app, lookup_app_r by (rewrite length_fmap; lia).
          rewrite length_fmap. replace (length ps - length ps)%nat with 0%nat by lia.
          simpl. congruence. }
        rewrite lookup_insert_ne by congruence. apply Hin; [assumption|].
        intros j Hj Hname. apply (Hlast j Hj).
        rewrite fmap_app, lookup_app_l; [assumption|].
        apply lookup_lt_Some in Hname. assumption.
Qed.

Lemma parameters_slots_next func c :
  next_local_index (entry_state func c) = length (fn_params func).
Proof.
  unfold entry_state.
  destruct (params_slots (fn_params func)
              (Compiler.Mk (instructions c) (string_constants c) ∅ 0 (function_table c)))
    as (Hn & _).
  cbn zeta in Hn. rewrite Hn. reflexivity.
Qed.

End TableFacts.

(** ** The layout of conditionals and loops *)

Module LayoutFacts.
Import FunctionTable Compiler CompilerSpec CompilerFacts.

(** Patching the operand of the instruction at the end of [l1]. *)
Lemma set_operand_at c l1 op v0 l2 v :
  instructions c = l1 ++ MkInstruction op v0 :: l2 ->
  instructions (set_operand (length l1) v c) = l1 ++ MkInstruction op v :: l2.
Proof.
  intros H. unfold set_operand. cbn [instructions]. rewrite H.
  rewrite (alter_at _ (length l1) l1 _ l2 eq_refl). reflexivity.
Qed.

Section WithWordSize.
Variable w : nat.

Lemma if_layout sp cond th c c' :
  compile_statement w (IfStmt sp cond th None) c = inr c' ->
  exists c1 c3 kc kt,
    compile_expression w cond c = inr c1 /\
    instructions c1 = instructions c ++ kc /\
    compile_statement w th (emit (MkInstruction JMP_IF_NOT 0) c1) = inr c3 /\
    instructions c3 = instructions c1 ++ MkInstruction JMP_IF_NOT 0 :: kt /\
    instructions c' =
      instructions c ++ kc ++
      MkInstruction JMP_IF_NOT (N.of_nat (length (instructions c3))) :: kt /\
    length (instructions c') = length (instructions c3) /\
    string_constants c' = string_constants c3 /\ local_vars c' = local_vars c3 /\
    next_local_index c' = next_local_index c3 /\ function_table c' = function_table c3.
Proof.
  intros H. cbn [compile_statement] in H.
  destruct (compile_expression w cond c) as [|c1] eqn:E1; [discriminate|].
  unfold emit_instruction in H.
  destruct (compile_statement w th (emit (MkInstruction JMP_IF_NOT 0) c1))
    as [|c3] eqn:E3; [discriminate|].
  inv H.
  destruct (compile_expression_appends w _ _ _ E1) as (kc & (I1 & _) & _).
  destruct (compile_statement_grows w _ _ _ E3) as (kt & (I3 & _) & _).
  cbn [emit instructions] in I3. rewrite <- app_assoc in I3. cbn [app] in I3.
  exists c1, c3, kc, kt. do 4 (split; [first [assumption|reflexivity]|]).
  assert (Hi : instructions (set_operand (length (instructions c1))
                               (N.of_nat (length (instructions c3))) c3)
               = instructions c1 ++ MkInstruction JMP_IF_NOT
                                      (N.of_nat (length (instructions c3))) :: kt).
  { apply set_operand_at with (v0 := 0%N). assumption. }
  split; [rewrite Hi, I1, <- app_assoc; reflexivity|].
  split; [rewrite Hi, I3, !length_app; reflexivity|].
  repeat split.
Qed.

Lemma if_else_layout sp cond th el c c' :
  compile_statement w (IfStmt sp cond th (Some el)) c = inr c' ->
  exists c1 c3 c6 kc kt ke,
    compile_expression w cond c = inr c1 /\
    instructions c1 = instructions c ++ kc /\
    compile_statement w th (emit (MkInstruction JMP_IF_NOT 0) c1) = inr c3 /\
    instructions c3 = instructions c1 ++ MkInstruction JMP_IF_NOT 0 :: kt /\
    compile_statement w el
      (set_operand (length (instructions c1)) (N.of_nat (S (length (instructions c3))))
                   (emit (MkInstruction JMP 0) c3)) = inr c6 /\
    instructions c6 =
      instructions
        (set_operand (length (instructions c1)) (N.of_nat (S (length (instructions c3))))
                     (emit (MkInstruction JMP 0) c3)) ++ ke /\
    instructions c6 =
      instructions c ++ kc ++
      MkInstruction JMP_IF_NOT (N.of_nat (S (length (instructions c3)))) :: kt ++
      MkInstruction JMP 0 :: ke /\
    instructions c' =
      instructions c ++ kc ++
      MkInstruction JMP_IF_NOT (N.of_nat (S (length (instructions c3)))) :: kt ++
      MkInstruction JMP (N.of_nat (length (instructions c6))) :: ke /\
    length (instructions c') = length (instructions c6) /\
    string_constants c' = string_constants c6 /\ local_vars c' = local_vars c6 /\
    next_local_index c' = next_local_index c6 /\ function_table c' = function_table c6.
Proof.
  intros H. cbn [compile_statement] in H.
  destruct (compile_expression w cond c) as [|c1] eqn:E1; [discriminate|].
  unfold emit_instruction in H.
  destruct (compile_statement w th (emit (MkInstruction JMP_IF_NOT 0) c1))
    as [|c3] eqn:E3; [discriminate|].
  destruct (compile_expression_appends w _ _ _ E1) as (kc & (I1 & _) & _).
  destruct (compile_statement_grows w _ _ _ E3) as (kt & (I3 & _) & _).
  cbn [emit instructions] in I3. rewrite <- app_assoc in I3. cbn [app] in I3.
  assert (I4 : instructions (emit (MkInstruction JMP 0) c3)
               = instructions c1 ++ MkInstruction JMP_IF_NOT 0 :: kt ++ [MkInstruction JMP 0]).
  { cbn [emit instructions]. rewrite I3, <- app_assoc. reflexivity. }
  assert (L4 : length (instructions (emit (MkInstruction JMP 0) c3))
               = S (length (instructions c3))).
  { cbn [emit instructions]. rewrite length_app. simpl. lia. }
  rewrite L4 in H.
  pose proof (set_operand_at _ _ _ _ _ (N.of_nat (S (length (instructions c3)))) I4) as I5.
  destruct (compile_statement w el
              (set_operand (length (instructions c1))
                 (N.of_nat (S (length (instructions c3))))
                 (emit (MkInstruction JMP 0) c3))) as [|c6] eqn:E6; [discriminate|].
  inv H.
  destruct (compile_statement_grows w _ _ _ E6) as (ke & (I6 & _) & _).
  pose proof I6 as I6o. rewrite I5 in I6.
  assert (I6' : instructions c6 =
                (instructions c1 ++ MkInstruction JMP_IF_NOT
                                      (N.of_nat (S (length (instructions c3)))) :: kt)
                ++ MkInstruction JMP 0 :: ke).
  { rewrite I6, <- !app_assoc. cbn [app]. rewrite <- app_assoc. reflexivity. }
  assert (Hlen : length (instructions c3)
                 = length (instructions c1 ++ MkInstruction JMP_IF_NOT
                                      (N.of_nat (S (length (instructions c3)))) :: kt)).
  { rewrite I3, !length_app. reflexivity. }
  pose proof (set_operand_at c6 _ JMP 0%N ke (N.of_nat (length (instructions c6))) I6') as I7.
  rewrite <- Hlen in I7.
  exists c1, c3, c6, kc, kt, ke.
  do 6 (split; [first [assumption|reflexivity]|]).
  split; [rewrite I6', I1, <- !app_assoc; reflexivity|].
  split; [rewrite I7, I1, <- !app_assoc; reflexivity|].
  split; [rewrite I7, I6', !length_app; reflexivity|].
  repeat split.
Qed.

Lemma while_layout sp cond body c c' :
  compile_statement w (WhileStmt sp cond body) c = inr c' ->
  exists c1 c3 kc kb,
    compile_expression w cond c = inr c1 /\
    instructions c1 = instructions c ++ kc /\
    compile_statement w body (emit (MkInstruction JMP_IF_NOT 0) c1) = inr c3 /\
    instructions c3 = instructions c1 ++ MkInstruction JMP_IF_NOT 0 :: kb /\
    instructions c' =
      instructions c ++ kc ++
      MkInstruction JMP_IF_NOT (N.of_nat (S (length (instructions c3)))) :: kb ++
      [MkInstruction JMP (N.of_nat (length (instructions c)))] /\
    length (instructions c') = S (length (instructions c3)) /\
    string_constants c' = string_constants c3 /\ local_vars c' = local_vars c3 /\
    next_local_index c' = next_local_index c3 /\ function_table c' = function_table c3.
Proof.
  intros H. cbn [compile_statement] in H.
  destruct (compile_expression w cond c) as [|c1] eqn:E1; [discriminate|].
  unfold emit_instruction in H.
  destruct (compile_statement w body (emit (MkInstruction JMP_IF_NOT 0) c1))
    as [|c3] eqn:E3; [discriminate|].
  inv H.
  destruct (compile_expression_appends w _ _ _ E1) as (kc & (I1 & _) & _).
  destruct (compile_statement_grows w _ _ _ E3) as (kb & (I3 & _) & _).
  cbn [emit instructions] in I3. rewrite <- app_assoc in I3. cbn [app] in I3.
  set (jump := MkInstruction JMP (N.of_nat (length (instructions c)))).
  assert (I4 : instructions (emit jump c3)
               = instructions c1 ++ MkInstruction JMP_IF_NOT 0 :: kb ++ [jump]).
  { cbn [emit instructions]. rewrite I3, <- app_assoc. reflexivity. }
  assert (L4 : length (instructions (emit jump c3)) = S (length (instructions c3))).
  { cbn [emit instructions]. rewrite length_app. simpl. lia. }
  change (length (instructions c3 ++ [jump]))
    with (length (instructions (emit jump c3))).
  rewrite L4.
  pose proof (set_operand_at _ _ _ _ _ (N.of_nat (S (length (instructions c3)))) I4) as I5.
  exists c1, c3, kc, kb.
  do 4 (split; [first [assumption|reflexivity]|]).
  split; [rewrite I5, I1, <- !app_assoc; reflexivity|].
  split; [rewrite I5, I3, !length_app; simpl; rewrite length_app; simpl; lia|].
  repeat split.
Qed.

End WithWordSize.
End LayoutFacts.

(** ** The repertoire of the compiler *)

Module RepertoireFacts.
Import FunctionTable Compiler CompilerSpec CompilerFacts RepertoireSpec LayoutFacts.
Import TableFacts.

Lemma lowered_mono w s1 s2 n i : (s1 <= s2)%nat -> lowered w s1 n i -> lowered w s2 n i.
Proof.
  intros Hle (Hr & Hs). split; [assumption|]. intros Hop. specialize (Hs Hop). lia.
Qed.

Lemma Forall_lowered_mono w s1 s2 n code :
  (s1 <= s2)%nat -> Forall (lowered w s1 n) code -> Forall (lowered w s2 n) code.
Proof. intros Hle H. eapply Forall_impl; [exact H|]. intros i. now apply lowered_mono. Qed.

Ltac plain := split; [repeat split; intros; discriminate|intros [?|?]; discriminate].

Lemma lowered_binary w s n op opc :
  binary_opcode op = Some opc -> lowered w s n (Instruction_ opc).
Proof. destruct op; intros H; inv H; plain. Qed.

Lemma lowered_slot w s n op k :
  op = LOAD \/ op = STORE -> (k < s)%nat -> lowered w s n (MkInstruction op (N.of_nat k)).
Proof.
  intros [->| ->] Hk; (split; [repeat split; intros; discriminate|intros _; simpl; lia]).
Qed.

Lemma int_to_size_t_bound w v : (Z.of_N (int_to_size_t w v) < 2 ^ (8 * Z.of_nat w))%Z.
Proof.
  unfold int_to_size_t.
  assert (Hpos : (0 < 2 ^ (8 * Z.of_nat w))%Z) by (apply Z.pow_pos_nonneg; lia).
  pose proof (Z.mod_pos_bound v _ Hpos) as Hb. rewrite Z2N.id; lia.
Qed.

Lemma compile_expression_binary w sp ty op l r c :
  op <> BinOp.Assignment ->
  compile_expression w (BinaryExpr sp ty op l r) c =
  match compile_expression w l c with
  | inl what => inl what
  | inr c1 =>
      match compile_expression w r c1 with
      | inl what => inl what
      | inr c2 =>
          match binary_opcode op with
          | Some opc => inr (emit (Instruction_ opc) c2)
          | None => inl "Unknown binary operator"
          end
      end
  end.
Proof. intros Hop. destruct op; try reflexivity. contradiction. Qed.

Lemma compile_expression_assignment w sp ty l r c :
  compile_expression w (BinaryExpr sp ty BinOp.Assignment l r) c =
  match compile_expression w r c with
  | inl what => inl what
  | inr c1 =>
      match l with
      | Identifier _ _ target _ =>
          match get_local_index target c1 with
          | inl what => inl what
          | inr index =>
              inr (emit (MkInstruction LOAD (N.of_nat index))
                        (emit (MkInstruction STORE (N.of_nat index)) c1))
          end
      | _ => inl "Assignment target must be an identifier"
      end
  end.
Proof. reflexivity. Qed.

Section WithWordSize.
Variable w : nat.

Lemma in_order_lowered exprs :
  Forall (expr_lowered w) exprs ->
  forall c c' code,
    compile_in_order w exprs c = inr c' ->
    locals_bounded c -> table_bounded (function_table c) ->
    instructions c' = instructions c ++ code ->
    Forall (lowered w (next_local_index c) (size (function_table c))) code.
Proof.
  induction 1 as [|e exprs He _ IH]; intros c c' code H LB TB Hcode.
  - simpl in H. inv H. rewrite <- (app_nil_r (instructions c')) in Hcode at 1.
    apply app_inv_head in Hcode. subst code. constructor.
  - simpl in H. destruct (compile_expression w e c) as [|c1] eqn:E1; [discriminate|].
    destruct (compile_expression_appends w _ _ _ E1) as (k1 & (I1 & L1 & N1 & T1) & _).
    destruct (compile_in_order_appends w _ _ _ H) as (k2 & (I2 & _) & _).
    rewrite I2, I1, <- app_assoc in Hcode. apply app_inv_head in Hcode. subst code.
    apply Forall_app. split.
    + now apply (He c c1).
    + rewrite <- N1, <- T1. apply (IH c1 c'); try assumption.
      * intros x k. rewrite L1, N1. apply LB.
      * rewrite T1. assumption.
Qed.

Lemma compile_expression_lowered e : expr_lowered w e.
Proof.
  induction e as [sp ty v|sp ty v|sp ty v|sp ty x m|sp ty op l r IHl IHr
                 |sp ty op e IHe|sp ty m e IHe|sp ty callee args _ IHargs]
    using Expr_nested_ind; intros c c' code H LB TB Hcode.
  - simpl in H. inv H. cbn [emit instructions] in Hcode.
    apply app_inv_head in Hcode. subst code. constructor; [|constructor].
    split; [repeat split; try (intros; discriminate)|intros [?|?]; discriminate].
    intros _. apply int_to_size_t_bound.
  - simpl in H. inv H. cbn [emit instructions] in Hcode.
    apply app_inv_head in Hcode. subst code. constructor; [|constructor].
    split; [repeat split; try (intros; discriminate)|intros [?|?]; discriminate].
    intros _. cbn. destruct v; lia.
  - simpl in H. inv H. cbn [emit instructions] in Hcode.
    apply app_inv_head in Hcode. subst code. constructor; [|constructor]. plain.
  - simpl in H. unfold get_local_index in H.
    destruct (local_vars c !! x) as [k|] eqn:Ek; [|discriminate]. inv H.
    cbn [emit instructions] in Hcode. apply app_inv_head in Hcode. subst code.
    constructor; [|constructor]. apply lowered_slot; [auto|]. now apply (LB x).
  - assert (Hdec : op = BinOp.Assignment \/ op <> BinOp.Assignment)
      by (destruct op; first [left; reflexivity|right; discriminate]).
    destruct Hdec as [->|Hop].
    + rewrite compile_expression_assignment in H.
      destruct (compile_expression w r c) as [|c1] eqn:E1; [discriminate|].
      destruct (compile_expression_appends w _ _ _ E1) as (k1 & (I1 & L1 & N1 & T1) & _).
      destruct l as [| | |isp ity target im| | | |]; try discriminate.
      unfold get_local_index in H.
      destruct (local_vars c1 !! target) as [k|] eqn:Ek; [|discriminate]. inv H.
      cbn [emit instructions] in Hcode. rewrite I1, <- !app_assoc in Hcode.
      apply app_inv_head in Hcode. subst code.
      assert (Hk : (k < next_local_index c)%nat).
      { apply (LB target). rewrite <- L1. assumption. }
      apply Forall_app. split; [now apply (IHr c c1)|].
      constructor; [|constructor; [|constructor]]; apply lowered_slot; auto.
    + rewrite compile_expression_binary in H by assumption.
      destruct (compile_expression w l c) as [|c1] eqn:E1; [discriminate|].
      destruct (compile_expression w r c1) as [|c2] eqn:E2; [discriminate|].
      destruct (binary_opcode op) as [opc|] eqn:Eop; [|discriminate]. inv H.
      destruct (compile_expression_appends w _ _ _ E1) as (k1 & (I1 & L1 & N1 & T1) & _).
      destruct (compile_expression_appends w _ _ _ E2) as (k2 & (I2 & L2 & N2 & T2) & _).
      cbn [emit instructions] in Hcode. rewrite I2, I1, <- !app_assoc in Hcode.
      apply app_inv_head in Hcode. subst code.
      apply Forall_app. split; [now apply (IHl c c1)|].
      apply Forall_app. split.
      * rewrite <- N1, <- T1. apply (IHr c1 c2); try assumption.
        -- intros x k. rewrite L1, N1. apply LB.
        -- rewrite T1. assumption.
      * constructor; [|constructor]. now apply lowered_binary with (op := op).
  - simpl in H. destruct (compile_expression w e c) as [|c1] eqn:E1; [discriminate|].
    destruct (compile_expression_appends w _ _ _ E1) as (k1 & (I1 & _) & _).
    destruct op; inv H; cbn [emit instructions] in Hcode;
      rewrite I1, <- !app_assoc in Hcode; apply app_inv_head in Hcode; subst code;
      (apply Forall_app; split; [now apply (IHe c c1)|]);
      (constructor; [|constructor]); plain.
  - simpl in H. destruct (compile_expression w e c) as [|c1] eqn:E1; [discriminate|].
    destruct (compile_expression_appends w _ _ _ E1) as (k1 & (I1 & _) & _).
    destruct m; inv H; cbn [emit instructions] in Hcode;
      rewrite I1, <- !app_assoc in Hcode; apply app_inv_head in Hcode; subst code;
      (apply Forall_app; split; [now apply (IHe c c1)|]);
      (constructor; [|constructor]); plain.
  - rewrite compile_expression_call, compile_args_reversed_rev in H.
    destruct (compile_in_order w (rev args) c) as [|c1] eqn:E1; [discriminate|].
    destruct (compile_in_order_appends w _ _ _ E1) as (k1 & (I1 & L1 & N1 & T1) & _).
    destruct callee as [| | |isp ity fname im| | | |]; try discriminate.
    unfold get_function_index in H.
    destruct (name_to_index (function_table c1) !! fname) as [k|] eqn:Ek; [|discriminate].
    inv H. cbn [emit instructions] in Hcode. rewrite I1, <- !app_assoc in Hcode.
    apply app_inv_head in Hcode. subst code.
    apply Forall_app. split.
    + apply (in_order_lowered (rev args)) with (c' := c1); try assumption.
      apply Forall_rev. assumption.
    + constructor; [|constructor].
      split; [repeat split; try (intros; discriminate)|intros [?|?]; discriminate].
      intros _. cbn. rewrite T1 in Ek. apply TB in Ek. lia.
Qed.

Lemma locals_bounded_same c c' :
  local_vars c' = local_vars c -> next_local_index c' = next_local_index c ->
  locals_bounded c -> locals_bounded c'.
Proof. intros Hl Hn LB x k. rewrite Hl, Hn. apply LB. Qed.

Lemma block_lowered stmts :
  Forall (stmt_lowered w) stmts ->
  forall c c' code,
    compile_block w stmts c = inr c' ->
    locals_bounded c -> table_bounded (function_table c) ->
    instructions c' = instructions c ++ code ->
    locals_bounded c' /\ (next_local_index c <= next_local_index c')%nat /\
    local_vars c ⊆ local_vars c' /\
    Forall (lowered w (next_local_index c') (size (function_table c))) code.
Proof.
  induction 1 as [|s stmts Hs _ IH]; intros c c' code H LB TB Hcode.
  - simpl in H. inv H. rewrite <- (app_nil_r (instructions c')) in Hcode at 1.
    apply app_inv_head in Hcode. subst code. repeat split; auto.
  - simpl in H. destruct (compile_statement w s c) as [|c1] eqn:E1; [discriminate|].
    destruct (compile_statement_grows w _ _ _ E1) as (k1 & (I1 & T1) & _).
    assert (Hblock : compile_statement w (BlockStmt (MkSpan 0 0) stmts) c1 = inr c')
      by exact H.
    destruct (compile_statement_grows w _ _ _ Hblock) as (k2 & (I2 & T2) & _).
    rewrite I2, I1, <- app_assoc in Hcode. apply app_inv_head in Hcode. subst code.
    destruct (Hs c c1 k1 E1 LB TB I1) as (LB1 & N1 & S1 & F1).
    assert (TB1 : table_bounded (function_table c1)) by (rewrite T1; assumption).
    destruct (IH c1 c' k2 H LB1 TB1 I2) as (LB2 & N2 & S2 & F2).
    split; [assumption|]. split; [lia|]. split; [etrans; eassumption|].
    apply Forall_app. split.
    + eapply Forall_lowered_mono; [exact N2|exact F1].
    + rewrite <- T1. exact F2.
Qed.

Lemma compile_statement_lowered s : stmt_lowered w s.
Proof.
  induction s as [sp m x ty e|sp e|sp cond th IHth|sp cond th el IHth IHel
                 |sp cond body IHbody|sp stmts IHstmts]
    using Stmt_nested_ind; intros c c' code H LB TB Hcode.
  - cbn [compile_statement] in H. unfold compile_let in H.
    destruct (compile_expression w e c) as [|c1] eqn:E1; [discriminate|].
    destruct (compile_expression_appends w _ _ _ E1) as (k1 & (I1 & L1 & N1 & T1) & _).
    pose proof (compile_expression_lowered e c c1 k1 E1 LB TB I1) as F1.
    destruct (local_vars c1 !! x) as [k|] eqn:Ek.
    + unfold get_local_index in H. rewrite Ek in H. inv H.
      cbn [emit instructions] in Hcode. rewrite I1, <- app_assoc in Hcode.
      apply app_inv_head in Hcode. subst code.
      cbn [emit local_vars next_local_index]. rewrite L1, N1.
      split; [apply (locals_bounded_same c); [exact L1|exact N1|assumption]|].
      split; [lia|]. split; [reflexivity|].
      apply Forall_app. split; [assumption|].
      constructor; [|constructor]. apply lowered_slot; [auto|].
      apply (LB x). rewrite <- L1. assumption.
    + unfold get_local_index, new_local in H. cbn [local_vars] in H.
      rewrite lookup_insert_eq in H. inv H.
      cbn [emit instructions] in Hcode. rewrite I1, <- app_assoc in Hcode.
      apply app_inv_head in Hcode. subst code.
      cbn [emit local_vars next_local_index]. rewrite L1, N1. rewrite L1 in Ek.
      split; [|split; [lia|split]].
      * intros y k Hy. cbn [emit new_local local_vars next_local_index] in Hy |- *.
        rewrite ?L1 in Hy. rewrite ?N1 in Hy |- *.
        destruct (decide (x = y)) as [->|Hne].
        -- rewrite lookup_insert_eq in Hy. inv Hy. lia.
        -- rewrite lookup_insert_ne in Hy by assumption. apply LB in Hy. lia.
      * apply insert_subseteq. assumption.
      * apply Forall_app. split.
        -- eapply Forall_lowered_mono; [|exact F1]. lia.
        -- constructor; [|constructor]. apply lowered_slot; [auto|lia].
  - cbn [compile_statement] in H.
    destruct (compile_expression w e c) as [|c1] eqn:E1; [discriminate|].
    destruct (compile_expression_appends w _ _ _ E1) as (k1 & (I1 & L1 & N1 & T1) & _).
    pose proof (compile_expression_lowered e c c1 k1 E1 LB TB I1) as F1.
    inv H. cbn [emit instructions] in Hcode. rewrite I1, <- app_assoc in Hcode.
    apply app_inv_head in Hcode. subst code.
    cbn [emit local_vars next_local_index]. rewrite L1, N1.
    split; [apply (locals_bounded_same c); [exact L1|exact N1|assumption]|].
    split; [lia|]. split; [reflexivity|].
    apply Forall_app. split; [assumption|]. constructor; [|constructor]. plain.
  - destruct (if_layout w _ _ _ _ _ H)
      as (c1 & c3 & kc & kt & E1 & I1 & E3 & I3 & Ic & _ & _ & Hl & Hn & _).
    destruct (compile_expression_appends w _ _ _ E1) as (k1 & (_ & L1 & N1 & T1) & _).
    pose proof (compile_expression_lowered cond c c1 kc E1 LB TB I1) as F1.
    rewrite Ic in Hcode. apply app_inv_head in Hcode. subst code.
    assert (I3' : instructions c3
                  = instructions (emit (MkInstruction JMP_IF_NOT 0) c1) ++ kt).
    { cbn [emit instructions]. rewrite <- app_assoc. exact I3. }
    destruct (IHth _ c3 kt E3) as (LB3 & N3 & S3 & F3); try assumption.
    { now apply (locals_bounded_same c). }
    { cbn [emit function_table]. rewrite T1. assumption. }
    cbn [emit local_vars next_local_index function_table] in N3, S3, F3.
    rewrite N1 in N3. rewrite L1 in S3. rewrite T1 in F3.
    split; [now apply (locals_bounded_same c3)|]. rewrite Hn, Hl.
    split; [assumption|]. split; [assumption|].
    apply Forall_app. split; [eapply Forall_lowered_mono; [exact N3|exact F1]|].
    constructor; [plain|assumption].
  - destruct (if_else_layout w _ _ _ _ _ _ H)
      as (c1 & c3 & c6 & kc & kt & ke & E1 & I1 & E3 & I3 & E6 & I6o & I6 & Ic
          & _ & _ & Hl & Hn & _).
    destruct (compile_expression_appends w _ _ _ E1) as (k1 & (_ & L1 & N1 & T1) & _).
    pose proof (compile_expression_lowered cond c c1 kc E1 LB TB I1) as F1.
    rewrite Ic in Hcode. apply app_inv_head in Hcode. subst code.
    assert (I3' : instructions c3
                  = instructions (emit (MkInstruction JMP_IF_NOT 0) c1) ++ kt).
    { cbn [emit instructions]. rewrite <- app_assoc. exact I3. }
    destruct (compile_statement_grows w _ _ _ E3) as (k3 & (_ & T3) & _).
    destruct (IHth _ c3 kt E3) as (LB3 & N3 & S3 & F3); try assumption.
    { now apply (locals_bounded_same c). }
    { cbn [emit function_table]. rewrite T1. assumption. }
    cbn [emit local_vars next_local_index function_table] in N3, S3, F3, T3.
    rewrite N1 in N3. rewrite L1 in S3. rewrite T1 in F3, T3.
    destruct (IHel _ c6 ke E6) as (LB6 & N6 & S6 & F6); try assumption.
    { cbn [set_operand emit function_table]. rewrite T3. assumption. }
    cbn [set_operand emit local_vars next_local_index function_table] in N6, S6, F6.
    rewrite T3 in F6.
    split; [now apply (locals_bounded_same c6)|]. rewrite Hn, Hl.
    split; [lia|]. split; [etrans; eassumption|].
    apply Forall_app. split; [eapply Forall_lowered_mono; [|exact F1]; lia|].
    constructor; [plain|]. apply Forall_app. split.
    + eapply Forall_lowered_mono; [exact N6|exact F3].
    + constructor; [plain|assumption].
  - destruct (while_layout w _ _ _ _ _ H)
      as (c1 & c3 & kc & kb & E1 & I1 & E3 & I3 & Ic & _ & _ & Hl & Hn & _).
    destruct (compile_expression_appends w _ _ _ E1) as (k1 & (_ & L1 & N1 & T1) & _).
    pose proof (compile_expression_lowered cond c c1 kc E1 LB TB I1) as F1.
    rewrite Ic in Hcode. apply app_inv_head in Hcode. subst code.
    assert (I3' : instructions c3
                  = instructions (emit (MkInstruction JMP_IF_NOT 0) c1) ++ kb).
    { cbn [emit instructions]. rewrite <- app_assoc. exact I3. }
    destruct (IHbody _ c3 kb E3) as (LB3 & N3 & S3 & F3); try assumption.
    { now apply (locals_bounded_same c). }
    { cbn [emit function_table]. rewrite T1. assumption. }
    cbn [emit local_vars next_local_index function_table] in N3, S3, F3.
    rewrite N1 in N3. rewrite L1 in S3. rewrite T1 in F3.
    split; [now apply (locals_bounded_same c3)|]. rewrite Hn, Hl.
    split; [assumption|]. split; [assumption|].
    apply Forall_app. split; [eapply Forall_lowered_mono; [exact N3|exact F1]|].
    constructor; [plain|]. apply Forall_app. split; [assumption|].
    constructor; [plain|constructor].
  - rewrite compile_statement_block in H. now apply (block_lowered stmts IHstmts c c').
Qed.

Lemma update_function_entries fname f c c' :
  update_function fname f c = inr c' ->
  exists k info,
    name_to_index (function_table c) !! fname = Some k /\
    functions (function_table c) !! k = Some info /\
    functions (function_table c') = alter f k (functions (function_table c)) /\
    name_to_index (function_table c') = name_to_index (function_table c) /\
    instructions c' = instructions c /\ local_vars c' = local_vars c /\
    next_local_index c' = next_local_index c /\
    string_constants c' = string_constants c.
Proof.
  unfold update_function, get_function_index, get_function. intros H.
  destruct (name_to_index (function_table c) !! fname) as [k|] eqn:Ek; [|discriminate].
  destruct (functions (function_table c) !! k) as [info|] eqn:Ei; [|discriminate].
  inv H. exists k, info. repeat split; assumption.
Qed.

Lemma entry_state_bounded func c : locals_bounded (entry_state func c).
Proof.
  unfold entry_state.
  induction (fn_params func) as [|p ps IH] using rev_ind.
  - intros x k H. simpl in H. rewrite lookup_empty in H. discriminate.
  - rewrite foldl_snoc. intros x k H. cbn [new_local local_vars next_local_index] in *.
    destruct (decide (param_name p = x)) as [Heq|Hne].
    + subst x. rewrite lookup_insert_eq in H. inv H. lia.
    + rewrite lookup_insert_ne in H by assumption. apply IH in H. lia.
Qed.

Lemma table_bounded_same table table' :
  name_to_index table' = name_to_index table -> size table' = size table ->
  table_bounded table -> table_bounded table'.
Proof. intros Hn Hs TB f k. rewrite Hn, Hs. apply TB. Qed.

Lemma compile_function_lowered func c c' :
  Forall (fun i => opcode i <> RET_VAL) (instructions c) ->
  table_bounded (function_table c) ->
  compile_function w func c = inr c' ->
  exists body k info,
    instructions c' = instructions c ++ body ++ [Instruction_ RET] /\
    name_to_index (function_table c) !! fn_name func = Some k /\
    functions (function_table c) !! k = Some info /\
    functions (function_table c') =
      alter (set_num_locals (next_local_index c')) k (functions (function_table c)) /\
    name_to_index (function_table c') = name_to_index (function_table c) /\
    (length (fn_params func) <= next_local_index c')%nat /\
    Forall (lowered w (next_local_index c') (size (function_table c))) body.
Proof.
  intros HR TB H. rewrite compile_function_unfold in H.
  destruct (compile_statement w (fn_body func) (entry_state func c)) as [|c2] eqn:E2;
    [discriminate|].
  destruct (compile_statement_grows w _ _ _ E2) as (body & (I2 & T2) & Hok).
  destruct (entry_state_same func c) as (Ie & Te). rewrite Ie in I2. rewrite Te in T2.
  assert (Hlast : last_is_ret_val c2 = false).
  { unfold last_is_ret_val. apply last_not_ret_val. rewrite I2. apply Forall_app.
    split; [assumption|]. eapply Forall_impl; [exact Hok|]. intros i (Hi & _). exact Hi. }
  rewrite Hlast in H.
  destruct (update_function_entries _ _ _ _ H)
    as (k & info & Ek & Ei & Hf & Hn & Hi & Hl & Hx & _).
  cbn [emit instructions local_vars next_local_index function_table] in *.
  rewrite T2 in Ek, Ei, Hf, Hn.
  destruct (compile_statement_lowered (fn_body func) (entry_state func c) c2 body E2)
    as (LB2 & N2 & S2 & F2).
  { apply entry_state_bounded. }
  { rewrite Te. assumption. }
  { rewrite Ie. assumption. }
  rewrite Te in F2.
  rewrite (parameters_slots_next func c) in N2.
  exists body, k, info. rewrite Hx.
  split; [rewrite Hi, I2, <- app_assoc; reflexivity|].
  repeat split; assumption.
Qed.

(** The second pass, for functions of pairwise different names that the
    table lists from position [offset] on. *)
Lemma second_pass_table funcs :
  forall offset c c',
    second_pass w funcs c = inr c' ->
    vector_ok (instructions c) ->
    table_bounded (function_table c) ->
    NoDup (fn_name <$> funcs) ->
    (forall j func, funcs !! j = Some func ->
       name_to_index (function_table c) !! fn_name func = Some (offset + j)%nat /\
       exists info,
         functions (function_table c) !! (offset + j)%nat = Some info /\
         name info = fn_name func /\ num_params info = length (fn_params func)) ->
    exists bodies,
      length bodies = length funcs /\
      instructions c' = instructions c ++ concat (map with_ret bodies) /\
      (forall i, (i < offset)%nat ->
         functions (function_table c') !! i = functions (function_table c) !! i) /\
      forall j func body, funcs !! j = Some func -> bodies !! j = Some body ->
        exists info,
          functions (function_table c') !! (offset + j)%nat = Some info /\
          name info = fn_name func /\ num_params info = length (fn_params func) /\
          entry_point info =
            (length (instructions c) + length (concat (map with_ret (take j bodies))))%nat /\
          (length (fn_params func) <= num_locals info)%nat /\
          Forall (lowered w (num_locals info) (size (function_table c))) body.
Proof.
  induction funcs as [|func funcs IH]; intros offset c c' H Hok TB Hnd Htable.
  - simpl in H. inv H. exists []. simpl. rewrite app_nil_r.
    repeat split; auto. intros j func body Hj. discriminate.
  - cbn [second_pass] in H.
    destruct (compile_function w func c) as [|c1] eqn:E1; [discriminate|].
    destruct (update_function (fn_name func) (set_entry_point (length (instructions c))) c1)
      as [|c2] eqn:E2; [discriminate|].
    destruct (compile_function_lowered func c c1 (vector_ok_no_ret_val _ Hok) TB E1)
      as (body & k & info & I1 & Ek & Ei & Hf1 & Hn1 & Hp & F1).
    destruct (compile_function_region w func c c1 (vector_ok_no_ret_val _ Hok) E1)
      as (body' & I1' & Hbody & _).
    assert (body' = body).
    { rewrite I1 in I1'. apply app_inv_head in I1'. apply app_inv_tail in I1'.
      symmetry. assumption. }
    subst body'.
    destruct (update_function_entries _ _ _ _ E2)
      as (k2 & info2 & Ek2 & Ei2 & Hf2 & Hn2 & Hi2 & _ & _ & _).
    destruct (Htable 0%nat func eq_refl) as (Hk0 & info0 & Hi0 & Hname0 & Hparams0).
    rewrite Nat.add_0_r in Hk0, Hi0.
    assert (k = offset) by congruence. subst k.
    assert (info0 = info) by congruence. subst info0.
    rewrite Hn1, Hk0 in Ek2. assert (k2 = offset) by congruence. subst k2. clear Ek2.
    rewrite Hf1, list_lookup_alter_eq, Ei in Ei2. simpl in Ei2.
    assert (info2 = set_num_locals (next_local_index c1) info) by congruence.
    subst info2. clear Ei2.
    assert (Hsize1 : size (function_table c1) = size (function_table c)).
    { unfold size. rewrite Hf1, length_alter. reflexivity. }
    assert (Hsize2 : size (function_table c2) = size (function_table c)).
    { unfold size. rewrite Hf2, length_alter. exact Hsize1. }
    assert (Hok2 : vector_ok (instructions c2)).
    { rewrite Hi2, I1. now apply vector_ok_region. }
    assert (TB2 : table_bounded (function_table c2)).
    { apply (table_bounded_same (function_table c)); [congruence|assumption|assumption]. }
    apply NoDup_cons in Hnd. destruct Hnd as (Hfresh & Hnd).
    destruct (IH (S offset) c2 c' H Hok2 TB2 Hnd) as (bodies & Hlen & Ic & Hkeep & Hall).
    { intros j f Hj. destruct (Htable (S j) f Hj) as (Hkj & infoj & Hij & Hnj & Hpj).
      replace (offset + S j)%nat with (S offset + j)%nat in Hkj, Hij by lia.
      split; [congruence|]. exists infoj. split; [|auto].
      rewrite Hf2, list_lookup_alter_ne by lia.
      rewrite Hf1, list_lookup_alter_ne by lia. assumption. }
    exists (body :: bodies). split; [simpl; congruence|].
    split.
    { rewrite Ic, Hi2, I1. cbn [map concat]. unfold with_ret at 2.
      rewrite <- !app_assoc. reflexivity. }
    split.
    { intros i Hi. rewrite Hkeep by lia.
      rewrite Hf2, list_lookup_alter_ne by lia.
      rewrite Hf1, list_lookup_alter_ne by lia. reflexivity. }
    intros j f b Hj Hb. destruct j as [|j].
    + simpl in Hj, Hb. assert (f = func) by congruence. assert (b = body) by congruence.
      subst f b. rewrite Nat.add_0_r.
      rewrite Hkeep by lia. rewrite Hf2, list_lookup_alter_eq.
      rewrite Hf1, list_lookup_alter_eq, Ei. simpl.
      eexists. split; [reflexivity|]. cbn.
      split; [assumption|]. split; [assumption|]. split; [lia|].
      split; assumption.
    + simpl in Hj, Hb. destruct (Hall j f b Hj Hb) as (infoj & Hij & Hnj & Hpj & Hej & Hlj & Fj).
      replace (offset + S j)%nat with (S offset + j)%nat by lia.
      exists infoj. split; [assumption|]. split; [assumption|]. split; [assumption|].
      split.
      { rewrite Hej, Hi2, I1. cbn [take map concat]. unfold with_ret at 2.
        rewrite !length_app. simpl. lia. }
      split; [assumption|]. rewrite <- Hsize2. assumption.
Qed.

(** The second pass keeps the code inside the repertoire. *)
Lemma second_pass_repertoire funcs :
  forall c c',
    second_pass w funcs c = inr c' ->
    vector_ok (instructions c) ->
    table_bounded (function_table c) ->
    Forall (in_repertoire w (size (function_table c))) (instructions c) ->
    Forall (in_repertoire w (size (function_table c))) (instructions c').
Proof.
  induction funcs as [|func funcs IH]; intros c c' H Hok TB Hin.
  - simpl in H. inv H. assumption.
  - cbn [second_pass] in H.
    destruct (compile_function w func c) as [|c1] eqn:E1; [discriminate|].
    destruct (update_function (fn_name func) (set_entry_point (length (instructions c))) c1)
      as [|c2] eqn:E2; [discriminate|].
    destruct (compile_function_lowered func c c1 (vector_ok_no_ret_val _ Hok) TB E1)
      as (body & k & info & I1 & Ek & Ei & Hf1 & Hn1 & Hp & F1).
    destruct (compile_function_region w func c c1 (vector_ok_no_ret_val _ Hok) E1)
      as (body' & I1' & Hbody & _).
    assert (body' = body).
    { rewrite I1 in I1'. apply app_inv_head in I1'. apply app_inv_tail in I1'.
      symmetry. assumption. }
    subst body'.
    destruct (update_function_entries _ _ _ _ E2)
      as (k2 & info2 & Ek2 & Ei2 & Hf2 & Hn2 & Hi2 & _ & _ & _).
    assert (Hsize2 : size (function_table c2) = size (function_table c)).
    { unfold size. rewrite Hf2, length_alter, Hf1, length_alter. reflexivity. }
    assert (Hok2 : vector_ok (instructions c2)).
    { rewrite Hi2, I1. now apply vector_ok_region. }
    assert (TB2 : table_bounded (function_table c2)).
    { apply (table_bounded_same (function_table c)); [congruence|assumption|assumption]. }
    rewrite <- Hsize2. apply (IH c2 c' H Hok2 TB2).
    rewrite Hsize2, Hi2, I1. apply Forall_app. split; [assumption|].
    apply Forall_app. split.
    + eapply Forall_impl; [exact F1|]. intros i (Hr & _). exact Hr.
    + constructor; [|constructor]. repeat split; intros; discriminate.
Qed.

Lemma first_pass_bounded funcs : table_bounded (first_pass funcs).
Proof.
  intros f k Hk. destruct (first_pass_index _ _ _ Hk) as (Hat & _).
  apply lookup_lt_Some in Hat. rewrite length_fmap in Hat.
  rewrite first_pass_size. assumption.
Qed.

Lemma first_pass_infos funcs :
  functions (first_pass funcs) =
  map (fun func =>
         MkFunctionInfo 0 (length (fn_params func)) 0 (clone (fn_return_type func))
                        (map (fun param => clone (param_type param)) (fn_params func))
                        (fn_name func)) funcs.
Proof.
  induction funcs as [|func funcs IH] using rev_ind; [reflexivity|].
  rewrite first_pass_snoc. unfold add_function. cbn [snd functions].
  rewrite IH, map_app. reflexivity.
Qed.

Lemma first_pass_positions funcs j func :
  NoDup (fn_name <$> funcs) -> funcs !! j = Some func ->
  name_to_index (first_pass funcs) !! fn_name func = Some j /\
  exists info,
    functions (first_pass funcs) !! j = Some info /\
    name info = fn_name func /\ num_params info = length (fn_params func).
Proof.
  intros Hnd Hj.
  assert (Hname : (fn_name <$> funcs) !! j = Some (fn_name func)).
  { rewrite list_lookup_fmap, Hj. reflexivity. }
  split.
  - destruct (first_pass_declared funcs (fn_name func)) as (k & Hk).
    { apply list_elem_of_lookup. eauto. }
    destruct (first_pass_index _ _ _ Hk) as (Hat & _).
    rewrite Hk. f_equal. eapply NoDup_lookup; eassumption.
  - rewrite first_pass_infos, list_lookup_fmap, Hj. simpl. eexists.
    split; [reflexivity|]. split; reflexivity.
Qed.

End WithWordSize.
End RepertoireFacts.

(** ** Types *)

Module TypeFacts.
Import TypeChecker TypeSpec.

Lemma Ty_nested_ind (P : Ty -> Prop) :
  (forall k sp, P (MkTy k None sp)) ->
  (forall k b sp, P b -> P (MkTy k (Some b) sp)) ->
  forall t, P t.
Proof.
  intros H1 H2. fix IH 1. intros [k [b|] sp]; [apply H2, IH|apply H1].
Qed.

Lemma is_assignable_refl t : is_assignable t t = Some true <-> complete t = true.
Proof.
  induction t as [k sp|k b sp IH] using Ty_nested_ind.
  - destruct k; cbn; split; intros H; try reflexivity; discriminate.
  - destruct k; cbn; try (split; reflexivity); exact IH.
Qed.

Lemma is_assignable_never_false t : is_assignable t t <> Some false.
Proof.
  induction t as [k sp|k b sp IH] using Ty_nested_ind.
  - destruct k; cbn; discriminate.
  - destruct k; cbn; try discriminate; exact IH.
Qed.

Lemma is_assignable_trans a :
  forall b c, is_assignable a b = Some true -> is_assignable b c = Some true ->
              is_assignable a c = Some true.
Proof.
  induction a as [ak asp|ak ab asp IH] using Ty_nested_ind;
    intros [bk [bb|] bsp] [ck [cb|] csp] H1 H2;
    destruct ak, bk; cbn in H1; try discriminate;
    destruct ck; cbn in H2 |- *; try discriminate; try reflexivity;
    eapply IH; eassumption.
Qed.

Lemma is_compatible_sym a : forall b, is_compatible a b = is_compatible b a.
Proof.
  induction a as [ak asp|ak ab asp IH] using Ty_nested_ind;
    intros [bk [bb|] bsp]; destruct ak, bk; cbn; try reflexivity; apply IH.
Qed.

Lemma is_assignable_compatible a :
  forall b, is_assignable a b = Some true -> is_compatible a b = Some true.
Proof.
  induction a as [ak asp|ak ab asp IH] using Ty_nested_ind;
    intros [bk [bb|] bsp] H; destruct ak, bk; cbn in H |- *;
    try discriminate; try reflexivity; now apply IH.
Qed.

End TypeFacts.

(** ** Scopes *)

Module ScopeFacts.
Import TypeChecker TypeSpec CheckerSpec CheckerFacts BorrowFacts.

Lemma declare_variable_cases x ty m tc b tc' :
  declare_variable x ty m tc = (b, tc') ->
  errors_ tc' = errors_ tc /\
  match scopes_ tc with
  | [] => b = true /\ scopes_ tc' = [{[x := MkVariableInfo ty m]}]
  | s :: rest =>
      match s !! x with
      | Some _ => b = false /\ scopes_ tc' = s :: rest
      | None => b = true /\ scopes_ tc' = <[x := MkVariableInfo ty m]> s :: rest
      end
  end.
Proof.
  unfold declare_variable. intros H. destruct (scopes_ tc) as [|s rest].
  - rewrite lookup_empty in H. inv H. simpl. rewrite insert_empty. auto.
  - destruct (s !! x); inv H; auto.
Qed.

Lemma frame_names_marked x sp tc :
  frame_names (mark_mutably_borrowed x sp tc) = frame_names tc.
Proof.
  unfold frame_names, mark_mutably_borrowed. cbn [scopes_].
  induction (scopes_ tc) as [|s rest IH]; [reflexivity|].
  cbn [map fmap list_fmap]. f_equal; [|exact IH].
  apply set_eq. intros y. rewrite !elem_of_dom.
  destruct (decide (x = y)) as [->|Hne].
  - rewrite lookup_alter_eq. destruct (s !! y); simpl; split; intros [? H]; eauto; discriminate.
  - rewrite lookup_alter_ne by assumption. reflexivity.
Qed.

Section WithProgram.
Variable program_ : Program.

(** Takes the outermost [match], [if] or [let] of [H] apart. *)
Ltac head H :=
  match type of H with
  | (if negb ?x then _ else _) = _ => destruct x eqn:?; cbn [negb] in H
  | match ?x with _ => _ end = _ =>
      match type of x with
      | option (_ * _ * _) => destruct x as [[[? ?] ?]|] eqn:?
      | _ => destruct x eqn:?
      end; try discriminate
  | (let (_, _) := ?x in _) = _ => destruct x eqn:?
  end.

Section Effect.

(** A relation between the result of a check and the states before and
    after it that success, the recording of an error and the marking of a
    borrowed variable respect. *)
Variable R : bool -> t -> t -> Prop.
Hypothesis R_refl : forall tc, R true tc tc.
Hypothesis R_then : forall b tc1 tc2 tc3, R true tc1 tc2 -> R b tc2 tc3 -> R b tc1 tc3.
Hypothesis R_error : forall tc message sp, R false tc (error message sp tc).
Hypothesis R_mark : forall tc x sp, R true tc (mark_mutably_borrowed x sp tc).

Ltac effect :=
  repeat match goal with
         | H : Some _ = Some _ |- _ => inv H
         end;
  first
    [ eassumption
    | apply R_refl
    | apply R_error
    | apply R_mark
    | eapply R_then; [eassumption|]; effect ].

Lemma check_expression_effect e :
  forall tc b e' tc', check_expression program_ e tc = Some (b, e', tc') -> R b tc tc'.
Proof.
  induction e as [sp ty v|sp ty v|sp ty v|sp ty x m|sp ty op l r IHl IHr
                 |sp ty op e IHe|sp ty m e IHe|sp ty callee args IHcallee IHargs]
    using Expr_nested_ind; intros tc b e' tc' Hc.
  - simpl in Hc. inv Hc. apply R_refl.
  - simpl in Hc. inv Hc. apply R_refl.
  - simpl in Hc. inv Hc. apply R_refl.
  - simpl in Hc. repeat head Hc; effect.
  - destruct op; simpl in Hc;
      repeat head Hc;
      repeat match goal with
             | H : check_expression _ _ _ = Some _ |- _ =>
                 first [apply IHl in H | apply IHr in H]
             end;
      effect.
  - simpl in Hc. repeat head Hc;
      repeat match goal with
             | H : check_expression _ _ _ = Some _ |- _ => apply IHe in H
             end;
      effect.
  - simpl in Hc. repeat head Hc;
      repeat match goal with
             | H : check_expression _ _ _ = Some _ |- _ => apply IHe in H
             end;
      effect.
  - rewrite check_expression_call in Hc.
    assert (Hargs : forall fname i params tc b args' tc',
               check_args program_ sp fname i args params tc = Some (b, args', tc') ->
               R b tc tc').
    { clear Hc IHcallee. induction IHargs as [|arg rest Harg _ IH];
        intros fname i params tc0 b0 args' tc0' Hc; simpl in Hc.
      - inv Hc. apply R_refl.
      - repeat head Hc;
          repeat match goal with
                 | H : check_expression _ _ _ = Some _ |- _ => apply Harg in H
                 | H : check_args program_ _ _ _ _ _ _ = Some _ |- _ => apply IH in H
                 end;
          effect. }
    repeat head Hc;
      repeat match goal with
             | H : check_expression _ _ _ = Some _ |- _ => apply IHcallee in H
             | H : check_args program_ _ _ _ _ _ _ = Some _ |- _ => apply Hargs in H
             end;
      effect.
Qed.

End Effect.

Lemma check_expression_one_error e tc b e' tc' :
  check_expression program_ e tc = Some (b, e', tc') ->
  if b then errors_ tc' = errors_ tc
  else exists message sp, errors_ tc' = errors_ tc ++ [format_error message sp].
Proof.
  apply (check_expression_effect
           (fun b tc tc' =>
              if b then errors_ tc' = errors_ tc
              else exists message sp, errors_ tc' = errors_ tc ++ [format_error message sp])).
  - reflexivity.
  - intros [] tc1 tc2 tc3 H1 H2.
    + congruence.
    + destruct H2 as (message & sp & H2). exists message, sp. congruence.
  - intros tc0 message sp. exists message, sp. reflexivity.
  - reflexivity.
Qed.

Lemma check_expression_frames e tc b e' tc' :
  check_expression program_ e tc = Some (b, e', tc') -> frame_names tc' = frame_names tc.
Proof.
  apply (check_expression_effect (fun _ tc tc' => frame_names tc' = frame_names tc)).
  - reflexivity.
  - intros _ tc1 tc2 tc3 H1 H2. congruence.
  - reflexivity.
  - intros tc0 x sp. apply frame_names_marked.
Qed.

(** What a [let] does to the frames: when it is accepted its name, which
    the innermost frame did not hold, is added there; when it is refused
    the names are as they were. *)
Lemma check_let_frames sp m x ty e tc b s' tc' :
  check_statement program_ (LetStmt sp m x ty e) tc = Some (b, s', tc') ->
  if b then
    match frame_names tc with
    | [] => frame_names tc' = [{[x]}]
    | s :: rest => (x ∉ s) /\ frame_names tc' = ({[x]} ∪ s) :: rest
    end
  else frame_names tc' = frame_names tc.
Proof.
  intros Hc. cbn [check_statement] in Hc.
  destruct (check_expression program_ e tc) as [[[ok e1] tc1]|] eqn:E1; [|discriminate].
  pose proof (check_expression_frames _ _ _ _ _ E1) as F1.
  destruct ok; cbn [negb] in Hc; [|injection Hc as <- _ <-; exact F1].
  destruct (expr_type e1) as [ity|]; [|discriminate]. cbn in Hc.
  destruct (is_assignable ty ity) as [[]|]; [| |discriminate]; cbn [negb] in Hc.
  - destruct (declare_variable x (copy_type ty (ty_span ty)) m tc1) as [declared tc2] eqn:E2.
    destruct (declare_variable_cases _ _ _ _ _ _ E2) as (_ & Hs).
    rewrite <- F1. unfold frame_names in *.
    destruct (scopes_ tc1) as [|s rest] eqn:Es.
    + destruct Hs as (-> & Hs). cbn [negb] in Hc. injection Hc as <- _ <-.
      rewrite Hs. cbn. rewrite dom_singleton_L. reflexivity.
    + destruct (s !! x) eqn:Ex; destruct Hs as (-> & Hs); cbn [negb] in Hc;
        injection Hc as <- _ <-; cbn [error scopes_]; rewrite Hs.
      * reflexivity.
      * cbn. split; [apply not_elem_of_dom; exact Ex|].
        rewrite dom_insert_L. reflexivity.
  - injection Hc as <- _ <-. exact F1.
Qed.

Lemma frames_grown tc tc' :
  frame_names tc' = frame_names tc -> scopes_ tc <> [] -> grown tc tc'.
Proof.
  unfold frame_names, grown. intros H Hne.
  destruct (scopes_ tc) as [|s rest]; [congruence|].
  destruct (scopes_ tc') as [|s' rest']; [discriminate|].
  cbn [fmap list_fmap] in H. injection H as Hd Hr.
  exists s, rest, s', rest'. repeat split; try assumption. rewrite Hd. reflexivity.
Qed.

Lemma grown_trans tc1 tc2 tc3 : grown tc1 tc2 -> grown tc2 tc3 -> grown tc1 tc3.
Proof.
  intros (s1 & r1 & s2 & r2 & H1 & H2 & Hs & Hr) (s2' & r2' & s3 & r3 & H2' & H3 & Hs' & Hr').
  rewrite H2 in H2'. inv H2'.
  exists s1, r1, s3, r3. repeat split; try assumption; [set_solver|congruence].
Qed.

Lemma grown_nonempty tc tc' : grown tc tc' -> scopes_ tc' <> [].
Proof. intros (s & r & s' & r' & _ & H & _). rewrite H. discriminate. Qed.

Lemma grown_error tc tc' message sp : grown tc tc' -> grown tc (error message sp tc').
Proof. intros H. exact H. Qed.

Lemma grown_exit tc tc2 :
  grown (enter_scope tc) tc2 ->
  exists tc3, exit_scope tc2 = Some tc3 /\ frame_names tc3 = frame_names tc.
Proof.
  intros (s & r & s' & r' & H1 & H2 & _ & Hr). cbn [enter_scope scopes_] in H1. inv H1.
  unfold exit_scope. rewrite H2. eexists. split; [reflexivity|]. exact Hr.
Qed.

Lemma declare_variable_grown x ty m tc b tc' :
  declare_variable x ty m tc = (b, tc') -> scopes_ tc <> [] -> grown tc tc'.
Proof.
  intros H Hne. destruct (declare_variable_cases _ _ _ _ _ _ H) as (_ & Hs).
  destruct (scopes_ tc) as [|s rest] eqn:E; [congruence|].
  unfold grown. rewrite E. destruct (s !! x) eqn:Ex; destruct Hs as (_ & Hs).
  - exists s, rest, s, rest. auto.
  - exists s, rest, (<[x:=MkVariableInfo ty m]> s), rest. repeat split; auto.
    rewrite dom_insert. set_solver.
Qed.

Lemma stmt_frames_grown s tc b s' tc' :
  stmt_frames program_ s -> check_statement program_ s tc = Some (b, s', tc') ->
  scopes_ tc <> [] -> grown tc tc'.
Proof.
  intros Hs Hc Hne. specialize (Hs _ _ _ _ Hc).
  destruct s; first [now apply Hs | now apply frames_grown].
Qed.

Lemma check_block_grown stmts :
  Forall (stmt_frames program_) stmts ->
  forall tc b stmts' tc',
    check_block program_ stmts tc = Some (b, stmts', tc') ->
    scopes_ tc <> [] -> grown tc tc'.
Proof.
  induction 1 as [|s stmts Hs _ IH]; intros tc b stmts' tc' Hc Hne; simpl in Hc.
  - inv Hc. now apply frames_grown.
  - destruct (check_statement program_ s tc) as [[[ok s1] tc1]|] eqn:E1; [|discriminate].
    pose proof (stmt_frames_grown _ _ _ _ _ Hs E1 Hne) as G1.
    destruct ok; cbn [negb] in Hc.
    + destruct (check_block program_ stmts tc1) as [[[ok' rest'] tc2]|] eqn:E2;
        [|discriminate].
      inv Hc. eapply grown_trans; [exact G1|].
      eapply IH; [eassumption|]. eapply grown_nonempty. eassumption.
    + inv Hc. assumption.
Qed.

Lemma check_statement_frames s : stmt_frames program_ s.
Proof.
  induction s as [sp m x ty e|sp e|sp cond th IHth|sp cond th el IHth IHel
                 |sp cond body IHbody|sp stmts IHstmts]
    using Stmt_nested_ind; intros tc b s' tc' Hc.
  - intros Hne. simpl in Hc.
    destruct (check_expression program_ e tc) as [[[ok e1] tc1]|] eqn:E1; [|discriminate].
    pose proof (frames_grown _ _ (check_expression_frames _ _ _ _ _ E1) Hne) as G1.
    destruct ok; cbn [negb] in Hc; [|inv Hc; assumption].
    destruct (expr_type e1); [|discriminate].
    destruct (is_assignable ty t0) as [[]|]; [| |discriminate]; cbn [negb] in Hc.
    + destruct (declare_variable x (copy_type ty (ty_span ty)) m tc1) as [declared tc2] eqn:E2.
      pose proof (declare_variable_grown _ _ _ _ _ _ E2 (grown_nonempty _ _ G1)) as G2.
      destruct declared; cbn [negb] in Hc; inv Hc.
      * eapply grown_trans; eassumption.
      * apply grown_error. eapply grown_trans; eassumption.
    + inv Hc. apply grown_error. assumption.
  - simpl in Hc.
    destruct (check_expression program_ e tc) as [[[ok e1] tc1]|] eqn:E1; [|discriminate].
    inv Hc. eapply check_expression_frames. eassumption.
  - simpl in Hc.
    destruct (check_expression program_ cond tc) as [[[ok e1] tc1]|] eqn:E1; [|discriminate].
    pose proof (check_expression_frames _ _ _ _ _ E1) as F1.
    destruct ok; cbn [negb] in Hc; [|inv Hc; assumption].
    destruct (match expr_type e1 with
              | Some cty => negb (Kind_eqb (kind cty) Bool)
              | None => true
              end); [inv Hc; assumption|].
    destruct (check_statement program_ th (enter_scope tc1)) as [[[ok2 th1] tc2]|] eqn:E2;
      [|discriminate].
    assert (G2 : grown (enter_scope tc1) tc2).
    { eapply stmt_frames_grown; [exact IHth|eassumption|discriminate]. }
    destruct (grown_exit _ _ G2) as (tc3 & Hx & F3). rewrite Hx in Hc. inv Hc. congruence.
  - simpl in Hc.
    destruct (check_expression program_ cond tc) as [[[ok e1] tc1]|] eqn:E1; [|discriminate].
    pose proof (check_expression_frames _ _ _ _ _ E1) as F1.
    destruct ok; cbn [negb] in Hc; [|inv Hc; assumption].
    destruct (match expr_type e1 with
              | Some cty => negb (Kind_eqb (kind cty) Bool)
              | None => true
              end); [inv Hc; assumption|].
    destruct (check_statement program_ th (enter_scope tc1)) as [[[ok2 th1] tc2]|] eqn:E2;
      [|discriminate].
    assert (G2 : grown (enter_scope tc1) tc2).
    { eapply stmt_frames_grown; [exact IHth|eassumption|discriminate]. }
    destruct (grown_exit _ _ G2) as (tc3 & Hx & F3). rewrite Hx in Hc.
    destruct (check_statement program_ el (enter_scope tc3)) as [[[ok4 el1] tc4]|] eqn:E4;
      [|discriminate].
    assert (G4 : grown (enter_scope tc3) tc4).
    { eapply stmt_frames_grown; [exact IHel|eassumption|discriminate]. }
    destruct (grown_exit _ _ G4) as (tc5 & Hx5 & F5). rewrite Hx5 in Hc. inv Hc. congruence.
  - simpl in Hc.
    destruct (check_expression program_ cond tc) as [[[ok e1] tc1]|] eqn:E1; [|discriminate].
    pose proof (check_expression_frames _ _ _ _ _ E1) as F1.
    destruct ok; cbn [negb] in Hc; [|inv Hc; assumption].
    destruct (match expr_type e1 with
              | Some cty => negb (Kind_eqb (kind cty) Bool)
              | None => true
              end); [inv Hc; assumption|].
    destruct (check_statement program_ body (enter_scope tc1)) as [[[ok2 th1] tc2]|] eqn:E2;
      [|discriminate].
    assert (G2 : grown (enter_scope tc1) tc2).
    { eapply stmt_frames_grown; [exact IHbody|eassumption|discriminate]. }
    destruct (grown_exit _ _ G2) as (tc3 & Hx & F3). rewrite Hx in Hc. inv Hc. congruence.
  - rewrite check_statement_block in Hc.
    destruct (check_block program_ stmts (enter_scope tc)) as [[[ok stmts1] tc1]|] eqn:E1;
      [|discriminate].
    assert (G1 : grown (enter_scope tc) tc1).
    { eapply check_block_grown; [exact IHstmts|eassumption|discriminate]. }
    destruct (grown_exit _ _ G1) as (tc2 & Hx & F2). rewrite Hx in Hc. inv Hc. assumption.
Qed.

Lemma declare_params_frame params :
  forall tc b tc', declare_params params tc = (b, tc') ->
  forall frame rest, scopes_ tc = frame :: rest ->
  exists frame', scopes_ tc' = frame' :: rest /\ dom frame ⊆ dom frame'.
Proof.
  induction params as [|p ps IH]; intros tc b tc' H frame rest Hs; simpl in H.
  - inv H. exists frame. split; [assumption|reflexivity].
  - destruct (declare_variable (param_name p)
                (copy_type (param_type p) (ty_span (param_type p))) (param_is_mut p) tc)
      as [declared tc1] eqn:E1.
    destruct (declare_variable_cases _ _ _ _ _ _ E1) as (_ & Hc). rewrite Hs in Hc.
    destruct (frame !! param_name p) eqn:Ep; destruct Hc as (-> & Hs1); cbn [negb] in H.
    + inv H. exists frame. split; [assumption|reflexivity].
    + destruct (IH _ _ _ H _ _ Hs1) as (frame' & Hf & Hd).
      exists frame'. split; [assumption|]. rewrite dom_insert in Hd. set_solver.
Qed.

Lemma check_return_frames return_type body success tc b body' tc' :
  check_return program_ return_type body success tc = Some (b, body', tc') ->
  frame_names tc' = frame_names tc.
Proof.
  unfold check_return. intros H.
  destruct body as [| | | |bsp statements]; try (inv H; reflexivity).
  destruct (last statements) as [[|esp expr| | |]|]; try (inv H; reflexivity).
  destruct (check_expression program_ expr tc) as [[[ok e1] tc1]|] eqn:E1; [|discriminate].
  pose proof (check_expression_frames _ _ _ _ _ E1) as F1.
  destruct ok; cbn [negb] in H; [|inv H; assumption].
  destruct (expr_type e1); [|discriminate].
  destruct (is_assignable return_type t0) as [[]|]; [| |discriminate]; cbn [negb] in H;
    inv H; assumption.
Qed.

Lemma declare_params_refused params :
  forall tc tc', declare_params params tc = (false, tc') ->
  exists p, p ∈ params /\
    errors_ tc' = errors_ tc ++
      [format_error ("Duplicate parameter name: " +:+ param_name p) (param_span p)].
Proof.
  induction params as [|p ps IH]; intros tc tc' H; simpl in H; [discriminate|].
  destruct (declare_variable (param_name p)
              (copy_type (param_type p) (ty_span (param_type p))) (param_is_mut p) tc)
    as [declared tc1] eqn:E1.
  pose proof (declare_variable_errors _ _ _ _ _ _ E1) as He.
  destruct declared; cbn [negb] in H.
  - destruct (IH _ _ H) as (q & Hq & Hqe). exists q. split; [now apply list_elem_of_further|].
    congruence.
  - inv H. exists p. split; [apply list_elem_of_here|]. cbn [error errors_]. congruence.
Qed.

Lemma check_function_frames func tc b func' tc' :
  check_function program_ func tc = Some (b, func', tc') ->
  frame_names tc' = frame_names tc \/
  (b = false /\ func' = func /\
   exists frame p,
     scopes_ tc' = frame :: scopes_ tc /\ p ∈ fn_params func /\
     errors_ tc' = errors_ tc ++
       [format_error ("Duplicate parameter name: " +:+ param_name p) (param_span p)]).
Proof.
  unfold check_function. intros H.
  destruct (declare_params (fn_params func) (enter_scope tc)) as [declared tc1] eqn:E1.
  destruct (declare_params_frame _ _ _ _ E1 ∅ (scopes_ tc) eq_refl) as (frame & Hf & _).
  destruct declared; cbn [negb] in H.
  - left.
    destruct (check_statement program_ (fn_body func) tc1) as [[[ok body1] tc2]|] eqn:E2;
      [|discriminate].
    assert (G2 : grown tc1 tc2).
    { eapply stmt_frames_grown; [apply check_statement_frames|eassumption|].
      rewrite Hf. discriminate. }
    destruct (check_return program_ (fn_return_type func) body1 ok tc2)
      as [[[ok3 body3] tc3]|] eqn:E3; [|discriminate].
    pose proof (check_return_frames _ _ _ _ _ _ _ E3) as F3.
    destruct G2 as (s1 & r1 & s2 & r2 & H1 & H2 & _ & Hr).
    rewrite Hf in H1. inv H1.
    unfold frame_names in F3. rewrite H2 in F3.
    destruct (scopes_ tc3) as [|s3 r3] eqn:E; [discriminate|].
    cbn [fmap list_fmap] in F3. injection F3 as _ F3.
    unfold exit_scope in H. rewrite E in H. inv H. unfold frame_names. cbn [scopes_].
    congruence.
  - right. inv H. split; [reflexivity|]. split; [reflexivity|].
    destruct (declare_params_refused _ _ _ E1) as (p & Hp & He).
    exists frame, p. auto.
Qed.

Lemma lookup_declared x ty m (scopes : list (gmap string VariableInfo)) frame rest :
  scopes = <[x := MkVariableInfo ty m]> frame :: rest ->
  lookup_scopes x scopes = Some (MkVariableInfo (copy_type ty (ty_span ty)) m) /\
  forall y, y <> x -> lookup_scopes y scopes = lookup_scopes y (frame :: rest).
Proof.
  intros ->. cbn [lookup_scopes]. rewrite lookup_insert_eq. split; [reflexivity|].
  intros y Hy. rewrite lookup_insert_ne by congruence. reflexivity.
Qed.

End WithProgram.
End ScopeFacts.

(** ** Annotations *)

Module AnnotationFacts.
Import TypeChecker CheckerSpec CheckerFacts Compiler CompilerSpec CompilerFacts.
Import AnnotationSpec RepertoireFacts.

Section WithProgram.
Variable program_ : Program.

Ltac head H :=
  match type of H with
  | (if negb ?x then _ else _) = _ => destruct x eqn:?; cbn [negb] in H
  | match ?x with _ => _ end = _ =>
      match type of x with
      | option (_ * _ * _) => destruct x as [[[? ?] ?]|] eqn:?
      | _ => destruct x eqn:?
      end; try discriminate
  | (let (_, _) := ?x in _) = _ => destruct x eqn:?
  end.

Ltac same :=
  repeat match goal with
         | H : Some _ = Some _ |- _ => inv H
         end;
  cbn [erase map] in *; try reflexivity; congruence.

Lemma check_expression_erase e :
  forall tc b e' tc', check_expression program_ e tc = Some (b, e', tc') ->
                      erase e' = erase e.
Proof.
  induction e as [sp ty v|sp ty v|sp ty v|sp ty x m|sp ty op l r IHl IHr
                 |sp ty op e IHe|sp ty m e IHe|sp ty callee args IHcallee IHargs]
    using Expr_nested_ind; intros tc b e' tc' Hc.
  - simpl in Hc. inv Hc. reflexivity.
  - simpl in Hc. inv Hc. reflexivity.
  - simpl in Hc. inv Hc. reflexivity.
  - simpl in Hc. repeat head Hc; same.
  - destruct op; simpl in Hc;
      repeat head Hc;
      repeat match goal with
             | H : check_expression _ _ _ = Some _ |- _ =>
                 first [apply IHl in H | apply IHr in H]
             end;
      same.
  - simpl in Hc. repeat head Hc;
      repeat match goal with
             | H : check_expression _ _ _ = Some _ |- _ => apply IHe in H
             end;
      same.
  - simpl in Hc. repeat head Hc;
      repeat match goal with
             | H : check_expression _ _ _ = Some _ |- _ => apply IHe in H
             end;
      same.
  - rewrite check_expression_call in Hc.
    assert (Hargs : forall fname i params tc b args' tc',
               check_args program_ sp fname i args params tc = Some (b, args', tc') ->
               map erase args' = map erase args).
    { clear Hc IHcallee. induction IHargs as [|arg rest Harg _ IH];
        intros fname i params tc0 b0 args' tc0' Hc; simpl in Hc.
      - inv Hc. reflexivity.
      - repeat head Hc;
          repeat match goal with
                 | H : check_expression _ _ _ = Some _ |- _ => apply Harg in H
                 | H : check_args program_ _ _ _ _ _ _ = Some _ |- _ => apply IH in H
                 end;
          same. }
    repeat head Hc;
      repeat match goal with
             | H : check_expression _ _ _ = Some _ |- _ => apply IHcallee in H
             | H : check_args program_ _ _ _ _ _ _ = Some _ |- _ => apply Hargs in H
             end;
      same.
Qed.

Lemma check_block_erase stmts :
  Forall (fun s => forall tc b s' tc',
            check_statement program_ s tc = Some (b, s', tc') ->
            erase_stmt s' = erase_stmt s) stmts ->
  forall tc b stmts' tc',
    check_block program_ stmts tc = Some (b, stmts', tc') ->
    map erase_stmt stmts' = map erase_stmt stmts.
Proof.
  induction 1 as [|s stmts Hs _ IH]; intros tc b stmts' tc' Hc; simpl in Hc.
  - inv Hc. reflexivity.
  - destruct (check_statement program_ s tc) as [[[ok s1] tc1]|] eqn:E1; [|discriminate].
    apply Hs in E1. destruct ok; cbn [negb] in Hc.
    + destruct (check_block program_ stmts tc1) as [[[ok' rest'] tc2]|] eqn:E2;
        [|discriminate].
      apply IH in E2. inv Hc. cbn [map]. congruence.
    + inv Hc. cbn [map]. congruence.
Qed.

Ltac same_stmt :=
  repeat match goal with
         | H : Some _ = Some _ |- _ => inv H
         end;
  cbn [erase_stmt map] in *; try reflexivity; congruence.

Lemma check_statement_erase s :
  forall tc b s' tc', check_statement program_ s tc = Some (b, s', tc') ->
                      erase_stmt s' = erase_stmt s.
Proof.
  induction s as [sp m x ty e|sp e|sp cond th IHth|sp cond th el IHth IHel
                 |sp cond body IHbody|sp stmts IHstmts]
    using Stmt_nested_ind; intros tc b s' tc' Hc.
  - simpl in Hc. repeat head Hc;
      repeat match goal with
             | H : check_expression _ _ _ = Some _ |- _ => apply check_expression_erase in H
             end;
      same_stmt.
  - simpl in Hc. repeat head Hc;
      repeat match goal with
             | H : check_expression _ _ _ = Some _ |- _ => apply check_expression_erase in H
             end;
      same_stmt.
  - simpl in Hc. repeat head Hc;
      repeat match goal with
             | H : check_expression _ _ _ = Some _ |- _ => apply check_expression_erase in H
             | H : check_statement _ _ _ = Some _ |- _ => apply IHth in H
             end;
      same_stmt.
  - simpl in Hc. repeat head Hc;
      repeat match goal with
             | H : check_expression _ _ _ = Some _ |- _ => apply check_expression_erase in H
             | H : check_statement _ th _ = Some _ |- _ => apply IHth in H
             | H : check_statement _ el _ = Some _ |- _ => apply IHel in H
             end;
      same_stmt.
  - simpl in Hc. repeat head Hc;
      repeat match goal with
             | H : check_expression _ _ _ = Some _ |- _ => apply check_expression_erase in H
             | H : check_statement _ _ _ = Some _ |- _ => apply IHbody in H
             end;
      same_stmt.
  - rewrite check_statement_block in Hc.
    destruct (check_block program_ stmts (enter_scope tc)) as [[[ok stmts1] tc1]|] eqn:E1;
      [|discriminate].
    apply (check_block_erase _ IHstmts) in E1.
    destruct (exit_scope tc1); [|discriminate]. inv Hc. cbn [erase_stmt]. congruence.
Qed.

Lemma last_removelast {A} (l : list A) x : last l = Some x -> removelast l ++ [x] = l.
Proof.
  induction l as [|y l IH]; [discriminate|].
  destruct l as [|z l]; intros H.
  - simpl in H. inv H. reflexivity.
  - change (last (y :: z :: l)) with (last (z :: l)) in H.
    change (removelast (y :: z :: l)) with (y :: removelast (z :: l)).
    cbn [app]. rewrite IH by assumption. reflexivity.
Qed.

Lemma check_return_erase return_type body success tc b body' tc' :
  check_return program_ return_type body success tc = Some (b, body', tc') ->
  erase_stmt body' = erase_stmt body.
Proof.
  unfold check_return. intros H.
  destruct body as [| | | |bsp statements]; try (inv H; reflexivity).
  destruct (last statements) as [[|esp expr| | |]|] eqn:El; try (inv H; reflexivity).
  destruct (check_expression program_ expr tc) as [[[ok e1] tc1]|] eqn:E1; [|discriminate].
  apply check_expression_erase in E1.
  assert (Hbody : erase_stmt (BlockStmt bsp (removelast statements ++ [ExprStmt esp e1]))
                  = erase_stmt (BlockStmt bsp statements)).
  { rewrite <- (last_removelast _ _ El) at 2. cbn [erase_stmt].
    rewrite !map_app. cbn [map erase_stmt]. congruence. }
  destruct ok; cbn [negb] in H; [|injection H as _ <- _; exact Hbody].
  destruct (expr_type e1); [|discriminate].
  destruct (is_assignable return_type t0) as [[]|]; [| |discriminate]; cbn [negb] in H;
    injection H as _ <- _; exact Hbody.
Qed.

Lemma check_function_erase func tc b func' tc' :
  check_function program_ func tc = Some (b, func', tc') ->
  erase_function func' = erase_function func.
Proof.
  unfold check_function. intros H.
  destruct (declare_params (fn_params func) (enter_scope tc)) as [declared tc1].
  destruct declared; cbn [negb] in H; [|inv H; reflexivity].
  destruct (check_statement program_ (fn_body func) tc1) as [[[ok body1] tc2]|] eqn:E2;
    [|discriminate].
  destruct (check_return program_ (fn_return_type func) body1 ok tc2)
    as [[[ok3 body3] tc3]|] eqn:E3; [|discriminate].
  destruct (exit_scope tc3); [|discriminate]. inv H.
  apply check_statement_erase in E2. apply check_return_erase in E3.
  unfold erase_function. cbn. congruence.
Qed.

Lemma check_functions_erase funcs :
  forall tc b funcs' tc',
    check_functions program_ funcs tc = Some (b, funcs', tc') ->
    map erase_function funcs' = map erase_function funcs.
Proof.
  induction funcs as [|func funcs IH]; intros tc b funcs' tc' H; simpl in H.
  - inv H. reflexivity.
  - destruct (check_function program_ func tc) as [[[ok func1] tc1]|] eqn:E1; [|discriminate].
    apply check_function_erase in E1. destruct ok; cbn [negb] in H.
    + destruct (check_functions program_ funcs tc1) as [[[ok' rest'] tc2]|] eqn:E2;
        [|discriminate].
      apply IH in E2. injection H as _ <- _. cbn [map]. rewrite E1, E2. reflexivity.
    + injection H as _ <- _. cbn [map]. rewrite E1. reflexivity.
Qed.

Lemma check_expression_typed e tc e' tc' :
  check_expression program_ e tc = Some (true, e', tc') ->
  (forall sp ty x m, e = Identifier sp ty x m -> is_function_name program_ x = false) ->
  exists ty, expr_type e' = Some ty.
Proof.
  intros Hc Hident.
  destruct e as [sp ty v|sp ty v|sp ty v|sp ty x m|sp ty op l r
                |sp ty op e|sp ty m e|sp ty callee args].
  - simpl in Hc. inv Hc. eexists. reflexivity.
  - simpl in Hc. inv Hc. eexists. reflexivity.
  - simpl in Hc. inv Hc. eexists. reflexivity.
  - simpl in Hc. rewrite (Hident sp ty x m eq_refl) in Hc.
    repeat head Hc; inv Hc. eexists. reflexivity.
  - destruct op; simpl in Hc; repeat head Hc; inv Hc; eexists; reflexivity.
  - simpl in Hc. repeat head Hc; inv Hc; eexists; reflexivity.
  - simpl in Hc. repeat head Hc; inv Hc; eexists; reflexivity.
  - rewrite check_expression_call in Hc. repeat head Hc; inv Hc; eexists; reflexivity.
Qed.

End WithProgram.

Section WithWordSize.
Variable w : nat.

Lemma compile_in_order_error exprs :
  Forall (fun e => forall c what, compile_expression w e c = inl what -> lowering_error what)
         exprs ->
  forall c what, compile_in_order w exprs c = inl what -> lowering_error what.
Proof.
  induction 1 as [|e exprs He _ IH]; intros c what H; simpl in H; [discriminate|].
  destruct (compile_expression w e c) as [message|c1] eqn:E1.
  - inv H. eapply He. eassumption.
  - eapply IH. eassumption.
Qed.

Lemma compile_expression_error e :
  forall c what, compile_expression w e c = inl what -> lowering_error what.
Proof.
  induction e as [sp ty v|sp ty v|sp ty v|sp ty x m|sp ty op l r IHl IHr
                 |sp ty op e IHe|sp ty m e IHe|sp ty callee args IHcallee IHargs]
    using Expr_nested_ind; intros c what H; try discriminate.
  - simpl in H. unfold get_local_index in H.
    destruct (local_vars c !! x); inv H. constructor.
  - assert (Hdec : op = BinOp.Assignment \/ op <> BinOp.Assignment)
      by (destruct op; first [left; reflexivity|right; discriminate]).
    destruct Hdec as [->|Hop].
    + rewrite compile_expression_assignment in H.
      destruct (compile_expression w r c) as [message|c1] eqn:E1.
      * inv H. eapply IHr. eassumption.
      * destruct l as [| | |isp ity target im| | | |]; try (inv H; constructor).
        unfold get_local_index in H. destruct (local_vars c1 !! target); inv H. constructor.
    + rewrite compile_expression_binary in H by assumption.
      destruct (compile_expression w l c) as [message|c1] eqn:E1.
      * inv H. eapply IHl. eassumption.
      * destruct (compile_expression w r c1) as [message|c2] eqn:E2.
        -- inv H. eapply IHr. eassumption.
        -- destruct op; try discriminate. contradiction.
  - simpl in H. destruct (compile_expression w e c) as [message|c1] eqn:E1.
    + inv H. eapply IHe. eassumption.
    + destruct op; discriminate.
  - simpl in H. destruct (compile_expression w e c) as [message|c1] eqn:E1.
    + inv H. eapply IHe. eassumption.
    + destruct m; discriminate.
  - rewrite compile_expression_call, compile_args_reversed_rev in H.
    destruct (compile_in_order w (rev args) c) as [message|c1] eqn:E1.
    + inv H. eapply compile_in_order_error; [|eassumption]. apply Forall_rev. assumption.
    + destruct callee as [| | |isp ity fname im| | | |]; try (inv H; constructor).
      unfold FunctionTable.get_function_index in H.
      destruct (FunctionTable.name_to_index (function_table c1) !! fname); inv H.
      constructor.
Qed.

Lemma compile_block_error stmts :
  Forall (fun s => forall c what, compile_statement w s c = inl what -> lowering_error what)
         stmts ->
  forall c what, compile_block w stmts c = inl what -> lowering_error what.
Proof.
  induction 1 as [|s stmts Hs _ IH]; intros c what H; simpl in H; [discriminate|].
  destruct (compile_statement w s c) as [message|c1] eqn:E1.
  - inv H. eapply Hs. eassumption.
  - eapply IH. eassumption.
Qed.

Lemma compile_statement_error s :
  forall c what, compile_statement w s c = inl what -> lowering_error what.
Proof.
  induction s as [sp m x ty e|sp e|sp cond th IHth|sp cond th el IHth IHel
                 |sp cond body IHbody|sp stmts IHstmts]
    using Stmt_nested_ind; intros c what H.
  - cbn [compile_statement] in H. unfold compile_let in H.
    destruct (compile_expression w e c) as [message|c1] eqn:E1.
    + inv H. eapply compile_expression_error. eassumption.
    + unfold get_local_index in H.
      destruct (local_vars c1 !! x) eqn:Ex.
      * rewrite Ex in H. discriminate.
      * cbn [new_local local_vars] in H. rewrite lookup_insert_eq in H. discriminate.
  - cbn [compile_statement] in H.
    destruct (compile_expression w e c) as [message|c1] eqn:E1; [|discriminate].
    inv H. eapply compile_expression_error. eassumption.
  - cbn [compile_statement emit_instruction] in H.
    destruct (compile_expression w cond c) as [message|c1] eqn:E1.
    + inv H. eapply compile_expression_error. eassumption.
    + destruct (compile_statement w th _) as [message|c3] eqn:E3; [|discriminate].
      inv H. eapply IHth. eassumption.
  - cbn [compile_statement emit_instruction] in H.
    destruct (compile_expression w cond c) as [message|c1] eqn:E1.
    + inv H. eapply compile_expression_error. eassumption.
    + destruct (compile_statement w th _) as [message|c3] eqn:E3.
      * inv H. eapply IHth. eassumption.
      * destruct (compile_statement w el _) as [message|c6] eqn:E6; [|discriminate].
        inv H. eapply IHel. eassumption.
  - cbn [compile_statement emit_instruction] in H.
    destruct (compile_expression w cond c) as [message|c1] eqn:E1.
    + inv H. eapply compile_expression_error. eassumption.
    + destruct (compile_statement w body _) as [message|c3] eqn:E3; [|discriminate].
      inv H. eapply IHbody. eassumption.
  - rewrite compile_statement_block in H. eapply compile_block_error; eassumption.
Qed.

Lemma update_function_error fname f c what :
  RepertoireSpec.table_bounded (function_table c) ->
  update_function fname f c = inl what -> lowering_error what.
Proof.
  unfold update_function, FunctionTable.get_function_index, FunctionTable.get_function.
  intros TB H.
  destruct (FunctionTable.name_to_index (function_table c) !! fname) as [k|] eqn:Ek.
  - apply TB in Ek. unfold FunctionTable.size in Ek.
    apply lookup_lt_is_Some_2 in Ek. destruct Ek as (info & Ei). rewrite Ei in H.
    discriminate.
  - inv H. constructor.
Qed.

Lemma compile_function_error func c what :
  RepertoireSpec.table_bounded (function_table c) ->
  compile_function w func c = inl what -> lowering_error what.
Proof.
  intros TB H. rewrite compile_function_unfold in H.
  destruct (compile_statement w (fn_body func) (entry_state func c)) as [message|c2] eqn:E2.
  - inv H. eapply compile_statement_error. eassumption.
  - destruct (compile_statement_grows w _ _ _ E2) as (body & (_ & T2) & _).
    destruct (entry_state_same func c) as (_ & Te). rewrite Te in T2.
    eapply update_function_error; [|eassumption].
    destruct (last_is_ret_val c2); cbn [emit function_table]; rewrite T2; assumption.
Qed.

Lemma second_pass_error funcs :
  forall c what,
    second_pass w funcs c = inl what ->
    vector_ok (instructions c) ->
    RepertoireSpec.table_bounded (function_table c) ->
    lowering_error what.
Proof.
  induction funcs as [|func funcs IH]; intros c what H Hok TB; [discriminate|].
  cbn [second_pass] in H.
  destruct (compile_function w func c) as [message|c1] eqn:E1.
  - inv H. eapply compile_function_error; eassumption.
  - destruct (compile_function_lowered w func c c1 (vector_ok_no_ret_val _ Hok) TB E1)
      as (body & k & info & I1 & Ek & Ei & Hf1 & Hn1 & Hp & F1).
    destruct (compile_function_region w func c c1 (vector_ok_no_ret_val _ Hok) E1)
      as (body' & I1' & Hbody & _).
    assert (body' = body).
    { rewrite I1 in I1'. apply app_inv_head in I1'. apply app_inv_tail in I1'.
      symmetry. assumption. }
    subst body'.
    assert (TB1 : RepertoireSpec.table_bounded (function_table c1)).
    { apply (table_bounded_same (function_table c)); [assumption| |assumption].
      unfold FunctionTable.size. rewrite Hf1, length_alter. reflexivity. }
    destruct (update_function (fn_name func) (set_entry_point (length (instructions c))) c1)
      as [message|c2] eqn:E2.
    + inv H. eapply update_function_error; eassumption.
    + destruct (update_function_entries _ _ _ _ E2)
        as (k2 & info2 & Ek2 & Ei2 & Hf2 & Hn2 & Hi2 & _ & _ & _).
      apply (IH c2 what H).
      * rewrite Hi2, I1. now apply vector_ok_region.
      * apply (table_bounded_same (function_table c1)); [assumption| |assumption].
        unfold FunctionTable.size. rewrite Hf2, length_alter. reflexivity.
Qed.

Lemma compile_in_order_erase exprs :
  Forall (fun e => forall c, compile_expression w (erase e) c = compile_expression w e c)
         exprs ->
  forall c, compile_in_order w (map erase exprs) c = compile_in_order w exprs c.
Proof.
  induction 1 as [|e exprs He _ IH]; intros c; [reflexivity|].
  cbn [map compile_in_order]. rewrite He. destruct (compile_expression w e c); auto.
Qed.

Lemma compile_expression_erase e :
  forall c, compile_expression w (erase e) c = compile_expression w e c.
Proof.
  induction e as [sp ty v|sp ty v|sp ty v|sp ty x m|sp ty op l r IHl IHr
                 |sp ty op e IHe|sp ty m e IHe|sp ty callee args IHcallee IHargs]
    using Expr_nested_ind; intros c; try reflexivity.
  - assert (Hdec : op = BinOp.Assignment \/ op <> BinOp.Assignment)
      by (destruct op; first [left; reflexivity|right; discriminate]).
    destruct Hdec as [->|Hop].
    + cbn [erase]. rewrite !compile_expression_assignment, IHr.
      destruct (compile_expression w r c); [reflexivity|]. destruct l; reflexivity.
    + cbn [erase]. rewrite !compile_expression_binary by assumption.
      rewrite IHl. destruct (compile_expression w l c); [reflexivity|]. rewrite IHr.
      reflexivity.
  - cbn [erase compile_expression]. rewrite IHe. reflexivity.
  - cbn [erase compile_expression]. rewrite IHe. reflexivity.
  - cbn [erase]. rewrite !compile_expression_call, !compile_args_reversed_rev.
    rewrite <- map_rev, compile_in_order_erase by (apply Forall_rev; assumption).
    destruct (compile_in_order w (rev args) c); [reflexivity|].
    destruct callee; reflexivity.
Qed.

Lemma compile_block_erase stmts :
  Forall (fun s => forall c, compile_statement w (erase_stmt s) c = compile_statement w s c)
         stmts ->
  forall c, compile_block w (map erase_stmt stmts) c = compile_block w stmts c.
Proof.
  induction 1 as [|s stmts Hs _ IH]; intros c; [reflexivity|].
  cbn [map compile_block]. rewrite Hs. destruct (compile_statement w s c); auto.
Qed.

Lemma compile_statement_erase s :
  forall c, compile_statement w (erase_stmt s) c = compile_statement w s c.
Proof.
  induction s as [sp m x ty e|sp e|sp cond th IHth|sp cond th el IHth IHel
                 |sp cond body IHbody|sp stmts IHstmts]
    using Stmt_nested_ind; intros c.
  - cbn [erase_stmt compile_statement]. unfold compile_let.
    rewrite compile_expression_erase. reflexivity.
  - cbn [erase_stmt compile_statement]. rewrite compile_expression_erase. reflexivity.
  - cbn [erase_stmt compile_statement]. rewrite compile_expression_erase.
    destruct (compile_expression w cond c); [reflexivity|].
    cbn [emit_instruction]. rewrite IHth. reflexivity.
  - cbn [erase_stmt compile_statement]. rewrite compile_expression_erase.
    destruct (compile_expression w cond c); [reflexivity|].
    cbn [emit_instruction]. rewrite IHth.
    destruct (compile_statement w th _); [reflexivity|]. rewrite IHel. reflexivity.
  - cbn [erase_stmt compile_statement]. rewrite compile_expression_erase.
    destruct (compile_expression w cond c); [reflexivity|].
    cbn [emit_instruction]. rewrite IHbody. reflexivity.
  - cbn [erase_stmt]. rewrite !compile_statement_block. now apply compile_block_erase.
Qed.

Lemma compile_function_erase func c :
  compile_function w (erase_function func) c = compile_function w func c.
Proof.
  unfold compile_function, erase_function. cbn [fn_params fn_body fn_name].
  rewrite compile_statement_erase. reflexivity.
Qed.

Lemma second_pass_erase funcs :
  forall c, second_pass w (map erase_function funcs) c = second_pass w funcs c.
Proof.
  induction funcs as [|func funcs IH]; intros c; [reflexivity|].
  cbn [map second_pass]. rewrite compile_function_erase.
  destruct (compile_function w func c); [reflexivity|].
  cbn [erase_function fn_name].
  destruct (update_function (fn_name func) _ _); [reflexivity|]. apply IH.
Qed.

Lemma first_pass_erase funcs : first_pass (map erase_function funcs) = first_pass funcs.
Proof.
  induction funcs as [|func funcs IH] using rev_ind; [reflexivity|].
  rewrite map_app. cbn [map]. rewrite !first_pass_snoc, IH. reflexivity.
Qed.

Lemma compile_erase program : compile w (erase_program program) = compile w program.
Proof.
  unfold compile, erase_program. cbn [items].
  rewrite first_pass_erase. apply second_pass_erase.
Qed.

End WithWordSize.
End AnnotationFacts.

(** ** The lexer *)

Module LexerFacts.
Import Parser ParserSpec ParserFacts ListingFacts Driver LexerSpec.

Lemma find_last_of_dotless s : dotless s = true -> find_last_of "." s = None.
Proof.
  induction s as [|c s IH]; [reflexivity|]. simpl. intros H.
  apply andb_prop in H. destruct H as (Hc & Hs). rewrite (IH Hs).
  destruct (c =? ".")%char; [discriminate|reflexivity].
Qed.

Lemma find_last_of_app a b :
  dotless b = true ->
  find_last_of "." (a +:+ String "." b) = Some (String.length a).
Proof.
  intros Hb. induction a as [|c a IH].
  - rewrite append_nil. cbn [find_last_of]. rewrite (find_last_of_dotless _ Hb). reflexivity.
  - rewrite append_cons. cbn [find_last_of]. rewrite IH. reflexivity.
Qed.

Lemma substring_app a b : String.substring 0 (String.length a) (a +:+ b) = a.
Proof.
  induction a as [|c a IH].
  - rewrite append_nil. destruct b; reflexivity.
  - rewrite append_cons. simpl. rewrite IH. reflexivity.
Qed.

Lemma skip_whitespace_from_bound s :
  forall in_comment, (skip_whitespace_from s in_comment <= String.length s)%nat.
Proof.
  induction s as [|c s IH]; intros in_comment; [simpl; lia|].
  cbn [skip_whitespace_from String.length]. destruct in_comment.
  - destruct ((c =? "010")%char || (c =? "013")%char);
      [specialize (IH false)|specialize (IH true)]; lia.
  - destruct (isspace c || (c =? "010")%char || (c =? "013")%char).
    + specialize (IH false). lia.
    + destruct (ascii_dec c "/") as [->|Hc].
      * destruct s as [|c' s']; [lia|].
        destruct (ascii_dec c' "/") as [->|Hc'].
        -- specialize (IH true). cbn [skip_whitespace_from String.length] in IH.
           simpl in IH. simpl. lia.
        -- replace (match c' with "/"%char => _ | _ => 0%nat end) with 0%nat; [lia|].
           destruct c' as [[] [] [] [] [] [] [] []]; try reflexivity. congruence.
      * replace (match c with "/"%char => _ | _ => 0%nat end) with 0%nat; [lia|].
        destruct c as [[] [] [] [] [] [] [] []]; try reflexivity. congruence.
Qed.

Lemma string_drop_length n s :
  String.length (string_drop n s) = (String.length s - n)%nat.
Proof.
  revert s. induction n as [|n IH]; intros s; [simpl; lia|].
  destruct s as [|c s]; [reflexivity|]. simpl. apply IH.
Qed.

(** Nothing is skipped where neither white space nor a comment starts. *)
Lemma skip_nothing c r :
  skip_whitespace_from (String c r) false = 0%nat ->
  isspace c = false /\ String.prefix "//" (String c r) = false.
Proof.
  cbn [skip_whitespace_from]. intros H.
  destruct (isspace c) eqn:Hsp; [discriminate|]. split; [reflexivity|].
  cbn [orb] in H.
  destruct ((c =? "010")%char || (c =? "013")%char); [discriminate|].
  cbn [String.prefix].
  destruct (ascii_dec "/" c) as [Heq|Hne]; [|reflexivity].
  subst c. destruct r as [|c' r']; [reflexivity|].
  destruct (ascii_dec "/" c') as [Heq|Hne]; [subst c'; simpl in H; discriminate|].
  cbn [String.prefix]. destruct (ascii_dec "/" c'); [contradiction|reflexivity].
Qed.

Section WithSource.
Variable source : string.

Lemma skip_whitespace_ge pos : (pos <= skip_whitespace source pos)%nat.
Proof. unfold skip_whitespace. lia. Qed.

Lemma skip_whitespace_le pos :
  (pos <= String.length source)%nat ->
  (skip_whitespace source pos <= String.length source)%nat.
Proof.
  intros H. unfold skip_whitespace, rest.
  pose proof (skip_whitespace_from_bound (string_drop pos source) false) as Hb.
  rewrite string_drop_length in Hb. lia.
Qed.

Lemma skip_whitespace_lands pos :
  at_end source (skip_whitespace source pos) = true \/
  (isspace (char_at source (skip_whitespace source pos)) = false /\
   peek source "//" (skip_whitespace source pos) = false).
Proof.
  pose proof (skip_whitespace_idem source pos) as Hidem.
  unfold skip_whitespace at 1 in Hidem.
  assert (H0 : skip_whitespace_from (rest source (skip_whitespace source pos)) false = 0%nat)
    by lia.
  unfold at_end, char_at, peek.
  destruct (rest source (skip_whitespace source pos)) as [|c r] eqn:Er.
  - left. apply Nat.leb_le.
    assert (Hl : String.length (rest source (skip_whitespace source pos)) = 0%nat)
      by (rewrite Er; reflexivity).
    unfold rest in Hl. rewrite string_drop_length in Hl. lia.
  - right. now apply skip_nothing.
Qed.

End WithSource.
Lemma decimal_value_acc d :
  forall acc, decimal_value (NilEmpty.string_of_uint d) (Z.pos acc)
              = Z.pos (Pos.of_uint_acc d acc).
Proof.
  induction d; intros acc; cbn [NilEmpty.string_of_uint decimal_value Pos.of_uint_acc];
    try reflexivity; rewrite <- IHd; f_equal;
    match goal with
    | |- context [Z.of_nat (nat_of_ascii ?c)] =>
        let v := eval vm_compute in (Z.of_nat (nat_of_ascii c)) in
        change (Z.of_nat (nat_of_ascii c)) with v
    end; lia.
Qed.

Lemma decimal_value_of_uint d :
  decimal_value (NilEmpty.string_of_uint d) 0 = Z.of_N (N.of_uint d).
Proof.
  unfold N.of_uint.
  induction d; cbn [NilEmpty.string_of_uint decimal_value Pos.of_uint];
    try reflexivity; try exact IHd;
    cbn [Z.of_N]; rewrite <- decimal_value_acc; f_equal.
Qed.

Lemma digits_length_of_uint d suffix :
  no_digit_ahead suffix = true ->
  digits_length (NilEmpty.string_of_uint d +:+ suffix)
  = String.length (NilEmpty.string_of_uint d).
Proof.
  intros Hs.
  induction d; cbn [NilEmpty.string_of_uint]; rewrite ?append_cons, ?append_nil;
    cbn [digits_length String.length];
    try (change (isdigit _) with true; cbn iota; rewrite IHd; reflexivity).
  destruct suffix as [|c r]; [reflexivity|]. cbn [digits_length].
  simpl in Hs. destruct (isdigit c); [discriminate|reflexivity].
Qed.

End LexerFacts.

(** ** Positions *)

Module PositionFacts.
Import Parser ParserSpec ParserFacts LexerFacts PositionSpec.

Lemma prefix_length a : forall b, String.prefix a b = true ->
                                  (String.length a <= String.length b)%nat.
Proof.
  induction a as [|c a IH]; intros b H; [simpl; lia|].
  destruct b as [|d b]; [discriminate|]. cbn [String.prefix] in H.
  destruct (ascii_dec c d); [|discriminate]. specialize (IH _ H). simpl. lia.
Qed.

Lemma identifier_length_bound s : (identifier_length s <= String.length s)%nat.
Proof.
  induction s as [|c s IH]; [simpl; lia|]. cbn [identifier_length String.length].
  destruct (isalnum c || (c =? "_")%char); lia.
Qed.

Lemma digits_length_bound s : (digits_length s <= String.length s)%nat.
Proof.
  induction s as [|c s IH]; [simpl; lia|]. cbn [digits_length String.length].
  destruct (isdigit c); lia.
Qed.

Lemma string_body_length_within k :
  forall s n, (String.length s <= k)%nat ->
              string_body_length s = Some n -> (n < String.length s)%nat.
Proof.
  induction k as [|k IH]; intros s n Hk H.
  - destruct s; [discriminate|]. simpl in Hk. lia.
  - destruct s as [|c s]; [discriminate|]. cbn [string_body_length] in H.
    cbn [String.length] in *.
    destruct (c =? double_quote)%char.
    + injection H as <-. lia.
    + destruct (c =? "\")%char.
      * destruct s as [|c' s']; [discriminate|]. cbn [String.length] in *.
        destruct (string_body_length s') as [m|] eqn:Em; [|discriminate].
        injection H as <-. apply IH in Em; lia.
      * destruct (string_body_length s) as [m|] eqn:Em; [|discriminate].
        injection H as <-. apply IH in Em; lia.
Qed.

Lemma string_body_length_bound s n :
  string_body_length s = Some n -> (n < String.length s)%nat.
Proof. apply (string_body_length_within (String.length s)). lia. Qed.

Section WithSource.
Variable source : string.

Lemma rest_length pos : String.length (rest source pos) = (String.length source - pos)%nat.
Proof. apply string_drop_length. Qed.

Lemma match_stays expected pos b pos' :
  match_ source expected pos = (b, pos') ->
  (pos <= pos')%nat /\ ((pos <= String.length source)%nat ->
                        (pos' <= String.length source)%nat).
Proof.
  unfold match_, peek. intros H.
  destruct (String.prefix expected (rest source pos)) eqn:E; inv H; [|lia].
  apply prefix_length in E. rewrite rest_length in E. lia.
Qed.

Lemma expect_stays expected pos : stays source pos (expect source expected pos).
Proof.
  unfold expect. intros a pos' H Hle.
  destruct (match_ source expected pos) as [b p] eqn:E. apply match_stays in E.
  destruct b; [|discriminate]. inv H. lia.
Qed.

Lemma consume_identifier_stays pos : stays source pos (consume_identifier source pos).
Proof.
  unfold consume_identifier. intros a pos' H Hle.
  destruct (negb (isalpha (char_at source pos)) && negb (char_at source pos =? "_")%char);
    [discriminate|].
  inv H. pose proof (identifier_length_bound (rest source pos)) as Hb.
  rewrite rest_length in Hb. lia.
Qed.

Lemma consume_integer_stays pos : stays source pos (consume_integer source pos).
Proof.
  unfold consume_integer. intros a pos' H Hle.
  destruct (digits_length (rest source pos) =? 0)%nat; [discriminate|].
  destruct (2147483647 <? _)%Z; [discriminate|].
  inv H. pose proof (digits_length_bound (rest source pos)) as Hb.
  rewrite rest_length in Hb. lia.
Qed.

Lemma consume_string_stays pos : stays source pos (consume_string source pos).
Proof.
  unfold consume_string. intros a pos' H Hle.
  destruct (negb (char_at source pos =? double_quote)%char); [discriminate|].
  destruct (string_body_length (rest source (pos + 1))) as [len|] eqn:E; [|discriminate].
  inv H. apply string_body_length_bound in E. rewrite rest_length in E. lia.
Qed.

(** Proves that a call stays inside the source from what is known. *)
Ltac known :=
  first
    [ apply expect_stays
    | apply consume_identifier_stays
    | apply consume_integer_stays
    | apply consume_string_stays
    | match goal with I : _ |- _ => apply I end ].

(** Follows the positions through one unfolding of a parsing function. *)
Ltac walk H :=
  repeat
    (cbn [bind] in H;
     match type of H with
     | context [skip_whitespace source ?p] =>
         let q := fresh "q" in
         pose proof (skip_whitespace_ge source p);
         pose proof (skip_whitespace_le source p);
         set (q := skip_whitespace source p) in *; clearbody q
     | context [match_ source ?s ?p] =>
         let E := fresh "E" in
         destruct (match_ source s p) as [? ?] eqn:E; apply match_stays in E
     | context [if ?b then _ else _] => destruct b eqn:?
     | context [bind ?c _] =>
         lazymatch c with context [bind _ _] => fail | _ => idtac end;
         let E := fresh "E" in
         let S := fresh "S" in
         match c with
         | ?g ?p => assert (S : stays source p c) by known
         end;
         destruct c eqn:E;
         [specialize (S _ _ eq_refl)
         |cbn [bind] in H; discriminate
         |cbn [bind] in H; discriminate]
     | context [match ?e with Identifier _ _ _ _ => _ | _ => _ end] => destruct e
     end);
  cbn [bind] in H; try discriminate;
  first
    [ injection H as ? ?; subst; lia
    | match type of H with
      | ?c = Ok _ _ =>
          match c with
          | ?g ?p =>
              let S := fresh "S" in
              assert (S : stays source p c) by known;
              specialize (S _ _ H); lia
          end
      end ].

Lemma parse_type_stays fuel : forall pos, stays source pos (parse_type source fuel pos).
Proof.
  induction fuel as [|n IH]; intros pos a pos' H Hle; [discriminate|].
  cbn [parse_type] in H. walk H.
Qed.

Lemma expr_stays_all fuel : expr_stays source fuel.
Proof.
  induction fuel as [|n IH].
  - unfold expr_stays, stmt_stays; repeat match goal with |- _ /\ _ => split end;
      intros; intros ? ? HO; discriminate HO.
  - destruct IH as (I0 & I1 & I2 & I3 & I4 & I5 & I6 & I7 & I8 & I9 & I10 & I11 & I12 & I13 & I14 & I15 & I16 & I17 & I18).
    unfold expr_stays, stmt_stays; repeat match goal with |- _ /\ _ => split end.
    + intros pos a pos' H Hle. cbn [parse_expr] in H. walk H.
    + intros pos a pos' H Hle. cbn [parse_assignment] in H. walk H.
    + intros pos a pos' H Hle. cbn [parse_or] in H. walk H.
    + intros expr pos a pos' H Hle. cbn [parse_or_loop] in H. walk H.
    + intros pos a pos' H Hle. cbn [parse_and] in H. walk H.
    + intros expr pos a pos' H Hle. cbn [parse_and_loop] in H. walk H.
    + intros pos a pos' H Hle. cbn [parse_equality] in H. walk H.
    + intros expr pos a pos' H Hle. cbn [parse_equality_loop] in H. walk H.
    + intros pos a pos' H Hle. cbn [parse_comparison] in H. walk H.
    + intros start expr pos a pos' H Hle. cbn [parse_comparison_loop] in H. walk H.
    + intros pos a pos' H Hle. cbn [parse_term] in H. walk H.
    + intros start expr pos a pos' H Hle. cbn [parse_term_loop] in H. walk H.
    + intros pos a pos' H Hle. cbn [parse_factor] in H. walk H.
    + intros start expr pos a pos' H Hle. cbn [parse_factor_loop] in H. walk H.
    + intros pos a pos' H Hle. cbn [parse_unary] in H. walk H.
    + intros pos a pos' H Hle. cbn [parse_call] in H. walk H.
    + intros start expr pos a pos' H Hle. cbn [parse_call_loop] in H. walk H.
    + intros args pos a pos' H Hle. cbn [parse_args_loop] in H. walk H.
    + intros pos a pos' H Hle. cbn [parse_primary] in H. walk H.
Qed.

Lemma parse_expr_stays fuel pos : stays source pos (parse_expr source fuel pos).
Proof. destruct (expr_stays_all fuel) as (H & _). apply H. Qed.

Lemma parse_let_stays fuel pos : stays source pos (parse_let source fuel pos).
Proof.
  intros a pos' H Hle. unfold parse_let in H.
  pose proof (parse_expr_stays fuel) as X0. pose proof (parse_type_stays fuel) as X1.
  walk H.
Qed.

Lemma stmt_stays_all fuel : stmt_stays source fuel.
Proof.
  induction fuel as [|n IH].
  - unfold expr_stays, stmt_stays; repeat match goal with |- _ /\ _ => split end;
      intros; intros ? ? HO; discriminate HO.
  - destruct IH as (I0 & I1 & I2 & I3 & I4).
    pose proof (parse_expr_stays n) as X0. pose proof (parse_let_stays n) as X1.
    unfold expr_stays, stmt_stays; repeat match goal with |- _ /\ _ => split end.
    + intros pos a pos' H Hle. cbn [parse_statement] in H. walk H.
    + intros pos a pos' H Hle. cbn [parse_if] in H. walk H.
    + intros pos a pos' H Hle. cbn [parse_while] in H. walk H.
    + intros pos a pos' H Hle. cbn [parse_block] in H. walk H.
    + intros statements pos a pos' H Hle. cbn [parse_block_loop] in H. walk H.
Qed.

Lemma parse_block_stays fuel pos : stays source pos (parse_block source fuel pos).
Proof. destruct (stmt_stays_all fuel) as (_ & _ & _ & H & _). apply H. Qed.

Lemma parse_params_loop_stays fuel :
  forall params pos, stays source pos (parse_params_loop source fuel params pos).
Proof.
  induction fuel as [|n IH]; intros params pos a pos' H Hle; [discriminate|].
  pose proof (parse_type_stays n) as X1.
  cbn [parse_params_loop] in H. walk H.
Qed.

Lemma parse_params_stays fuel pos : stays source pos (parse_params source fuel pos).
Proof.
  intros a pos' H Hle. unfold parse_params in H.
  pose proof (parse_params_loop_stays fuel) as X0. walk H.
Qed.

Lemma parse_function_stays fuel pos : stays source pos (parse_function source fuel pos).
Proof.
  intros a pos' H Hle. unfold parse_function in H.
  pose proof (parse_params_stays fuel) as X0. pose proof (parse_type_stays fuel) as X1.
  pose proof (parse_block_stays fuel) as X2.
  walk H.
Qed.

Lemma parse_items_stays fuel :
  forall items pos a pos',
    parse_items source fuel items pos = Ok a pos' ->
    (pos <= String.length source)%nat -> pos' = String.length source.
Proof.
  induction fuel as [|n IH]; intros items pos a pos' H Hle; [discriminate|].
  cbn [parse_items] in H. unfold at_end in H.
  destruct (String.length source <=? pos)%nat eqn:E; cbn [negb] in H.
  - inv H. apply Nat.leb_le in E. lia.
  - destruct (parse_function source n pos) as [func p| |] eqn:Ef; try discriminate.
    cbn [bind] in H. apply parse_function_stays in Ef. specialize (Ef Hle).
    eapply IH; [eassumption|]. apply skip_whitespace_le. lia.
Qed.

End WithSource.
End PositionFacts.

(** ** The object file *)

Module ObjectFacts.
Import Output ObjectSpec.

Lemma opcode_value_inj a b : opcode_value a = opcode_value b -> a = b.
Proof. destruct a; destruct b; intros H; first [reflexivity|discriminate H]. Qed.

Lemma opcode_value_byte a : (opcode_value a < 256)%N.
Proof. destruct a; reflexivity. Qed.

Lemma length_operand_bytes w a : length (operand_bytes w a) = w.
Proof. unfold operand_bytes. rewrite length_map, length_seq. reflexivity. Qed.

Lemma operand_bytes_lookup w a i :
  (i < w)%nat ->
  operand_bytes w a !! i = Some (N.land (N.shiftr a (N.of_nat i * 8)) 255).
Proof.
  intros H. unfold operand_bytes. rewrite list_lookup_fmap, lookup_seq_lt by exact H.
  reflexivity.
Qed.

Lemma byte_bit a i m :
  (m < 8)%N ->
  N.testbit (N.land (N.shiftr a (i * 8)) 255) m = N.testbit a (m + i * 8).
Proof.
  intros H. rewrite N.land_spec, N.shiftr_spec by lia.
  change 255%N with (N.ones 8). rewrite N.ones_spec_low by exact H.
  apply andb_true_r.
Qed.

Lemma high_bit a k n : (a < 2 ^ k)%N -> (k <= n)%N -> N.testbit a n = false.
Proof.
  intros Ha Hn. rewrite <- (N.mod_small a (2 ^ k)) by exact Ha.
  apply N.mod_pow2_bits_high. exact Hn.
Qed.

Lemma operand_bytes_inj w a b :
  (a < 2 ^ (8 * N.of_nat w))%N -> (b < 2 ^ (8 * N.of_nat w))%N ->
  operand_bytes w a = operand_bytes w b -> a = b.
Proof.
  intros Ha Hb H. apply N.bits_inj. intros n.
  destruct (N.lt_ge_cases n (8 * N.of_nat w)) as [Hn|Hn].
  - assert (Hi : (N.to_nat (n / 8) < w)%nat).
    { assert (n / 8 < N.of_nat w)%N by (apply N.Div0.div_lt_upper_bound; lia). lia. }
    pose proof (operand_bytes_lookup w a _ Hi) as La.
    pose proof (operand_bytes_lookup w b _ Hi) as Lb.
    rewrite H, Lb in La. injection La as La. rewrite N2Nat.id in La.
    assert (Hm : (n mod 8 < 8)%N) by (apply N.mod_lt; lia).
    pose proof (byte_bit a (n / 8) _ Hm) as Ba.
    pose proof (byte_bit b (n / 8) _ Hm) as Bb.
    assert (E : (n mod 8 + n / 8 * 8 = n)%N) by (pose proof (N.div_mod n 8); lia).
    rewrite E in Ba, Bb. rewrite <- Ba, <- Bb, La. reflexivity.
  - rewrite (high_bit a _ n Ha Hn), (high_bit b _ n Hb Hn). reflexivity.
Qed.

Lemma operand_bytes_byte w a x : x ∈ operand_bytes w a -> (x < 256)%N.
Proof.
  unfold operand_bytes. intros H. apply list_elem_of_fmap in H as (i & -> & _).
  assert (E : N.land (N.shiftr a (N.of_nat i * 8)) 255
              = (N.shiftr a (N.of_nat i * 8) mod 2 ^ 8)%N).
  { change 255%N with (N.ones 8). apply N.land_ones. }
  rewrite E. apply N.mod_lt. discriminate.
Qed.

Lemma length_bytecode w instr : length (bytecode w instr) = encoded_size w instr.
Proof.
  unfold bytecode, encoded_size. destruct (has_operand instr); cbn [length].
  - rewrite length_operand_bytes. reflexivity.
  - reflexivity.
Qed.

Lemma has_operand_opcode i j : opcode i = opcode j -> has_operand i = has_operand j.
Proof. unfold has_operand. intros ->. reflexivity. Qed.

Lemma write_no_cons w instr instrs :
  write_no w (instr :: instrs) = bytecode w instr ++ write_no w instrs.
Proof. reflexivity. Qed.

Lemma bytecode_inj w i j r s :
  fits w i -> fits w j ->
  bytecode w i ++ r = bytecode w j ++ s -> i = j /\ r = s.
Proof.
  unfold fits, bytecode. intros Fi Fj H.
  cbn [app] in H. injection H as Ho H. apply opcode_value_inj in Ho.
  rewrite <- (has_operand_opcode _ _ Ho) in *.
  destruct i as [oi ai], j as [oj aj]. cbn [opcode operand] in *. subst oj.
  destruct (has_operand (MkInstruction oi ai)).
  - apply app_inj_1 in H as (H & ->);
      [|rewrite !length_operand_bytes; reflexivity].
    apply operand_bytes_inj in H; [|assumption|assumption]. subst aj. split; reflexivity.
  - cbn [app] in H. subst. split; reflexivity.
Qed.

End ObjectFacts.

(** ** The claims *)

Import Compiler CompilerSpec CompilerFacts.
Import Output Reader ListingSpec ListingFacts.
Import TypeChecker CheckerSpec CheckerFacts BorrowFacts.
Import ParserSpec ParserFacts FuelFacts.
Import WidthSpec WidthFacts FailFastFacts Examples.




(** Claim C2.  The source
    [fn main(){ let mut x: i32 = 10; while (x>0){ x = x - 1; } }] is parsed
    (with any fuel from 100 on), passes the type checker without a recorded
    error, and is compiled, whatever the host word size of at least one
    byte, to the fourteen instructions PUSH_I32 10; STORE 0; LOAD 0;
    PUSH_I32 0; GT_I32; JMP_IF_NOT 13; LOAD 0; PUSH_I32 1; SUB_I32; STORE 0;
    LOAD 0; POP; JMP 2; RET, whose jump operands are indices into this
    sequence. *)
Theorem while_loop_lowering :
  (forall fuel, (100 <= fuel)%nat ->
     Parser.parse while_loop_source fuel = Parser.Ok while_loop_program 59) /\
  (exists program',
     check_program while_loop_program TypeChecker.init
     = Some (true, program', TypeChecker.Mk [] [])) /\
  (forall w, (1 <= w)%nat ->
     exists c,
       compile w while_loop_program = inr c /\
       instructions c =
       [MkInstruction PUSH_I32 10; MkInstruction STORE 0; MkInstruction LOAD 0;
        MkInstruction PUSH_I32 0; Instruction_ GT_I32; MkInstruction JMP_IF_NOT 13;
        MkInstruction LOAD 0; MkInstruction PUSH_I32 1; Instruction_ SUB_I32;
        MkInstruction STORE 0; MkInstruction LOAD 0; Instruction_ POP;
        MkInstruction JMP 2; Instruction_ RET]).
Proof.
  split; [|split].
  - intros fuel Hfuel.
    rewrite (parse_enough while_loop_source 100 fuel Hfuel); vm_compute;
      [reflexivity|discriminate].
  - eexists. vm_compute. reflexivity.
  - intros w Hw.
    rewrite (compile_width w 8 Hw ltac:(lia) while_loop_program eq_refl).
    eexists. split; vm_compute; reflexivity.
Qed.

Lemma while_loop_lowering_witness :
  ((100 <= 100)%nat /\
   Parser.parse while_loop_source 100 = Parser.Ok while_loop_program 59) /\
  ((1 <= 8)%nat /\
   exists c,
     compile 8 while_loop_program = inr c /\
     instructions c =
     [MkInstruction PUSH_I32 10; MkInstruction STORE 0; MkInstruction LOAD 0;
      MkInstruction PUSH_I32 0; Instruction_ GT_I32; MkInstruction JMP_IF_NOT 13;
      MkInstruction LOAD 0; MkInstruction PUSH_I32 1; Instruction_ SUB_I32;
      MkInstruction STORE 0; MkInstruction LOAD 0; Instruction_ POP;
      MkInstruction JMP 2; Instruction_ RET]).
Proof.
  destruct while_loop_lowering as (Hparse & _ & Hcompile).
  split; (split; [lia|]).
  - apply Hparse. lia.
  - apply Hcompile. lia.
Defined.

(** Claim C3.  For every program and variable name: after a mutable borrow
    of the variable has been accepted, a further mutable borrow of it, in
    the state the first one left, is rejected with the recorded error
    "Variable already mutably borrowed: <name>"; and an assignment to a
    variable whose stored type has kind [MutRef] is rejected with the
    recorded error "Cannot use variable while mutably borrowed: <name>".
    Recorded errors are prefixed with "Type error at <start>:<end>: ". *)
Theorem mutable_borrow_errors (program_ : Program) (vname : string) :
  (forall tc sp ty isp e' tc' sp2 ty2 isp2 ity2 im2,
     check_expression program_ (BorrowExpr sp ty true (Identifier isp None vname false)) tc
       = Some (true, e', tc') ->
     exists e2,
       check_expression program_
         (BorrowExpr sp2 ty2 true (Identifier isp2 ity2 vname im2)) tc' =
       Some (false, e2,
             error ("Variable already mutably borrowed: " +:+ vname) sp2 tc')) /\
  (forall tc info sp ty lsp lty lm rhs,
     lookup_variable vname tc = Some info ->
     kind (vi_type info) = MutRef ->
     check_expression program_
       (BinaryExpr sp ty BinOp.Assignment (Identifier lsp lty vname lm) rhs) tc =
     Some (false,
           BinaryExpr sp ty BinOp.Assignment (Identifier lsp lty vname lm) rhs,
           error ("Cannot use variable while mutably borrowed: " +:+ vname) sp tc)).
Proof.
  split.
  - intros tc sp ty isp e' tc' sp2 ty2 isp2 ity2 im2 Hc.
    destruct (borrow_mut_success _ _ _ _ _ _ _ _ Hc)
      as (Hf & (info & Hs & Hm & _) & ->).
    assert (Hs' : stored vname (scopes_ (mark_mutably_borrowed vname sp tc))
                  = Some (mark_borrowed sp info)).
    { simpl. rewrite stored_marked, Hs. reflexivity. }
    eexists. rewrite (borrow_mut_while_borrowed _ _ _ _ _ _ _ _ _ Hf Hs' eq_refl).
    simpl. rewrite Hm. reflexivity.
  - intros tc info sp ty lsp lty lm rhs Hl Hk.
    unfold lookup_variable in Hl. rewrite lookup_scopes_stored in Hl.
    destruct (stored vname (scopes_ tc)) as [found|] eqn:Hs; [|discriminate].
    inv Hl. simpl in Hk. now apply assignment_while_borrowed with (info := found).
Qed.

Lemma mutable_borrow_errors_witness :
  (exists e' tc',
     check_expression call_program (borrow_z (MkSpan 1 2)) z_declared
       = Some (true, e', tc') /\
     exists e2,
       check_expression call_program (borrow_z (MkSpan 3 4)) tc' =
       Some (false, e2,
             error ("Variable already mutably borrowed: " +:+ "z") (MkSpan 3 4) tc')) /\
  lookup_variable "z" z_borrowed = Some z_borrowed_info /\
  kind (vi_type z_borrowed_info) = MutRef /\
  check_expression call_program (assign_z (MkSpan 5 6)) z_borrowed =
  Some (false, assign_z (MkSpan 5 6),
        error ("Cannot use variable while mutably borrowed: " +:+ "z") (MkSpan 5 6)
              z_borrowed).
Proof.
  split; [|split; [vm_compute; reflexivity|split; [reflexivity|]]].
  - destruct (check_expression call_program (borrow_z (MkSpan 1 2)) z_declared)
      as [[[[|] e'] tc']|] eqn:E; try (vm_compute in E; discriminate).
    exists e', tc'. split; [reflexivity|].
    exact (proj1 (mutable_borrow_errors call_program "z") z_declared (MkSpan 1 2) None
                 (MkSpan 1 2) e' tc' (MkSpan 3 4) None (MkSpan 3 4) None false E).
  - refine (proj2 (mutable_borrow_errors call_program "z") z_borrowed z_borrowed_info
                  (MkSpan 5 6) None (MkSpan 5 6) None false
                  (IntLiteral (MkSpan 5 6) None 20) _ eq_refl).
    vm_compute. reflexivity.
Defined.

(** Claim C4, what the code does.  The source
    [fn main() { let x: i32 = 1; let y: &&i32 = &&x; y; let z: i32 = 0; }]
    is parsed and passes the checker; yet the type written into the slot of
    the expression [y], and the type stored for [y] after the two [let]s,
    is a [Ref] whose base is a [Ref] without base: the copies made by the
    checker keep two levels of a type only.  On
    [fn main() { let x: i32 = 1; let y: &&i32 = &&x; let z: &&i32 = y; }]
    [is_assignable] then dereferences the missing base, and the run of the
    checker has no defined result. *)
Theorem nested_reference_loses_its_base :
  (forall fuel, (200 <= fuel)%nat ->
     Parser.parse nested_reference_source fuel = Parser.Ok nested_reference_program 68) /\
  (exists program',
     check_program nested_reference_program TypeChecker.init
     = Some (true, program', TypeChecker.Mk [] []) /\
     third_statement_type program'
     = Some (MkTy Ref (Some (MkTy Ref None (MkSpan 36 40))) (MkSpan 48 49))) /\
  (exists stmts' tc',
     check_block nested_reference_program (first_two_statements nested_reference_program)
                 (enter_scope (enter_scope TypeChecker.init))
     = Some (true, stmts', tc') /\
     stored "y" (scopes_ tc')
     = Some (MkVariableInfo
               (MkTy Ref (Some (MkTy Ref None (MkSpan 36 40))) (MkSpan 35 40)) false)) /\
  (forall fuel, (200 <= fuel)%nat ->
     Parser.parse nested_reference_use_source fuel
     = Parser.Ok nested_reference_use_program 67) /\
  check_program nested_reference_use_program TypeChecker.init = None.
Proof.
  split; [|split; [|split; [|split]]].
  - intros fuel Hfuel.
    rewrite (parse_enough nested_reference_source 200 fuel Hfuel); vm_compute;
      [reflexivity|discriminate].
  - eexists. split; vm_compute; reflexivity.
  - do 2 eexists. split; vm_compute; reflexivity.
  - intros fuel Hfuel.
    rewrite (parse_enough nested_reference_use_source 200 fuel Hfuel); vm_compute;
      [reflexivity|discriminate].
  - vm_compute. reflexivity.
Qed.

Lemma nested_reference_loses_its_base_witness :
  (200 <= 200)%nat /\
  Parser.parse nested_reference_source 200 = Parser.Ok nested_reference_program 68.
Proof.
  split; [lia|]. apply (proj1 nested_reference_loses_its_base). lia.
Defined.

(** Claim C5.  For every expression statement whose lowering succeeds, the
    instructions appended are those of the expression followed by one
    [POP].  For every function whose body ends with an expression statement
    and whose lowering succeeds, the code of the function ends with the
    instructions of that expression, then [POP], then the appended [RET]. *)
Theorem expression_statement_is_popped (w : nat) :
  (forall sp e c c',
     compile_statement w (ExprStmt sp e) c = inr c' ->
     exists c1 code,
       compile_expression w e c = inr c1 /\
       instructions c1 = instructions c ++ code /\
       instructions c' = instructions c ++ code ++ [Instruction_ POP]) /\
  (forall func bsp stmts esp e c c',
     fn_body func = BlockStmt bsp (stmts ++ [ExprStmt esp e]) ->
     compile_function w func c = inr c' ->
     exists c0 c1 code,
       compile_block w stmts (entry_state func c) = inr c0 /\
       compile_expression w e c0 = inr c1 /\
       instructions c1 = instructions c0 ++ code /\
       instructions c' = instructions c0 ++ code ++ [Instruction_ POP; Instruction_ RET]).
Proof.
  assert (Hstmt : forall sp e c c',
     compile_statement w (ExprStmt sp e) c = inr c' ->
     exists c1 code,
       compile_expression w e c = inr c1 /\
       instructions c1 = instructions c ++ code /\
       instructions c' = instructions c ++ code ++ [Instruction_ POP]).
  { intros sp e c c' Hc. simpl in Hc.
    destruct (compile_expression w e c) as [|c1] eqn:E1; [discriminate|]. inv Hc.
    destruct (compile_expression_appends w _ _ _ E1) as (code & (I1 & _) & _).
    exists c1, code. split; [reflexivity|]. split; [assumption|].
    simpl. rewrite I1, <- app_assoc. reflexivity. }
  split; [exact Hstmt|].
  intros func bsp stmts esp e c c' Hbody Hc.
  rewrite compile_function_unfold, Hbody, compile_statement_block,
    compile_block_snoc in Hc.
  destruct (compile_block w stmts (entry_state func c)) as [|c0] eqn:E0;
    [discriminate|].
  destruct (compile_statement w (ExprStmt esp e) c0) as [|c2] eqn:E2; [discriminate|].
  destruct (Hstmt _ _ _ _ E2) as (c1 & code & E1 & I1 & I2).
  assert (Hlast : last_is_ret_val c2 = false).
  { unfold last_is_ret_val. rewrite I2, !app_assoc, last_snoc. reflexivity. }
  rewrite Hlast in Hc. apply update_function_same in Hc. destruct Hc as (I3 & _).
  exists c0, c1, code. repeat split; try assumption.
  rewrite I3. simpl. rewrite I2, <- !app_assoc. reflexivity.
Qed.

Lemma expression_statement_is_popped_witness :
  (exists c',
     compile_statement 8 (ExprStmt (MkSpan 26 30) add_result)
                       (entry_state add_function call_start) = inr c' /\
     exists c1 code,
       compile_expression 8 add_result (entry_state add_function call_start) = inr c1 /\
       instructions c1 = instructions (entry_state add_function call_start) ++ code /\
       instructions c' =
         instructions (entry_state add_function call_start) ++ code ++ [Instruction_ POP]) /\
  (exists c',
     fn_body add_function
       = BlockStmt (MkSpan 24 31) ([] ++ [ExprStmt (MkSpan 26 30) add_result]) /\
     compile_function 8 add_function call_start = inr c' /\
     exists c0 c1 code,
       compile_block 8 [] (entry_state add_function call_start) = inr c0 /\
       compile_expression 8 add_result c0 = inr c1 /\
       instructions c1 = instructions c0 ++ code /\
       instructions c' = instructions c0 ++ code ++ [Instruction_ POP; Instruction_ RET]).
Proof.
  split.
  - destruct (compile_statement 8 (ExprStmt (MkSpan 26 30) add_result)
                                (entry_state add_function call_start))
      as [message|c'] eqn:E; [vm_compute in E; discriminate|].
    exists c'. split; [reflexivity|].
    exact (proj1 (expression_statement_is_popped 8) (MkSpan 26 30) add_result
                 (entry_state add_function call_start) c' E).
  - destruct (compile_function 8 add_function call_start) as [message|c'] eqn:E;
      [vm_compute in E; discriminate|].
    exists c'. split; [reflexivity|]. split; [reflexivity|].
    exact (proj2 (expression_statement_is_popped 8) add_function (MkSpan 24 31) []
                 (MkSpan 26 30) add_result call_start c' eq_refl E).
Defined.

(** Claim C6.  In a state whose function table is the one of the first
    pass, a call of a named function whose lowering succeeds appends the
    lowering of the arguments taken from the last to the first, then [CALL k],
    where [k] is the position of the callee among the functions of the
    program in declaration order (the last one, should several functions
    have that name), which is also its position in the function table. *)
Theorem call_lowering (w : nat) (program : Program)
        (sp : Span) (ty : option Ty) (csp : Span) (cty : option Ty)
        (callee_name : string) (cm : bool) (args : list Expr) (c c' : Compiler.t) :
  FunctionTable.name_to_index (function_table c) =
    FunctionTable.name_to_index (first_pass (items program)) ->
  compile_expression w (CallExpr sp ty (Identifier csp cty callee_name cm) args) c
    = inr c' ->
  exists c1 code k,
    compile_in_order w (rev args) c = inr c1 /\
    instructions c1 = instructions c ++ code /\
    instructions c' = instructions c ++ code ++ [MkInstruction CALL (N.of_nat k)] /\
    (fn_name <$> items program) !! k = Some callee_name /\
    (FunctionTable.name <$> FunctionTable.functions (first_pass (items program))) !! k
      = Some callee_name /\
    forall j, (k < j)%nat -> (fn_name <$> items program) !! j <> Some callee_name.
Proof.
  intros Htable Hc. rewrite compile_expression_call, compile_args_reversed_rev in Hc.
  destruct (compile_in_order w (rev args) c) as [|c1] eqn:E1; [discriminate|].
  destruct (compile_in_order_appends w _ _ _ E1) as (code & (I1 & _ & _ & T1) & _).
  unfold FunctionTable.get_function_index in Hc. rewrite T1, Htable in Hc.
  destruct (FunctionTable.name_to_index (first_pass (items program)) !! callee_name)
    as [k|] eqn:Ek; [|discriminate].
  inv Hc. destruct (first_pass_index _ _ _ Ek) as (Hat & Hlast).
  exists c1, code, k. split; [reflexivity|]. split; [assumption|].
  split; [simpl; rewrite I1, <- app_assoc; reflexivity|].
  split; [assumption|]. split; [|assumption].
  rewrite first_pass_functions. assumption.
Qed.

Lemma call_lowering_witness :
  exists c',
    FunctionTable.name_to_index (function_table call_start) =
      FunctionTable.name_to_index (first_pass (items call_program)) /\
    compile_expression 8 add_call call_start = inr c' /\
    exists c1 code k,
      compile_in_order 8
        (rev [IntLiteral (MkSpan 59 60) None 1; IntLiteral (MkSpan 61 62) None 2])
        call_start = inr c1 /\
      instructions c1 = instructions call_start ++ code /\
      instructions c' = instructions call_start ++ code ++ [MkInstruction CALL (N.of_nat k)] /\
      (fn_name <$> items call_program) !! k = Some "add" /\
      (FunctionTable.name <$> FunctionTable.functions (first_pass (items call_program))) !! k
        = Some "add" /\
      forall j, (k < j)%nat -> (fn_name <$> items call_program) !! j <> Some "add".
Proof.
  destruct (compile_expression 8 add_call call_start) as [message|c'] eqn:E;
    [vm_compute in E; discriminate|].
  exists c'. split; [reflexivity|]. split; [reflexivity|].
  exact (call_lowering 8 call_program (MkSpan 55 63) None (MkSpan 55 58) None "add" false
           [IntLiteral (MkSpan 59 60) None 1; IntLiteral (MkSpan 61 62) None 2]
           call_start c' eq_refl E).
Defined.

(** Claim C7.  [x = y = 5] is parsed as the assignment of [y = 5] to [x].
    When the left operand of [=] is an identifier node, the right operand
    is parsed at the level of assignments and the assignment node is
    returned; since parentheses leave no node, [x] within any number [n] of
    parentheses followed by [= 20] is parsed as the assignment of 20 to
    [x].  When the left operand is any other node, parsing fails with
    "Invalid assignment target", as it does on [x + 1 = 10]. *)
Theorem assignment_parsing :
  (forall fuel, (30 <= fuel)%nat ->
     Parser.parse_expr "x = y = 5" fuel 0 =
     Parser.Ok
       (BinaryExpr (MkSpan 0 9) None BinOp.Assignment
          (Identifier (MkSpan 0 1) None "x" false)
          (BinaryExpr (MkSpan 4 9) None BinOp.Assignment
             (Identifier (MkSpan 4 5) None "y" false)
             (IntLiteral (MkSpan 8 9) None 5)))
       9) /\
  (forall source fuel pos sp ty x m pos1,
     Parser.parse_or source fuel pos = Parser.Ok (Identifier sp ty x m) pos1 ->
     Parser.peek source "=" pos1 = true ->
     Parser.parse_assignment source (S fuel) pos =
     Parser.bind
       (Parser.parse_assignment source fuel (Parser.skip_whitespace source (pos1 + 1)))
       (fun rhs pos4 =>
          Parser.Ok (BinaryExpr (MkSpan (span_start sp) pos4) None BinOp.Assignment
                       (Identifier sp ty x m) rhs) pos4)) /\
  (forall n fuel, (12 + 11 * n <= fuel)%nat ->
     Parser.parse_expr (parenthesised n "x" +:+ " = 20") fuel 0 =
     Parser.Ok
       (BinaryExpr (MkSpan n (2 * n + 6)) None BinOp.Assignment
          (Identifier (MkSpan n (n + 1)) None "x" false)
          (IntLiteral (MkSpan (2 * n + 4) (2 * n + 6)) None 20))
       (2 * n + 6)) /\
  (forall source fuel pos lhs pos1,
     Parser.parse_or source fuel pos = Parser.Ok lhs pos1 ->
     Parser.peek source "=" pos1 = true ->
     (forall sp ty x m, lhs <> Identifier sp ty x m) ->
     Parser.parse_assignment source (S fuel) pos = Parser.Throw "Invalid assignment target") /\
  (forall fuel, (30 <= fuel)%nat ->
     Parser.parse_expr "x + 1 = 10" fuel 0 = Parser.Throw "Invalid assignment target").
Proof.
  split; [|split; [|split; [|split]]].
  - intros fuel Hfuel.
    rewrite (parse_expr_enough "x = y = 5" 30 fuel 0 Hfuel); vm_compute; [reflexivity|discriminate].
  - intros source fuel pos sp ty x m pos1 Hor Hpeek.
    rewrite parse_assignment_step, Hor. cbn [Parser.bind].
    rewrite (match_yes _ _ _ Hpeek). reflexivity.
  - intros n fuel Hfuel.
    replace fuel with (12 + 11 * n + (fuel - (12 + 11 * n)))%nat by lia.
    apply parse_parenthesised_target.
  - intros source fuel pos lhs pos1 Hor Hpeek Hlhs.
    rewrite parse_assignment_step, Hor. cbn [Parser.bind].
    rewrite (match_yes _ _ _ Hpeek).
    destruct lhs; try reflexivity. exfalso. eapply Hlhs. reflexivity.
  - intros fuel Hfuel.
    rewrite (parse_expr_enough "x + 1 = 10" 30 fuel 0 Hfuel); vm_compute;
      [reflexivity|discriminate].
Qed.

Lemma assignment_parsing_witness :
  ((30 <= 30)%nat /\
   Parser.parse_expr "x = y = 5" 30 0 =
   Parser.Ok
     (BinaryExpr (MkSpan 0 9) None BinOp.Assignment
        (Identifier (MkSpan 0 1) None "x" false)
        (BinaryExpr (MkSpan 4 9) None BinOp.Assignment
           (Identifier (MkSpan 4 5) None "y" false)
           (IntLiteral (MkSpan 8 9) None 5)))
     9) /\
  ((12 + 11 * 1 <= 23)%nat /\
   Parser.parse_expr "(x) = 20" 23 0 =
   Parser.Ok
     (BinaryExpr (MkSpan 1 8) None BinOp.Assignment
        (Identifier (MkSpan 1 2) None "x" false)
        (IntLiteral (MkSpan 6 8) None 20))
     8) /\
  (Parser.parse_or "x = 5" 20 0 = Parser.Ok (Identifier (MkSpan 0 1) None "x" false) 2 /\
   Parser.peek "x = 5" "=" 2 = true /\
   Parser.parse_assignment "x = 5" 21 0 =
   Parser.bind
     (Parser.parse_assignment "x = 5" 20 (Parser.skip_whitespace "x = 5" (2 + 1)))
     (fun rhs pos4 =>
        Parser.Ok (BinaryExpr (MkSpan (span_start (MkSpan 0 1)) pos4) None BinOp.Assignment
                     (Identifier (MkSpan 0 1) None "x" false) rhs) pos4)) /\
  (Parser.parse_or "x + 1 = 10" 20 0 =
     Parser.Ok (BinaryExpr (MkSpan 0 6) None BinOp.Add
                  (Identifier (MkSpan 0 1) None "x" false)
                  (IntLiteral (MkSpan 4 5) None 1)) 6 /\
   Parser.peek "x + 1 = 10" "=" 6 = true /\
   Parser.parse_assignment "x + 1 = 10" 21 0 = Parser.Throw "Invalid assignment target").
Proof.
  destruct assignment_parsing as (Hright & Hident & Hparen & Htarget & _).
  split; [split; [lia|apply Hright; lia]|].
  split; [split; [lia|apply (Hparen 1%nat 23%nat); lia]|].
  split.
  { split; [vm_compute; reflexivity|]. split; [vm_compute; reflexivity|].
    apply (Hident "x = 5" 20%nat 0%nat (MkSpan 0 1) None "x" false 2%nat);
      vm_compute; reflexivity. }
  split; [vm_compute; reflexivity|]. split; [vm_compute; reflexivity|].
  apply (Htarget "x + 1 = 10" 20%nat 0%nat
           (BinaryExpr (MkSpan 0 6) None BinOp.Add
              (Identifier (MkSpan 0 1) None "x" false)
              (IntLiteral (MkSpan 4 5) None 1)) 6%nat).
  - vm_compute. reflexivity.
  - vm_compute. reflexivity.
  - intros. discriminate.
Defined.




(** Claim C9.  When [compile] succeeds, reading the assembly listing of the
    instructions back (by lines, each split on whitespace, the first word
    matched against the opcode table and the decimal operand read when the
    opcode takes one) gives the instructions themselves, and the encoding
    of what was read in the binary format is the bytecode image written for
    the same word size. *)
Theorem listing_round_trip (w : nat) (program : Program) (c : Compiler.t) :
  compile w program = inr c ->
  Reader.read_ns (Output.write_ns (instructions c)) = Some (instructions c) /\
  forall instrs,
    Reader.read_ns (Output.write_ns (instructions c)) = Some instrs ->
    Reader.encode w instrs = Output.write_no w (instructions c).
Proof.
  intros Hc. destruct (compile_regions w _ _ Hc) as (_ & _ & _ & Hok & _).
  assert (Hread : Reader.read_ns (Output.write_ns (instructions c)) = Some (instructions c)).
  { apply read_write_ns. eapply Forall_impl; [exact Hok|]. intros i (_ & Hz & _). exact Hz. }
  split; [assumption|].
  intros instrs Hi. rewrite Hread in Hi. inv Hi. apply encode_write_no.
Qed.

Lemma listing_round_trip_witness :
  exists c,
    compile 8 call_program = inr c /\
    Reader.read_ns (Output.write_ns (instructions c)) = Some (instructions c) /\
    forall instrs,
      Reader.read_ns (Output.write_ns (instructions c)) = Some instrs ->
      Reader.encode 8 instrs = Output.write_no 8 (instructions c).
Proof.
  destruct (compile 8 call_program) as [message|c] eqn:E;
    [vm_compute in E; discriminate|].
  exists c. split; [reflexivity|].
  exact (listing_round_trip 8 call_program c E).
Defined.

(** Claim C10.  When [compile] succeeds, the operand of every jump
    instruction of the final vector is strictly less than the number of
    instructions; no instruction of the vector is [RET_VAL]; and the vector
    is made of one region per function, each ending with an appended
    [RET]. *)
Theorem jumps_land_on_instructions (w : nat) (program : Program) (c : Compiler.t) :
  compile w program = inr c ->
  Forall (fun i => is_jump (opcode i) = true ->
                   (operand i < N.of_nat (length (instructions c)))%N)
         (instructions c) /\
  Forall (fun i => opcode i <> RET_VAL) (instructions c) /\
  exists bodies,
    length bodies = length (items program) /\
    instructions c = concat (map (fun body => body ++ [Instruction_ RET]) bodies).
Proof.
  intros Hc. destruct (compile_regions w _ _ Hc) as (bodies & Hlen & Hi & Hok & _).
  split; [|split].
  - eapply Forall_impl; [exact Hok|]. intros i (_ & _ & Hj). exact Hj.
  - now apply vector_ok_no_ret_val.
  - exists bodies. auto.
Qed.

Lemma jumps_land_on_instructions_witness :
  exists c,
    compile 8 while_loop_program = inr c /\
    Forall (fun i => is_jump (opcode i) = true ->
                     (operand i < N.of_nat (length (instructions c)))%N)
           (instructions c) /\
    Forall (fun i => opcode i <> RET_VAL) (instructions c) /\
    exists bodies,
      length bodies = length (items while_loop_program) /\
      instructions c = concat (map (fun body => body ++ [Instruction_ RET]) bodies).
Proof.
  destruct (compile 8 while_loop_program) as [message|c] eqn:E;
    [vm_compute in E; discriminate|].
  exists c. split; [reflexivity|].
  exact (jumps_land_on_instructions 8 while_loop_program c E).
Defined.

(** ** Further properties *)

Import FunctionTable Compiler CompilerSpec CompilerFacts TableFacts.

(** Property X1.
    [add_function] appends one entry and returns its index; the name of
    the function then resolves to that index, the entry found there bears
    the name, the entry point given and the number of parameters, and has
    no locals yet; the other names and the earlier entries are as before,
    and an index past the end is refused with "Invalid function index". *)
Theorem add_function_then_lookup
        (func : FunctionDecl) (entry index : nat) (table table' : FunctionTable.t) :
  add_function func entry table = (index, table') ->
  index = size table /\
  size table' = S (size table) /\
  get_function_index (fn_name func) table' = inr index /\
  (exists info,
     get_function index table' = inr info /\
     name info = fn_name func /\ entry_point info = entry /\
     num_params info = length (fn_params func) /\ num_locals info = 0%nat /\
     return_type info = fn_return_type func /\
     param_types info = param_type <$> fn_params func) /\
  (forall other, other <> fn_name func ->
     get_function_index other table' = get_function_index other table) /\
  (forall i, (i < size table)%nat -> get_function i table' = get_function i table) /\
  (forall i, (size table' <= i)%nat -> get_function i table' = inl "Invalid function index").
Proof.
  unfold add_function. intros H. inv H. unfold size, get_function, get_function_index.
  cbn [functions name_to_index]. split; [reflexivity|].
  split; [rewrite length_app; simpl; lia|].
  split; [rewrite lookup_insert_eq; reflexivity|].
  split.
  - eexists. rewrite lookup_app_r by lia.
    replace (length (functions table) - length (functions table))%nat with 0%nat by lia.
    simpl. split; [reflexivity|]. cbn. rewrite clone_id. repeat split.
    induction (fn_params func) as [|p ps IH]; [reflexivity|].
    simpl. rewrite clone_id. f_equal. exact IH.
  - split; [|split].
    + intros other Hne. rewrite lookup_insert_ne by congruence. reflexivity.
    + intros i Hi. rewrite lookup_app_l by assumption. reflexivity.
    + intros i Hi. rewrite lookup_ge_None_2; [reflexivity|]. assumption.
Qed.

Lemma add_function_then_lookup_witness :
  get_function_index "add" (snd (add_function Examples.add_function 7 FunctionTable.empty))
  = inr 0%nat.
Proof.
  destruct (add_function_then_lookup Examples.add_function 7 0
              FunctionTable.empty
              (snd (add_function Examples.add_function 7 FunctionTable.empty)) eq_refl)
    as (_ & _ & H & _).
  exact H.
Defined.

(** Property X2.
    The table built by the first pass has one entry per function.  A name
    no function bears is refused with "Function not found: <name>"; a name
    some function bears resolves to the position of the last function of
    that name, and the entry at that position bears the name. *)
Theorem first_pass_lookup (funcs : list FunctionDecl) (fname : string) :
  size (first_pass funcs) = length funcs /\
  (fname ∉ (fn_name <$> funcs) ->
   get_function_index fname (first_pass funcs) = inl ("Function not found: " +:+ fname)) /\
  (fname ∈ (fn_name <$> funcs) ->
   exists k info,
     get_function_index fname (first_pass funcs) = inr k /\
     (fn_name <$> funcs) !! k = Some fname /\
     (forall j, (k < j)%nat -> (fn_name <$> funcs) !! j <> Some fname) /\
     get_function k (first_pass funcs) = inr info /\
     name info = fname).
Proof.
  split; [apply first_pass_size|]. split.
  - intros Hout. unfold get_function_index. rewrite first_pass_undeclared by assumption.
    reflexivity.
  - intros Hin. destruct (first_pass_declared _ _ Hin) as (k & Hk).
    destruct (first_pass_index _ _ _ Hk) as (Hat & Hlast).
    destruct (first_pass_entry _ _ _ Hk) as (info & Hinfo & Hname).
    exists k, info. unfold get_function_index, get_function. rewrite Hk, Hinfo. auto.
Qed.

Lemma first_pass_lookup_witness :
  (("sub" ∉ (fn_name <$> items Examples.call_program)) /\
   get_function_index "sub" (first_pass (items Examples.call_program))
   = inl ("Function not found: " +:+ "sub")) /\
  (("main" ∈ (fn_name <$> items Examples.call_program)) /\
   exists k info,
     get_function_index "main" (first_pass (items Examples.call_program)) = inr k /\
     (fn_name <$> items Examples.call_program) !! k = Some "main" /\
     (forall j, (k < j)%nat -> (fn_name <$> items Examples.call_program) !! j <> Some "main") /\
     get_function k (first_pass (items Examples.call_program)) = inr info /\
     name info = "main").
Proof.
  destruct (first_pass_lookup (items Examples.call_program) "sub") as (_ & Hout & _).
  destruct (first_pass_lookup (items Examples.call_program) "main") as (_ & _ & Hin).
  assert (H1 : "sub" ∉ (fn_name <$> items Examples.call_program)).
  { simpl. intros H. repeat (apply elem_of_cons in H; destruct H as [H|H]; [discriminate|]).
    inversion H. }
  assert (H2 : "main" ∈ (fn_name <$> items Examples.call_program)).
  { simpl. apply elem_of_cons. right. apply elem_of_cons. left. reflexivity. }
  split; split; auto.
Defined.



Import FunctionTable Compiler CompilerSpec CompilerFacts RepertoireSpec LayoutFacts.
Import TableFacts RepertoireFacts MoreExamples.

(** Property X4.
    A conditional is lowered to the code of its condition, a [JMP_IF_NOT],
    and the code of the branch taken when the condition holds.  Without an
    [else], the jump goes to the first index after the statement.  With an
    [else], that branch is followed by a [JMP] to the first index after the
    statement, and [JMP_IF_NOT] goes to the instruction after that [JMP],
    where the code of the other branch starts.  Both operands are indices
    into the whole instruction vector. *)
Theorem conditional_layout (w : nat) (sp : Span) (cond : Expr) (th : Stmt)
        (c c' : Compiler.t) :
  (compile_statement w (IfStmt sp cond th None) c = inr c' ->
   exists c1 c3 kc kt,
     compile_expression w cond c = inr c1 /\
     instructions c1 = instructions c ++ kc /\
     compile_statement w th (emit (MkInstruction JMP_IF_NOT 0) c1) = inr c3 /\
     instructions c3 = instructions c1 ++ MkInstruction JMP_IF_NOT 0 :: kt /\
     instructions c' =
       instructions c ++ kc ++
       MkInstruction JMP_IF_NOT (N.of_nat (length (instructions c'))) :: kt) /\
  (forall el,
     compile_statement w (IfStmt sp cond th (Some el)) c = inr c' ->
     exists c1 c3 c6 kc kt ke,
       compile_expression w cond c = inr c1 /\
       instructions c1 = instructions c ++ kc /\
       compile_statement w th (emit (MkInstruction JMP_IF_NOT 0) c1) = inr c3 /\
       instructions c3 = instructions c1 ++ MkInstruction JMP_IF_NOT 0 :: kt /\
       compile_statement w el
         (set_operand (length (instructions c1)) (N.of_nat (S (length (instructions c3))))
                      (emit (MkInstruction JMP 0) c3)) = inr c6 /\
       instructions c6 =
         instructions c ++ kc ++
         MkInstruction JMP_IF_NOT
           (N.of_nat (length (instructions c) + length kc + length kt + 2)) :: kt ++
         MkInstruction JMP 0 :: ke /\
       instructions c' =
         instructions c ++ kc ++
         MkInstruction JMP_IF_NOT
           (N.of_nat (length (instructions c) + length kc + length kt + 2)) :: kt ++
         MkInstruction JMP (N.of_nat (length (instructions c'))) :: ke).
Proof.
  split.
  - intros H.
    destruct (if_layout w _ _ _ _ _ H)
      as (c1 & c3 & kc & kt & E1 & I1 & E3 & I3 & Ic & Hlen & _).
    exists c1, c3, kc, kt. rewrite Hlen. auto.
  - intros el H.
    destruct (if_else_layout w _ _ _ _ _ _ H)
      as (c1 & c3 & c6 & kc & kt & ke & E1 & I1 & E3 & I3 & E6 & I6o & I6 & Ic & Hlen & _).
    exists c1, c3, c6, kc, kt, ke. rewrite Hlen.
    assert (Hn : S (length (instructions c3))
                 = (length (instructions c) + length kc + length kt + 2)%nat).
    { rewrite I3, I1, !length_app. simpl. lia. }
    rewrite <- Hn. do 6 (split; [assumption|]). assumption.
Qed.

Lemma conditional_layout_witness :
  (exists c',
     compile_statement 8 if_statement Compiler.init = inr c' /\
     exists c1 c3 kc kt,
       compile_expression 8 (BoolLiteral (MkSpan 3 7) None true) Compiler.init = inr c1 /\
       instructions c1 = instructions Compiler.init ++ kc /\
       compile_statement 8 one_statement_block (emit (MkInstruction JMP_IF_NOT 0) c1)
         = inr c3 /\
       instructions c3 = instructions c1 ++ MkInstruction JMP_IF_NOT 0 :: kt /\
       instructions c' =
         instructions Compiler.init ++ kc ++
         MkInstruction JMP_IF_NOT (N.of_nat (length (instructions c'))) :: kt) /\
  (exists c',
     compile_statement 8 if_else_statement Compiler.init = inr c' /\
     exists kc kt ke,
       instructions c' =
         instructions Compiler.init ++ kc ++
         MkInstruction JMP_IF_NOT
           (N.of_nat (length (instructions Compiler.init) + length kc + length kt + 2))
         :: kt ++ MkInstruction JMP (N.of_nat (length (instructions c'))) :: ke).
Proof.
  split.
  - destruct (compile_statement 8 if_statement Compiler.init) as [message|c'] eqn:E;
      [vm_compute in E; discriminate|].
    exists c'. split; [reflexivity|].
    exact (proj1 (conditional_layout 8 (MkSpan 0 12) (BoolLiteral (MkSpan 3 7) None true)
                    one_statement_block Compiler.init c') E).
  - destruct (compile_statement 8 if_else_statement Compiler.init) as [message|c'] eqn:E;
      [vm_compute in E; discriminate|].
    exists c'. split; [reflexivity|].
    destruct (proj2 (conditional_layout 8 (MkSpan 0 12)
                       (BoolLiteral (MkSpan 3 7) None true)
                       one_statement_block Compiler.init c') one_statement_block E)
      as (c1 & c3 & c6 & kc & kt & ke & _ & _ & _ & _ & _ & _ & Ic).
    exists kc, kt, ke. exact Ic.
Defined.

(** Property X5.
    A loop is lowered to the code of its condition, a [JMP_IF_NOT] to the
    first index after the statement, the code of its body, and a [JMP]
    back to the index at which the code of the condition starts. *)
Theorem loop_layout (w : nat) (sp : Span) (cond : Expr) (body : Stmt)
        (c c' : Compiler.t) :
  compile_statement w (WhileStmt sp cond body) c = inr c' ->
  exists c1 c3 kc kb,
    compile_expression w cond c = inr c1 /\
    instructions c1 = instructions c ++ kc /\
    compile_statement w body (emit (MkInstruction JMP_IF_NOT 0) c1) = inr c3 /\
    instructions c3 = instructions c1 ++ MkInstruction JMP_IF_NOT 0 :: kb /\
    instructions c' =
      instructions c ++ kc ++
      MkInstruction JMP_IF_NOT (N.of_nat (length (instructions c'))) :: kb ++
      [MkInstruction JMP (N.of_nat (length (instructions c)))].
Proof.
  intros H.
  destruct (while_layout w _ _ _ _ _ H)
    as (c1 & c3 & kc & kb & E1 & I1 & E3 & I3 & Ic & Hlen & _).
  exists c1, c3, kc, kb. rewrite Hlen. auto.
Qed.

Lemma loop_layout_witness :
  exists c',
    compile_statement 8 while_statement Compiler.init = inr c' /\
    exists c1 c3 kc kb,
      compile_expression 8 (BoolLiteral (MkSpan 3 7) None true) Compiler.init = inr c1 /\
      instructions c1 = instructions Compiler.init ++ kc /\
      compile_statement 8 one_statement_block (emit (MkInstruction JMP_IF_NOT 0) c1)
        = inr c3 /\
      instructions c3 = instructions c1 ++ MkInstruction JMP_IF_NOT 0 :: kb /\
      instructions c' =
        instructions Compiler.init ++ kc ++
        MkInstruction JMP_IF_NOT (N.of_nat (length (instructions c'))) :: kb ++
        [MkInstruction JMP (N.of_nat (length (instructions Compiler.init)))].
Proof.
  destruct (compile_statement 8 while_statement Compiler.init) as [message|c'] eqn:E;
    [vm_compute in E; discriminate|].
  exists c'. split; [reflexivity|].
  exact (loop_layout 8 (MkSpan 0 12) (BoolLiteral (MkSpan 3 7) None true)
           one_statement_block Compiler.init c' E).
Defined.

(** Property X6.
    Whatever program is compiled, the instructions stay inside a part of
    the instruction set: none is [DUP], [SWAP], [LOAD_REF], [STORE_REF],
    [JMP_IF], [RET_VAL], [DEREF] or [DEREF_MUT]; the operand of a [CALL] is
    the index of a function of the program, that of a [PUSH_BOOL] is 0 or
    1, and that of a [PUSH_I32] fits the host word. *)
Theorem compiled_code_stays_in_the_repertoire
        (w : nat) (program : Program) (c : Compiler.t) :
  compile w program = inr c ->
  Forall (in_repertoire w (length (items program))) (instructions c).
Proof.
  unfold compile. intros H.
  rewrite <- (first_pass_size (items program)).
  apply (second_pass_repertoire w (items program) _ c H).
  - constructor.
  - apply first_pass_bounded.
  - constructor.
Qed.

Lemma compiled_code_stays_in_the_repertoire_witness :
  exists c,
    compile 8 Examples.call_program = inr c /\
    Forall (in_repertoire 8 (length (items Examples.call_program))) (instructions c).
Proof.
  destruct (compile 8 Examples.call_program) as [message|c] eqn:E;
    [vm_compute in E; discriminate|].
  exists c. split; [reflexivity|].
  exact (compiled_code_stays_in_the_repertoire 8 Examples.call_program c E).
Defined.

(** Property X7.
    When the functions of a program have pairwise different names, the
    function table left by [compile] describes the code: the entry of the
    k-th function is found at index k under its name, bears the name and
    the number of parameters, has for entry point the index at which the
    region of the function starts, and counts at least as many locals as
    there are parameters; every [LOAD] and [STORE] of the region addresses
    a slot below that count. *)
Theorem function_table_describes_the_code
        (w : nat) (program : Program) (c : Compiler.t) :
  compile w program = inr c ->
  NoDup (fn_name <$> items program) ->
  exists bodies,
    length bodies = length (items program) /\
    instructions c = concat (map with_ret bodies) /\
    forall k func body,
      items program !! k = Some func -> bodies !! k = Some body ->
      exists info,
        get_function_index (fn_name func) (function_table c) = inr k /\
        get_function k (function_table c) = inr info /\
        name info = fn_name func /\
        num_params info = length (fn_params func) /\
        entry_point info = length (concat (map with_ret (take k bodies))) /\
        (length (fn_params func) <= num_locals info)%nat /\
        Forall (slot_ok (num_locals info)) body.
Proof.
  intros H Hnd. pose proof H as Hc. unfold compile in H.
  destruct (second_pass_table w (items program) 0%nat _ c H) as (bodies & Hlen & Ic & _ & Hall).
  - constructor.
  - apply first_pass_bounded.
  - assumption.
  - intros j func Hj. cbn [function_table]. simpl. now apply first_pass_positions.
  - destruct (compile_regions w _ _ Hc) as (_ & _ & _ & _ & Hn).
    exists bodies. split; [assumption|]. split; [exact Ic|].
    intros k func body Hk Hb.
    destruct (Hall k func body Hk Hb) as (info & Hi & Hname & Hp & He & Hl & F).
    simpl in Hi, He. exists info.
    unfold get_function_index, get_function. rewrite Hn, Hi.
    destruct (first_pass_positions (items program) k func Hnd Hk) as (Hpos & _).
    rewrite Hpos.
    repeat split; try assumption.
    eapply Forall_impl; [exact F|]. intros i (_ & Hs). exact Hs.
Qed.

Lemma function_table_describes_the_code_witness :
  exists c,
    compile 8 Examples.call_program = inr c /\
    NoDup (fn_name <$> items Examples.call_program) /\
    exists bodies,
      length bodies = length (items Examples.call_program) /\
      instructions c = concat (map with_ret bodies) /\
      forall k func body,
        items Examples.call_program !! k = Some func -> bodies !! k = Some body ->
        exists info,
          get_function_index (fn_name func) (function_table c) = inr k /\
          get_function k (function_table c) = inr info /\
          name info = fn_name func /\
          num_params info = length (fn_params func) /\
          entry_point info = length (concat (map with_ret (take k bodies))) /\
          (length (fn_params func) <= num_locals info)%nat /\
          Forall (slot_ok (num_locals info)) body.
Proof.
  destruct (compile 8 Examples.call_program) as [message|c] eqn:E;
    [vm_compute in E; discriminate|].
  assert (Hnd : NoDup (fn_name <$> items Examples.call_program)).
  { simpl. apply NoDup_cons. split.
    - intros Hin. apply list_elem_of_singleton in Hin. discriminate.
    - apply NoDup_singleton. }
  exists c. split; [reflexivity|]. split; [exact Hnd|].
  exact (function_table_describes_the_code 8 Examples.call_program c E Hnd).
Defined.

Import TypeChecker TypeSpec TypeFacts CheckerSpec CheckerFacts ScopeFacts.

(** Property X8.
    [is_assignable] is a preorder on complete types and [is_compatible] is
    its symmetric weakening: a type is assignable from itself exactly when
    every reference in it has a base (otherwise the comparison dereferences
    a null pointer, it never answers no); assignability is transitive;
    compatibility does not depend on the order of its arguments; what is
    assignable is compatible; a shared reference accepts a mutable one to an
    acceptable base, and a mutable reference never accepts a shared one. *)
Theorem assignability_is_a_preorder :
  (forall t, is_assignable t t = Some true <-> complete t = true) /\
  (forall t, is_assignable t t <> Some false) /\
  (forall a b c, is_assignable a b = Some true -> is_assignable b c = Some true ->
                 is_assignable a c = Some true) /\
  (forall a b, is_compatible a b = is_compatible b a) /\
  (forall a b, is_assignable a b = Some true -> is_compatible a b = Some true) /\
  (forall a b sa sb,
     is_assignable (MkTy Ref (Some a) sa) (MkTy MutRef (Some b) sb) = is_assignable a b) /\
  (forall a b sa sb, is_assignable (MkTy MutRef a sa) (MkTy Ref b sb) = Some false).
Proof.
  split; [exact is_assignable_refl|].
  split; [exact is_assignable_never_false|].
  split; [intros a b c; apply is_assignable_trans|].
  split; [intros a b; apply is_compatible_sym|].
  split; [intros a b; apply is_assignable_compatible|].
  split; reflexivity.
Qed.

Lemma assignability_is_a_preorder_witness :
  is_assignable (MkTy Ref (Some (MkTy I32 None (MkSpan 1 4))) (MkSpan 0 4))
                (MkTy MutRef (Some (MkTy I32 None (MkSpan 9 12))) (MkSpan 5 12))
  = Some true /\
  is_compatible (MkTy Ref (Some (MkTy I32 None (MkSpan 1 4))) (MkSpan 0 4))
                (MkTy MutRef (Some (MkTy I32 None (MkSpan 9 12))) (MkSpan 5 12))
  = Some true.
Proof.
  split; [reflexivity|].
  destruct assignability_is_a_preorder as (_ & _ & _ & _ & H & _).
  apply H. reflexivity.
Defined.

(** Property X9.
    A declaration that is accepted is what a lookup of the name then
    finds, as a copy two levels deep of the declared type with the declared
    mutability; the other names resolve as before and no error is
    recorded. *)
Theorem declare_then_lookup
        (x : string) (ty : Ty) (m : bool) (tc tc' : TypeChecker.t) :
  declare_variable x ty m tc = (true, tc') ->
  lookup_variable x tc' = Some (MkVariableInfo (copy_type ty (ty_span ty)) m) /\
  (forall y, y <> x -> lookup_variable y tc' = lookup_variable y tc) /\
  errors_ tc' = errors_ tc.
Proof.
  intros H. destruct (declare_variable_cases _ _ _ _ _ _ H) as (He & Hs).
  unfold lookup_variable.
  destruct (scopes_ tc) as [|frame rest] eqn:E.
  - destruct Hs as (_ & Hs). rewrite Hs. cbn [lookup_scopes].
    rewrite lookup_singleton_eq. split; [reflexivity|]. split; [|assumption].
    intros y Hy. rewrite lookup_singleton_ne by congruence. reflexivity.
  - destruct (frame !! x); destruct Hs as (Hb & Hs); [discriminate|].
    destruct (lookup_declared x ty m _ frame rest Hs) as (H1 & H2). auto.
Qed.

Lemma declare_then_lookup_witness :
  lookup_variable "z"
    (snd (declare_variable "z" (MkTy I32 None (MkSpan 8 11)) true
            (enter_scope TypeChecker.init)))
  = Some (MkVariableInfo (MkTy I32 None (MkSpan 8 11)) true).
Proof.
  destruct (declare_then_lookup "z" (MkTy I32 None (MkSpan 8 11)) true
              (enter_scope TypeChecker.init)
              (snd (declare_variable "z" (MkTy I32 None (MkSpan 8 11)) true
                      (enter_scope TypeChecker.init)))
              eq_refl) as (H & _).
  exact H.
Defined.

(** Property X10.
    A name may be declared again in an inner scope: the declaration is
    accepted, lookups of the name find the inner declaration and the other
    names resolve as before; a second declaration of the name in that same
    scope is refused and changes nothing; and leaving the scope gives back
    the checker exactly as it was before the scope was entered. *)
Theorem shadowing_ends_with_the_scope
        (x : string) (ty : Ty) (m : bool) (tc : TypeChecker.t) :
  exists tc1,
    declare_variable x ty m (enter_scope tc) = (true, tc1) /\
    lookup_variable x tc1 = Some (MkVariableInfo (copy_type ty (ty_span ty)) m) /\
    (forall y, y <> x -> lookup_variable y tc1 = lookup_variable y tc) /\
    (forall ty2 m2, declare_variable x ty2 m2 tc1 = (false, tc1)) /\
    exit_scope tc1 = Some tc.
Proof.
  destruct tc as [scopes errors].
  exists (TypeChecker.Mk (<[x := MkVariableInfo ty m]> ∅ :: scopes) errors).
  split.
  { unfold declare_variable, enter_scope. cbn [scopes_ errors_].
    rewrite lookup_empty. reflexivity. }
  unfold lookup_variable. cbn [scopes_ lookup_scopes].
  split; [rewrite lookup_insert_eq; reflexivity|].
  split.
  { intros y Hy. rewrite lookup_insert_ne by congruence. rewrite lookup_empty. reflexivity. }
  split; [|reflexivity].
  intros ty2 m2. unfold declare_variable. cbn [scopes_ errors_].
  rewrite lookup_insert_eq. reflexivity.
Qed.

(** Property X11.
    The check of an expression that fails records exactly one error, after
    the errors recorded before; one that succeeds records none. *)
Theorem expression_check_records_one_error
        (program : Program) (e : Expr) (tc : TypeChecker.t)
        (b : bool) (e' : Expr) (tc' : TypeChecker.t) :
  check_expression program e tc = Some (b, e', tc') ->
  (b = true -> errors_ tc' = errors_ tc) /\
  (b = false ->
   exists message sp, errors_ tc' = errors_ tc ++ [format_error message sp]).
Proof.
  intros H. pose proof (check_expression_one_error program e tc b e' tc' H) as Hr.
  destruct b; split; intros Hb; try discriminate; assumption.
Qed.

Lemma expression_check_records_one_error_witness :
  exists e' tc',
    check_expression Examples.call_program (Examples.borrow_z (MkSpan 3 4))
                     Examples.z_borrowed = Some (false, e', tc') /\
    exists message sp,
      errors_ tc' = errors_ Examples.z_borrowed ++ [format_error message sp].
Proof.
  destruct (check_expression Examples.call_program (Examples.borrow_z (MkSpan 3 4))
                             Examples.z_borrowed) as [[[[|] e'] tc']|] eqn:E;
    try (vm_compute in E; discriminate).
  exists e', tc'. split; [reflexivity|].
  exact (proj2 (expression_check_records_one_error _ _ _ _ _ _ E) eq_refl).
Defined.

(** Property X12.
    The checker keeps its scope stack balanced.  The check of an expression
    leaves the names of every frame as they were; so does the check of an
    [if], a [while], a block or an expression statement, whatever is
    declared inside; a [let] that is accepted adds its name, and nothing
    else, to the innermost frame, which did not hold it (to a new frame
    when the stack was empty), and a [let] that is refused adds nothing;
    and the check of a function gives back the frames it found, unless it
    stops at a duplicate parameter: it then returns with the frame of the
    parameters still on the stack. *)
Theorem scopes_are_balanced (program : Program) :
  (forall e tc b e' tc',
     check_expression program e tc = Some (b, e', tc') ->
     frame_names tc' = frame_names tc) /\
  (forall sp m x ty e tc b s' tc',
     check_statement program (LetStmt sp m x ty e) tc = Some (b, s', tc') ->
     (b = false -> frame_names tc' = frame_names tc) /\
     (b = true ->
      match frame_names tc with
      | [] => frame_names tc' = [{[x]}]
      | innermost :: outer =>
          (x ∉ innermost) /\ frame_names tc' = ({[x]} ∪ innermost) :: outer
      end)) /\
  (forall s tc b s' tc',
     check_statement program s tc = Some (b, s', tc') ->
     (forall sp m x ty e, s <> LetStmt sp m x ty e) ->
     frame_names tc' = frame_names tc) /\
  (forall func tc b func' tc',
     check_function program func tc = Some (b, func', tc') ->
     frame_names tc' = frame_names tc \/
     (b = false /\ func' = func /\
      exists frame p,
        scopes_ tc' = frame :: scopes_ tc /\ p ∈ fn_params func /\
        errors_ tc' = errors_ tc ++
          [format_error ("Duplicate parameter name: " +:+ param_name p) (param_span p)])).
Proof.
  split; [intros e tc b e' tc'; apply check_expression_frames|].
  split.
  { intros sp m x ty e tc b s' tc' H.
    pose proof (check_let_frames program sp m x ty e tc b s' tc' H) as Hl.
    split; intros ->; exact Hl. }
  split.
  { intros s tc b s' tc' H Hs.
    pose proof (check_statement_frames program s tc b s' tc' H) as Hf.
    destruct s; try assumption. exfalso. eapply Hs. reflexivity. }
  intros func tc b func' tc'. apply check_function_frames.
Qed.

Lemma scopes_are_balanced_witness :
  (exists s' tc',
     check_statement Examples.call_program
       (LetStmt (MkSpan 0 9) false "y" (MkTy I32 None (MkSpan 7 10))
                (IntLiteral (MkSpan 13 14) None 1))
       Examples.z_declared = Some (true, s', tc') /\
     frame_names tc' = [{["y"]} ∪ ∅; {["z"]}]) /\
  (exists program' tc',
     check_function Examples.borrow_in_block_program CheckerExamples.borrow_in_block_function
                    TypeChecker.init = Some (false, program', tc') /\
     frame_names tc' = frame_names TypeChecker.init) /\
  (exists tc',
     check_function Examples.call_program CheckerExamples.duplicate_parameter TypeChecker.init
       = Some (false, CheckerExamples.duplicate_parameter, tc') /\
     exists frame p,
       scopes_ tc' = frame :: scopes_ TypeChecker.init /\
       p ∈ fn_params CheckerExamples.duplicate_parameter /\
       errors_ tc' = errors_ TypeChecker.init ++
         [format_error ("Duplicate parameter name: " +:+ param_name p) (param_span p)]).
Proof.
  destruct (scopes_are_balanced Examples.borrow_in_block_program) as (_ & _ & _ & H1).
  destruct (scopes_are_balanced Examples.call_program) as (_ & H0 & _ & H2).
  split; [|split].
  - destruct (check_statement Examples.call_program
                (LetStmt (MkSpan 0 9) false "y" (MkTy I32 None (MkSpan 7 10))
                         (IntLiteral (MkSpan 13 14) None 1))
                Examples.z_declared)
      as [[[[|] s'] tc']|] eqn:E; try (vm_compute in E; discriminate).
    exists s', tc'. split; [reflexivity|].
    destruct (H0 _ _ _ _ _ _ _ _ _ E) as (_ & Hl). specialize (Hl eq_refl).
    assert (Hn : frame_names Examples.z_declared = [∅; {["z"]}]).
    { unfold frame_names, Examples.z_declared. cbn.
      rewrite dom_empty_L, dom_singleton_L. reflexivity. }
    rewrite Hn in Hl. exact (proj2 Hl).
  - destruct (check_function Examples.borrow_in_block_program
                CheckerExamples.borrow_in_block_function TypeChecker.init)
      as [[[[|] func'] tc']|] eqn:E; try (vm_compute in E; discriminate).
    exists func', tc'. split; [reflexivity|].
    destruct (H1 _ _ _ _ _ E) as [Hf|(_ & _ & frame & p & Hs & _)]; [exact Hf|].
    exfalso. vm_compute in E. injection E as _ Htc. subst tc'. discriminate Hs.
  - destruct (check_function Examples.call_program CheckerExamples.duplicate_parameter TypeChecker.init)
      as [[[[|] func'] tc']|] eqn:E; try (vm_compute in E; discriminate).
    destruct (H2 _ _ _ _ _ E) as [Hf|(_ & Hfunc & Hrest)].
    + exfalso. vm_compute in E. injection E as _ Htc. subst tc'. discriminate Hf.
    + subst func'. exists tc'. split; [reflexivity|]. exact Hrest.
Defined.

Import TypeChecker CheckerSpec CheckerFacts Compiler CompilerSpec CompilerFacts.
Import AnnotationSpec AnnotationFacts RepertoireFacts.

(** Property X13.
    The checker changes nothing of a program but the [type] slots of its
    expressions and the [is_mut_binding] flags of its identifiers: with
    these cleared, the tree it returns is the tree it was given, whether the
    check succeeds or fails. *)
Theorem the_checker_only_annotates
        (program : Program) (tc : TypeChecker.t)
        (b : bool) (program' : Program) (tc' : TypeChecker.t) :
  check_program program tc = Some (b, program', tc') ->
  erase_program program' = erase_program program.
Proof.
  unfold check_program. intros H.
  destruct (check_functions program (items program) tc) as [[[result items'] tc1]|] eqn:E;
    [|discriminate].
  injection H as _ <- _. unfold erase_program. cbn [prog_span items].
  rewrite (check_functions_erase _ _ _ _ _ _ E). reflexivity.
Qed.

Lemma the_checker_only_annotates_witness :
  erase_program Examples.two_failing_checked = erase_program Examples.two_failing_program.
Proof.
  apply (the_checker_only_annotates Examples.two_failing_program TypeChecker.init false
           Examples.two_failing_checked
           (TypeChecker.Mk [] ["Type error at 12:27: Type mismatch in let binding"])).
  vm_compute. reflexivity.
Defined.

(** Property X14.
    The compiler reads neither the [type] slots nor the [is_mut_binding]
    flags: a program compiles to the same result, code, tables or
    exception, before and after the checker has annotated it. *)
Theorem checking_does_not_change_the_code
        (w : nat) (program : Program) (tc : TypeChecker.t)
        (b : bool) (program' : Program) (tc' : TypeChecker.t) :
  compile w (erase_program program) = compile w program /\
  (check_program program tc = Some (b, program', tc') ->
   compile w program' = compile w program).
Proof.
  split; [apply compile_erase|].
  unfold check_program. intros H.
  destruct (check_functions program (items program) tc) as [[[result items'] tc1]|] eqn:E;
    [|discriminate].
  injection H as _ <- _.
  rewrite <- (compile_erase w (MkProgram (prog_span program) items')).
  rewrite <- (compile_erase w program).
  unfold erase_program. cbn [prog_span items].
  rewrite (check_functions_erase _ _ _ _ _ _ E). reflexivity.
Qed.

Lemma checking_does_not_change_the_code_witness :
  compile 8 Examples.two_failing_checked = compile 8 Examples.two_failing_program.
Proof.
  apply (proj2 (checking_does_not_change_the_code 8 Examples.two_failing_program
                  TypeChecker.init false Examples.two_failing_checked
                  (TypeChecker.Mk [] ["Type error at 12:27: Type mismatch in let binding"]))).
  vm_compute. reflexivity.
Defined.

(** Property X15.
    An expression whose check succeeds leaves with its [type] slot filled,
    unless it is an identifier that names a function of the program, which
    is accepted as it stands. *)
Theorem a_successful_check_fills_the_type_slot
        (program : Program) (e : Expr) (tc : TypeChecker.t)
        (e' : Expr) (tc' : TypeChecker.t) :
  check_expression program e tc = Some (true, e', tc') ->
  (forall sp ty x m, e = Identifier sp ty x m -> is_function_name program x = false) ->
  (exists ty, expr_type e' = Some ty) /\
  forall sp ty f m,
    is_function_name program f = true ->
    check_expression program (Identifier sp ty f m) tc = Some (true, Identifier sp ty f m, tc).
Proof.
  intros H Hident. split; [eapply check_expression_typed; eassumption|].
  intros sp ty f m Hf. simpl. rewrite Hf. reflexivity.
Qed.

Lemma a_successful_check_fills_the_type_slot_witness :
  exists e' tc',
    check_expression Examples.call_program Examples.add_call TypeChecker.init
      = Some (true, e', tc') /\
    exists ty, expr_type e' = Some ty.
Proof.
  destruct (check_expression Examples.call_program Examples.add_call TypeChecker.init)
    as [[[[|] e'] tc']|] eqn:E; try (vm_compute in E; discriminate).
  exists e', tc'. split; [reflexivity|].
  apply (a_successful_check_fills_the_type_slot _ _ _ _ _ E).
  intros sp ty x m Hx. discriminate Hx.
Defined.

(** Property X16.
    When [compile] throws, the message is one of four: "Undefined
    variable: <name>", "Function not found: <name>", "Assignment target
    must be an identifier" or "Function callee must be an identifier".  It
    never is "Unknown binary operator" or "Invalid function index". *)
Theorem compile_throws_one_of_four_messages
        (w : nat) (program : Program) (what : string) :
  compile w program = inl what -> lowering_error what.
Proof.
  unfold compile. intros H. eapply (second_pass_error w); [eassumption| |].
  - constructor.
  - apply first_pass_bounded.
Qed.

Lemma compile_throws_one_of_four_messages_witness :
  compile 8 ValueExamples.function_as_value = inl ("Undefined variable: " +:+ "main") /\
  lowering_error ("Undefined variable: " +:+ "main").
Proof.
  assert (H : compile 8 ValueExamples.function_as_value = inl ("Undefined variable: " +:+ "main"))
    by (vm_compute; reflexivity).
  split; [exact H|].
  exact (compile_throws_one_of_four_messages 8 ValueExamples.function_as_value _ H).
Defined.

Import Parser ParserSpec ParserFacts ListingFacts Driver LexerSpec LexerFacts.

(** Property X17.
    The output files are named after the source file up to its last dot:
    for a name with an extension free of dots, the extension is replaced;
    a name without any dot is kept whole.  A dot in a directory part counts
    like any other, so a path such as [./prog] loses all that follows
    it. *)
Theorem output_files_are_named_after_the_stem :
  (forall stem extension,
     dotless extension = true ->
     output_stem (stem +:+ String "." extension) = stem) /\
  (forall filename, dotless filename = true -> output_stem filename = filename).
Proof.
  split.
  - intros stem extension H. unfold output_stem. rewrite (find_last_of_app _ _ H).
    apply substring_app.
  - intros filename H. unfold output_stem. rewrite (find_last_of_dotless _ H). reflexivity.
Qed.

Lemma output_files_are_named_after_the_stem_witness :
  output_stem ("src/prog" +:+ String "." "nust") = "src/prog" /\
  output_stem ("." +:+ String "." "/prog") = "." /\
  output_stem "prog" = "prog".
Proof.
  destruct output_files_are_named_after_the_stem as (H1 & H2).
  split; [apply H1; reflexivity|]. split; [apply H1; reflexivity|].
  apply H2. reflexivity.
Defined.

(** Property X18.
    [skip_whitespace] never moves backwards and stays inside the source;
    where it stops, either the source ends or the character is no white
    space and no comment starts; skipping again from there changes
    nothing. *)
Theorem skip_whitespace_stops_at_a_token (source : string) (pos : nat) :
  (pos <= skip_whitespace source pos)%nat /\
  ((pos <= String.length source)%nat ->
   (skip_whitespace source pos <= String.length source)%nat) /\
  (at_end source (skip_whitespace source pos) = true \/
   (isspace (char_at source (skip_whitespace source pos)) = false /\
    peek source "//" (skip_whitespace source pos) = false)) /\
  skip_whitespace source (skip_whitespace source pos) = skip_whitespace source pos.
Proof.
  split; [apply skip_whitespace_ge|]. split; [apply skip_whitespace_le|].
  split; [apply skip_whitespace_lands|]. apply skip_whitespace_idem.
Qed.

Lemma skip_whitespace_stops_at_a_token_witness :
  (0 <= String.length LexerExamples.commented_source)%nat /\
  (skip_whitespace LexerExamples.commented_source 0 <= String.length LexerExamples.commented_source)%nat.
Proof.
  split; [lia|].
  apply (proj1 (proj2 (skip_whitespace_stops_at_a_token LexerExamples.commented_source 0))). lia.
Defined.

(** Property X19.
    Reading an integer literal inverts the decimal printing of operands:
    where the source holds the decimal digits of [n], followed by something
    that is not a digit, [consume_integer] returns [n] and moves past the
    digits when [n] is at most 2147483647, and throws otherwise. *)
Theorem integer_literals_invert_decimal_printing
        (source : string) (pos : nat) (n : N) (suffix : string) :
  rest source pos = Output.show_operand n +:+ suffix ->
  no_digit_ahead suffix = true ->
  consume_integer source pos =
    if (n <=? 2147483647)%N
    then Ok (Z.of_N n) (pos + String.length (Output.show_operand n))
    else Throw "stoi".
Proof.
  intros Hrest Hs. unfold consume_integer. rewrite Hrest.
  unfold Output.show_operand in *. rewrite (digits_length_of_uint _ _ Hs).
  assert (Hlen : (String.length (NilEmpty.string_of_uint (N.to_uint n)) =? 0)%nat = false).
  { pose proof (show_operand_not_empty n) as Hn. unfold Output.show_operand in Hn.
    destruct (NilEmpty.string_of_uint (N.to_uint n)); [congruence|reflexivity]. }
  rewrite Hlen.
  rewrite substring_drop. fold (rest source pos). rewrite Hrest, substring_app.
  rewrite decimal_value_of_uint, DecimalN.Unsigned.of_to.
  destruct (n <=? 2147483647)%N eqn:E.
  - apply N.leb_le in E. replace (2147483647 <? Z.of_N n)%Z with false; [reflexivity|].
    symmetry. apply Z.ltb_ge. lia.
  - apply N.leb_gt in E. replace (2147483647 <? Z.of_N n)%Z with true; [reflexivity|].
    symmetry. apply Z.ltb_lt. lia.
Qed.

Lemma integer_literals_invert_decimal_printing_witness :
  consume_integer "x = 2147483648;" 4 = Throw "stoi" /\
  consume_integer "x = 2147483647;" 4 = Ok 2147483647%Z 14.
Proof.
  split.
  - exact (integer_literals_invert_decimal_printing "x = 2147483648;" 4 2147483648 ";"
             eq_refl eq_refl).
  - exact (integer_literals_invert_decimal_printing "x = 2147483647;" 4 2147483647 ";"
             eq_refl eq_refl).
Defined.

(** Property X20.
    A source that holds nothing but white space and comments is a program
    without functions: it is parsed with any fuel, passes the checker and
    compiles to no instruction, and [main] writes two empty files. *)
Theorem a_blank_source_gives_empty_files
        (w fuel : nat) (filename source : string) :
  skip_whitespace source 0 = String.length source ->
  parse source (S fuel)
  = Ok (MkProgram (MkSpan 0 (String.length source)) []) (String.length source) /\
  run w (S fuel) filename source
  = Written (output_stem filename +:+ ".ns") "" (output_stem filename +:+ ".no") [].
Proof.
  intros H.
  assert (Hp : parse source (S fuel)
               = Ok (MkProgram (MkSpan 0 (String.length source)) [])
                    (String.length source)).
  { unfold parse. rewrite H. cbn [parse_items]. unfold at_end.
    rewrite Nat.leb_refl. reflexivity. }
  split; [exact Hp|]. unfold run. rewrite Hp. reflexivity.
Qed.

Lemma a_blank_source_gives_empty_files_witness :
  skip_whitespace LexerExamples.commented_source 0 = String.length LexerExamples.commented_source /\
  run 8 1 "empty.nust" LexerExamples.commented_source = Written "empty.ns" "" "empty.no" [].
Proof.
  assert (H : skip_whitespace LexerExamples.commented_source 0 = String.length LexerExamples.commented_source)
    by reflexivity.
  split; [exact H|].
  exact (proj2 (a_blank_source_gives_empty_files 8 0 "empty.nust" LexerExamples.commented_source H)).
Defined.

Import Parser LexerFacts PositionSpec PositionFacts.

(** Property X21.
    The parser never leaves the source: started at a position inside the
    source, a type, an expression, a statement or a function that parses
    ends at a position that is not before the start and not after
    [source.length()] (so [source.compare(pos, ...)] and [source[pos]] are
    never given a position beyond the end).  A program that parses has
    consumed the whole source, and its span is the whole source. *)
Theorem the_parser_stays_inside_the_source (source : string) (fuel : nat) :
  (forall pos, stays source pos (parse_type source fuel pos)) /\
  (forall pos, stays source pos (parse_expr source fuel pos)) /\
  (forall pos, stays source pos (parse_statement source fuel pos)) /\
  (forall pos, stays source pos (parse_function source fuel pos)) /\
  (forall program pos,
     parse source fuel = Ok program pos ->
     pos = String.length source /\
     prog_span program = MkSpan 0 (String.length source)).
Proof.
  split; [apply parse_type_stays|]. split; [intros pos; apply parse_expr_stays|].
  split; [destruct (stmt_stays_all source fuel) as (H & _); exact H|].
  split; [intros pos; apply parse_function_stays|].
  intros program pos H. unfold parse in H.
  destruct (parse_items source fuel [] (skip_whitespace source 0)) as [items p| |] eqn:E;
    try discriminate.
  cbn [bind] in H. injection H as <- <-.
  apply parse_items_stays in E; [|apply skip_whitespace_le; lia].
  subst p. split; reflexivity.
Qed.

Lemma the_parser_stays_inside_the_source_witness :
  (exists e,
     parse_expr "1 + f(2); x" 50 0 = Ok e 8 /\ (0 <= 8 <= 11)%nat) /\
  (exists program,
     parse Examples.call_source 200 = Ok program (String.length Examples.call_source) /\
     prog_span program = MkSpan 0 (String.length Examples.call_source)).
Proof.
  destruct (the_parser_stays_inside_the_source "1 + f(2); x" 50) as (_ & H & _).
  destruct (the_parser_stays_inside_the_source Examples.call_source 200)
    as (_ & _ & _ & _ & G).
  split.
  - destruct (parse_expr "1 + f(2); x" 50 0) as [e p| |] eqn:E;
      [|vm_compute in E; discriminate|vm_compute in E; discriminate].
    assert (p = 8%nat) by (vm_compute in E; congruence). subst p.
    exists e. split; [reflexivity|]. apply (H 0%nat e 8%nat E). simpl. lia.
  - destruct (parse Examples.call_source 200) as [program p| |] eqn:E;
      [|vm_compute in E; discriminate|vm_compute in E; discriminate].
    destruct (G program p eq_refl) as (-> & Hs). exists program. split; [reflexivity|exact Hs].
Defined.

Import Output ObjectSpec ObjectFacts.

(** Property X22.
    The object file can be read back in one way only: every byte of it is
    below 256, an instruction takes one byte and, when its opcode has an
    operand, [sizeof(size_t)] more, and two lists of instructions (operands
    being [size_t] values, and 0 where the opcode takes none) with the same
    bytes are the same list. *)
Theorem object_file_is_unambiguous (w : nat) (instrs : list Instruction) :
  Forall (fun byte => (byte < 256)%N) (write_no w instrs) /\
  length (write_no w instrs) = sum_list (encoded_size w <$> instrs) /\
  (forall others,
     Forall (fits w) instrs -> Forall (fits w) others ->
     write_no w instrs = write_no w others -> instrs = others).
Proof.
  split; [|split].
  - induction instrs as [|i k IH]; [constructor|].
    rewrite write_no_cons. apply Forall_app. split; [|exact IH].
    unfold bytecode. constructor; [apply opcode_value_byte|].
    destruct (has_operand i); [|constructor].
    apply Forall_forall. intros x Hx. exact (operand_bytes_byte _ _ _ Hx).
  - induction instrs as [|i k IH]; [reflexivity|].
    rewrite write_no_cons, length_app, length_bytecode, IH. reflexivity.
  - induction instrs as [|i k IH]; intros others F1 F2 H.
    + destruct others as [|j others]; [reflexivity|]. discriminate H.
    + destruct others as [|j others]; [discriminate H|].
      rewrite !write_no_cons in H.
      apply Forall_cons in F1 as (Fi & F1). apply Forall_cons in F2 as (Fj & F2).
      apply bytecode_inj in H as (-> & H); [|assumption|assumption].
      f_equal. apply IH; assumption.
Qed.

Lemma object_file_is_unambiguous_witness :
  write_no 8 [MkInstruction PUSH_I32 258; MkInstruction POP 0; MkInstruction RET 0]
  = [0; 2; 1; 0; 0; 0; 0; 0; 0; 3; 28]%N /\
  Forall (fits 8) [MkInstruction PUSH_I32 258; MkInstruction POP 0; MkInstruction RET 0] /\
  [MkInstruction PUSH_I32 258; MkInstruction POP 0; MkInstruction RET 0]
  = [MkInstruction PUSH_I32 258; MkInstruction POP 0; MkInstruction RET 0].
Proof.
  destruct (object_file_is_unambiguous
              8 [MkInstruction PUSH_I32 258; MkInstruction POP 0; MkInstruction RET 0])
    as (_ & _ & G).
  assert (F : Forall (fits 8)
                [MkInstruction PUSH_I32 258; MkInstruction POP 0; MkInstruction RET 0])
    by (repeat constructor).
  split; [reflexivity|]. split; [exact F|].
  apply G; [exact F|exact F|reflexivity].
Defined.
